(** * django-universal-paginator: the cursor codec and the keyset filter

    A shallow embedding of [django_universal_paginator/utils.py]:
    the tagged binary codec of order keys ([VALUE_SERIALIZERS],
    [serialize_value], [serialize_values], [deserialize_values]),
    the inversion of an ordering ([invert_order_by]) and the construction
    of the keyset filter ([filter_by_order_key]). *)

From Stdlib Require Import ZArith List Lia Bool String Ascii QArith_base DecimalString.
From Stdlib.Strings Require Import Byte.
Import ListNotations.
Local Open Scope Z_scope.

(** ** Python values *)

(** [bytes] objects are lists of bytes; [str] objects are lists of Unicode
    code points, so that [len] counts characters and [encode('utf-8')] can
    produce more bytes than there are characters. *)
Definition bytes := list byte.
Definition pystr := list N.

Definition byte_of_Z (z : Z) : byte :=
  match Byte.of_N (Z.to_N (z mod 256)) with
  | Some b => b
  | None => x00
  end.

Definition Z_of_byte (b : byte) : Z := Z.of_N (Byte.to_N b).

Definition pystr_of_string (s : string) : pystr :=
  map N_of_ascii (list_ascii_of_string s).

Definition len {A} (l : list A) : Z := Z.of_nat (List.length l).

(** The values that reach the codec and the filter.  A float carries its
    exact rational value, used by comparisons, and the text [str] gives for
    it; any other object ([datetime], [Decimal], ...) is known to the codec
    only through its [str]. *)
Inductive value : Type :=
| VNone
| VBool (b : bool)
| VStr (s : pystr)
| VBytes (b : bytes)
| VInt (z : Z)
| VFloat (q : Q) (text : pystr)
| VOther (text : pystr).

Inductive exn : Type :=
| SerializationError (msg : string)
| StructError
| IndexError
| TypeError
| ValueError
| UnicodeEncodeError
| UnicodeDecodeError
| InvalidPage.

Inductive result (A : Type) : Type :=
| Ok (a : A)
| Raise (e : exn).
Arguments Ok {A} a.
Arguments Raise {A} e.

Definition bind {A B} (r : result A) (k : A -> result B) : result B :=
  match r with
  | Ok a => k a
  | Raise e => Raise e
  end.

Notation "x <- c ;; k" := (bind c (fun x => k))
  (at level 61, c at next level, right associativity).
Notation "' p <- c ;; k" := (bind c (fun x => let 'p := x in k))
  (at level 61, p pattern, c at next level, right associativity).

(** *** [str(value)] *)

Definition hex_digit (n : Z) : N :=
  Z.to_N (if n <? 10 then 48 + n else 87 + n).

Definition bytes_repr_quote (b : bytes) : Z :=
  if existsb (fun c => Z_of_byte c =? 39) b && negb (existsb (fun c => Z_of_byte c =? 34) b)
  then 34 else 39.

Definition bytes_repr_char (quote : Z) (c : Z) : pystr :=
  if (c =? quote) || (c =? 92) then [92%N; Z.to_N c]
  else if c =? 9 then [92%N; 116%N]
  else if c =? 10 then [92%N; 110%N]
  else if c =? 13 then [92%N; 114%N]
  else if (c <? 32) || (127 <=? c) then [92%N; 120%N; hex_digit (c / 16); hex_digit (c mod 16)]
  else [Z.to_N c].

Definition bytes_repr (b : bytes) : pystr :=
  let quote := bytes_repr_quote b in
  (98%N :: Z.to_N quote :: flat_map (fun c => bytes_repr_char quote (Z_of_byte c)) b)
    ++ [Z.to_N quote].

Definition py_str (v : value) : pystr :=
  match v with
  | VNone => pystr_of_string "None"
  | VBool true => pystr_of_string "True"
  | VBool false => pystr_of_string "False"
  | VStr s => s
  | VBytes b => bytes_repr b
  | VInt z => pystr_of_string (NilZero.string_of_int (Z.to_int z))
  | VFloat _ text => text
  | VOther text => text
  end.

(** *** UTF-8 *)

Definition utf8_encode_char (c : N) : result bytes :=
  let z := Z.of_N c in
  if z <? 128 then Ok [byte_of_Z z]
  else if z <? 2048 then Ok [byte_of_Z (192 + z / 64); byte_of_Z (128 + z mod 64)]
  else if z <? 65536 then
    if (55296 <=? z) && (z <? 57344) then Raise UnicodeEncodeError
    else Ok [byte_of_Z (224 + z / 4096); byte_of_Z (128 + (z / 64) mod 64);
             byte_of_Z (128 + z mod 64)]
  else if z <? 1114112 then
    Ok [byte_of_Z (240 + z / 262144); byte_of_Z (128 + (z / 4096) mod 64);
        byte_of_Z (128 + (z / 64) mod 64); byte_of_Z (128 + z mod 64)]
  else Raise ValueError.

Fixpoint utf8_encode (s : pystr) : result bytes :=
  match s with
  | [] => Ok []
  | c :: s' =>
      b <- utf8_encode_char c ;;
      bs <- utf8_encode s' ;;
      Ok (b ++ bs)
  end.

Definition is_continuation (b : Z) : bool := (128 <=? b) && (b <? 192).

Fixpoint utf8_decode (v : bytes) : result pystr :=
  match v with
  | [] => Ok []
  | b0 :: v1 =>
      let z0 := Z_of_byte b0 in
      if z0 <? 128 then
        s <- utf8_decode v1 ;; Ok (Z.to_N z0 :: s)
      else
        match v1 with
        | [] => Raise UnicodeDecodeError
        | b1 :: v2 =>
            let z1 := Z_of_byte b1 in
            if negb (is_continuation z1) then Raise UnicodeDecodeError
            else if (194 <=? z0) && (z0 <? 224) then
              s <- utf8_decode v2 ;;
              Ok (Z.to_N ((z0 - 192) * 64 + (z1 - 128)) :: s)
            else
              match v2 with
              | [] => Raise UnicodeDecodeError
              | b2 :: v3 =>
                  let z2 := Z_of_byte b2 in
                  if negb (is_continuation z2) then Raise UnicodeDecodeError
                  else if (224 <=? z0) && (z0 <? 240) then
                    let c := (z0 - 224) * 4096 + (z1 - 128) * 64 + (z2 - 128) in
                    if (c <? 2048) || ((55296 <=? c) && (c <? 57344))
                    then Raise UnicodeDecodeError
                    else s <- utf8_decode v3 ;; Ok (Z.to_N c :: s)
                  else
                    match v3 with
                    | [] => Raise UnicodeDecodeError
                    | b3 :: v4 =>
                        let z3 := Z_of_byte b3 in
                        if negb (is_continuation z3) then Raise UnicodeDecodeError
                        else if (240 <=? z0) && (z0 <? 245) then
                          let c := (z0 - 240) * 262144 + (z1 - 128) * 4096
                                   + (z2 - 128) * 64 + (z3 - 128) in
                          if (c <? 65536) || (1114112 <=? c)
                          then Raise UnicodeDecodeError
                          else s <- utf8_decode v4 ;; Ok (Z.to_N c :: s)
                        else Raise UnicodeDecodeError
                    end
              end
        end
  end.

(** *** [struct.pack] and [struct.unpack] for the formats the module uses *)

Inductive fmt : Type := FB | FH | FI | FQ.

Definition calcsize (f : fmt) : nat :=
  match f with FB => 1 | FH => 2 | FI => 4 | FQ => 8 end%nat.

(** Big-endian digits in base 256, most significant first. *)
Fixpoint be_encode (w : nat) (n : Z) : bytes :=
  match w with
  | O => []
  | S w' => be_encode w' (n / 256) ++ [byte_of_Z n]
  end.

Definition be_decode (v : bytes) : Z :=
  fold_left (fun acc b => acc * 256 + Z_of_byte b) v 0.

Definition struct_pack (f : fmt) (val : Z) : result bytes :=
  if (0 <=? val) && (val <? 256 ^ Z.of_nat (calcsize f))
  then Ok (be_encode (calcsize f) val)
  else Raise StructError.

Definition struct_unpack (f : fmt) (v : bytes) : result Z :=
  if Nat.eqb (List.length v) (calcsize f) then Ok (be_decode v) else Raise StructError.

(** ** The value serializers *)

Record serializer : Type := {
  checker : value -> result bool;
  serialize : value -> result bytes;
  deserialize : bytes -> result (nat * value)
}.

Definition on_str {A} (f : pystr -> result A) (v : value) : result A :=
  match v with VStr s => f s | _ => Raise TypeError end.

Definition on_bytes {A} (f : bytes -> result A) (v : value) : result A :=
  match v with VBytes b => f b | _ => Raise TypeError end.

Definition is_short_string (v : value) : result bool :=
  match v with
  | VStr s => Ok (len s <? 256)
  | _ => Ok false
  end.

Definition serialize_short_string (v : pystr) : result bytes :=
  l <- struct_pack FB (len v) ;;
  e <- utf8_encode v ;;
  Ok (l ++ e).

Definition deserialize_short_string (v : bytes) : result (nat * value) :=
  match v with
  | [] => Raise IndexError
  | b0 :: _ =>
      let length := Z.to_nat (Z_of_byte b0) in
      text <- utf8_decode (skipn 1 v) ;;
      Ok ((length + 1)%nat, VStr text)
  end.

Definition is_long_string (v : value) : result bool :=
  match v with
  | VStr s =>
      if 65535 + 256 <? len s
      then Raise (SerializationError "String value too long")
      else Ok true
  | _ => Ok false
  end.

Definition serialize_long_string (v : pystr) : result bytes :=
  let length := len v - 256 in
  l <- struct_pack FH length ;;
  e <- utf8_encode v ;;
  Ok (l ++ e).

Definition deserialize_long_string (v : bytes) : result (nat * value) :=
  u <- struct_unpack FH (firstn 2 v) ;;
  let length := (Z.to_nat u + 256)%nat in
  text <- utf8_decode (skipn 2 v) ;;
  Ok ((length + 2)%nat, VStr text).

Definition is_bytes (v : value) : result bool :=
  match v with
  | VBytes _ => Ok true
  | _ => Ok false
  end.

Definition serialize_bytes (v : bytes) : result bytes :=
  if 65535 <? len v
  then Raise (SerializationError "Bytes value too long")
  else l <- struct_pack FH (len v) ;; Ok (l ++ v).

Definition deserialize_bytes (v : bytes) : result (nat * value) :=
  u <- struct_unpack FH (firstn 2 v) ;;
  let length := Z.to_nat u in
  Ok ((length + 2)%nat, VBytes (skipn 2 v)).

(** [isinstance(val, int)]: [bool] is a subclass of [int]. *)
Definition as_int (v : value) : option Z :=
  match v with
  | VInt z => Some z
  | VBool true => Some 1
  | VBool false => Some 0
  | _ => None
  end.

Definition sizes : list nat := [1; 2; 4; 8]%nat.
Definition formats : list fmt := [FB; FH; FI; FQ].

(** The [for step in sizes[:size_idx + 1]] loop of [integer_serializer]:
    the pair [(max_val, subtract)] it leaves. *)
Definition integer_bounds (size_idx : nat) : Z * Z :=
  fold_left
    (fun (acc : Z * Z) (step : nat) =>
       let max_val := fst acc in
       (max_val + 256 ^ Z.of_nat step, max_val))
    (firstn (size_idx + 1) sizes) (0, 0).

(** [integer_serializer] is only called with [size_idx] in 1..4 and
    -4..-1, where the list indexing below is the one of Python. *)
Definition integer_serializer (size_idx : Z) : serializer :=
  let negative := size_idx <? 0 in
  let size_idx := Z.to_nat (Z.abs size_idx - 1) in
  let size := nth size_idx sizes 0%nat in
  let format := nth size_idx formats FB in
  let max_val := fst (integer_bounds size_idx) in
  let subtract := snd (integer_bounds size_idx) in
  let max_val := if negative then max_val + 1 else max_val in
  {| checker := fun val =>
       match as_int val with
       | None => Ok false
       | Some val =>
           let val := if negative then - val else val in
           Ok ((0 <=? val) && (val <? max_val))
       end;
     serialize := fun val =>
       match as_int val with
       | None => Raise TypeError
       | Some val =>
           let val := if negative then - val - 1 else val in
           struct_pack format (val - subtract)
       end;
     deserialize := fun val =>
       u <- struct_unpack format (firstn size val) ;;
       let val := u + subtract in
       let val := if negative then - val - 1 else val in
       Ok (size, VInt val) |}.

Definition is_value (x : value) (v : value) : result bool :=
  match x, v with
  | VNone, VNone => Ok true
  | VBool a, VBool b => Ok (Bool.eqb a b)
  | _, _ => Ok false
  end.

Definition constant_serializer (x : value) : serializer :=
  {| checker := is_value x;
     serialize := fun _ => Ok [];
     deserialize := fun _ => Ok (0%nat, x) |}.

Definition VALUE_SERIALIZERS : list serializer :=
  [ constant_serializer VNone;
    constant_serializer (VBool true);
    constant_serializer (VBool false);
    {| checker := is_short_string;
       serialize := on_str serialize_short_string;
       deserialize := deserialize_short_string |};
    {| checker := is_long_string;
       serialize := on_str serialize_long_string;
       deserialize := deserialize_long_string |};
    {| checker := is_bytes;
       serialize := on_bytes serialize_bytes;
       deserialize := deserialize_bytes |};
    integer_serializer 1;
    integer_serializer (-1);
    integer_serializer 2;
    integer_serializer (-2);
    integer_serializer 3;
    integer_serializer (-3);
    integer_serializer 4;
    integer_serializer (-4) ].

(** ** [serialize_value], [serialize_values], [deserialize_values] *)

(** The [for i, serializer in enumerate(...)] loop of [serialize_value]:
    [None] when no checker accepts the value. *)
Fixpoint serialize_first (i : Z) (ss : list serializer) (v : value)
  : option (result bytes) :=
  match ss with
  | [] => None
  | s :: ss' =>
      match checker s v with
      | Raise e => Some (Raise e)
      | Ok true =>
          Some (t <- struct_pack FB i ;; p <- serialize s v ;; Ok (t ++ p))
      | Ok false => serialize_first (i + 1) ss' v
      end
  end.

(** [serialize_value] calls itself on [str(value)] when the loop falls
    through; [fuel] bounds the depth of these calls and [None] is the
    answer of a call that ran out of it. *)
Fixpoint serialize_value (fuel : nat) (v : value) : option (result bytes) :=
  match fuel with
  | O => None
  | S fuel' =>
      match serialize_first 0 VALUE_SERIALIZERS v with
      | Some r => Some r
      | None => serialize_value fuel' (VStr (py_str v))
      end
  end.

(** Two calls are enough for every value, as proved below. *)
Definition serialize_value_fuel : nat := 2.

Fixpoint serialize_values (values : list value) : option (result bytes) :=
  match values with
  | [] => Some (Ok [])
  | v :: values' =>
      match serialize_value serialize_value_fuel v with
      | None => None
      | Some (Raise e) => Some (Raise e)
      | Some (Ok b) =>
          match serialize_values values' with
          | Some (Ok bs) => Some (Ok (b ++ bs))
          | r => r
          end
      end
  end.

(** The [while data:] loop of [deserialize_values]; every turn removes the
    tag byte, so [length data] turns are enough. *)
Fixpoint deserialize_loop (fuel : nat) (data : bytes) (values : list value)
  : option (result (list value)) :=
  match data with
  | [] => Some (Ok values)
  | data_type :: data =>
      match fuel with
      | O => None
      | S fuel' =>
          match nth_error VALUE_SERIALIZERS (Z.to_nat (Z_of_byte data_type)) with
          | None => Some (Raise IndexError)
          | Some s =>
              match deserialize s data with
              | Raise e => Some (Raise e)
              | Ok (consumed, v) =>
                  let data := if Nat.eqb consumed 0 then data else skipn consumed data in
                  deserialize_loop fuel' data (values ++ [v])
              end
          end
      end
  end.

Definition deserialize_values (data : bytes) : option (result (list value)) :=
  deserialize_loop (List.length data) data [].

(** ** Orderings *)

(** An [OrderBy] expression over [F(name)]: the name of the column, the
    direction, and the two null flags, each [None], [True] or [False]. *)
Record OrderBy : Type := {
  expression_name : string;
  descending : bool;
  nulls_first : option bool;
  nulls_last : option bool
}.

(** Truth value of a flag in an [if]. *)
Definition truthy (o : option bool) : bool :=
  match o with
  | Some true => true
  | _ => false
  end.

(** [OrderBy] objects are mutable and shared: they live in a store and an
    ordering is a list of references into it. *)
Definition loc := nat.

Record heap : Type := {
  cells : loc -> OrderBy;
  next : loc
}.

Definition alloc (h : heap) (o : OrderBy) : loc * heap :=
  (next h,
   {| cells := fun l => if Nat.eqb l (next h) then o else cells h l;
      next := S (next h) |}).

Definition update (h : heap) (l : loc) (o : OrderBy) : heap :=
  {| cells := fun l' => if Nat.eqb l' l then o else cells h l';
     next := next h |}.

(** [copy.deepcopy] of a list of objects: the memo maps every object
    already copied to its copy, so that an object listed twice is copied
    once. *)
Definition memo := list (loc * loc).

Fixpoint memo_find (m : memo) (l : loc) : option loc :=
  match m with
  | [] => None
  | (k, c) :: m' => if Nat.eqb k l then Some c else memo_find m' l
  end.

Fixpoint deepcopy_items (m : memo) (order_by : list loc) (h : heap)
  : list loc * memo * heap :=
  match order_by with
  | [] => ([], m, h)
  | l :: rest =>
      match memo_find m l with
      | Some c =>
          let '(copies, m', h') := deepcopy_items m rest h in
          (c :: copies, m', h')
      | None =>
          let '(c, h1) := alloc h (cells h l) in
          let '(copies, m', h') := deepcopy_items ((l, c) :: m) rest h1 in
          (c :: copies, m', h')
      end
  end.

Definition deepcopy (order_by : list loc) (h : heap) : list loc * heap :=
  let '(copies, _, h') := deepcopy_items [] order_by h in (copies, h').

(** The body of the loop of [invert_order_by] on one field. *)
Definition invert_field (field : OrderBy) : OrderBy :=
  let field :=
    {| expression_name := expression_name field;
       descending := negb (descending field);
       nulls_first := nulls_first field;
       nulls_last := nulls_last field |} in
  if truthy (nulls_first field) then
    {| expression_name := expression_name field;
       descending := descending field;
       nulls_first := None;
       nulls_last := Some true |}
  else if truthy (nulls_last field) then
    {| expression_name := expression_name field;
       descending := descending field;
       nulls_first := Some true;
       nulls_last := None |}
  else field.

Fixpoint invert_loop (order_by : list loc) (h : heap) : heap :=
  match order_by with
  | [] => h
  | l :: rest => invert_loop rest (update h l (invert_field (cells h l)))
  end.

Definition invert_order_by (order_by : list loc) (h : heap) : list loc * heap :=
  let '(order_by, h) := deepcopy order_by h in
  (order_by, invert_loop order_by h).

(** The ordering a list of references denotes in a store. *)
Definition read (h : heap) (order_by : list loc) : list OrderBy :=
  map (cells h) order_by.

(** An entry of [order_by]: a field name such as ["-name"], or an
    [OrderBy] object. *)
Inductive order_item : Type :=
| ByName (field : string)
| ByExpr (l : loc).

Definition F_asc (name : string) : OrderBy :=
  {| expression_name := name; descending := false;
     nulls_first := None; nulls_last := None |}.

Definition F_desc (name : string) : OrderBy :=
  {| expression_name := name; descending := true;
     nulls_first := None; nulls_last := None |}.

Definition convert_to_order_by (field : order_item) (h : heap) : loc * heap :=
  match field with
  | ByExpr l => (l, h)
  | ByName field =>
      if String.eqb (substring 0 1 field) "-"
      then alloc h (F_desc (substring 1 (String.length field - 1) field))
      else alloc h (F_asc field)
  end.

Fixpoint convert_order_by_to_expressions (order_by : list order_item) (h : heap)
  : list loc * heap :=
  match order_by with
  | [] => ([], h)
  | field :: rest =>
      let '(l, h1) := convert_to_order_by field h in
      let '(ls, h2) := convert_order_by_to_expressions rest h1 in
      (l :: ls, h2)
  end.

(** ** Filters *)

(** Django's [Q] objects, up to the order and the nesting of the children
    of a node, which evaluation does not see: [QEmpty] is [Q()], a leaf is
    one keyword argument [lookup=value]. *)
Inductive Q : Type :=
| QEmpty
| QLeaf (lookup : string) (v : value)
| QAnd (a b : Q)
| QOr (a b : Q).

(** [bool(q)] *)
Definition q_bool (q : Q) : bool :=
  match q with
  | QEmpty => false
  | _ => true
  end.

(** [a | b] and [a & b]: an empty operand is dropped. *)
Definition q_or (a b : Q) : Q :=
  if negb (q_bool a) then b
  else if negb (q_bool b) then a
  else QOr a b.

Definition q_and (a b : Q) : Q :=
  if negb (q_bool a) then b
  else if negb (q_bool b) then a
  else QAnd a b.

(** A [dict] with string keys, in insertion order. *)
Definition dict := list (string * value).

Fixpoint dict_set (d : dict) (k : string) (v : value) : dict :=
  match d with
  | [] => [(k, v)]
  | (k', v') :: d' =>
      if String.eqb k' k then (k', v) :: d' else (k', v') :: dict_set d' k v
  end.

Fixpoint dict_pop (d : dict) (k : string) : dict :=
  match d with
  | [] => []
  | (k', v') :: d' =>
      if String.eqb k' k then d' else (k', v') :: dict_pop d' k
  end.

(** A [Q] built from the keyword arguments [kwargs]: their conjunction. *)
Fixpoint Q_kwargs (d : dict) : Q :=
  match d with
  | [] => QEmpty
  | [(k, v)] => QLeaf k v
  | (k, v) :: d' => QAnd (QLeaf k v) (Q_kwargs d')
  end.

(** *** What a filter selects *)

Definition row := string -> value.

Fixpoint compare_str (a b : pystr) : comparison :=
  match a, b with
  | [], [] => Eq
  | [], _ :: _ => Lt
  | _ :: _, [] => Gt
  | x :: a', y :: b' =>
      match N.compare x y with
      | Eq => compare_str a' b'
      | c => c
      end
  end.

(** Comparison of two non-null column values; [None] when the database
    does not compare them. *)
Definition compare_values (a b : value) : option comparison :=
  match a, b with
  | VInt x, VInt y => Some (Z.compare x y)
  | VFloat x _, VFloat y _ => Some (Qcompare x y)
  | VInt x, VFloat y _ => Some (Qcompare (inject_Z x) y)
  | VFloat x _, VInt y => Some (Qcompare x (inject_Z y))
  | VStr x, VStr y => Some (compare_str x y)
  | VBool x, VBool y => Some (Bool.compare x y)
  | _, _ => None
  end.

Definition is_null (v : value) : bool :=
  match v with
  | VNone => true
  | _ => false
  end.

Inductive lookup_kind : Type := Exact | Gt_ | Gte | Lt_ | Lte | IsNull.

Definition strip_suffix (suffix s : string) : option string :=
  let n := String.length s in
  let k := String.length suffix in
  if (k <=? n)%nat && String.eqb (substring (n - k) k s) suffix
  then Some (substring 0 (n - k) s)
  else None.

(** A keyword of a filter names a column and, after the separator, a
    lookup; without a lookup it is an exact match. *)
Definition split_lookup (key : string) : string * lookup_kind :=
  match strip_suffix "__gte" key with
  | Some f => (f, Gte)
  | None =>
  match strip_suffix "__gt" key with
  | Some f => (f, Gt_)
  | None =>
  match strip_suffix "__lte" key with
  | Some f => (f, Lte)
  | None =>
  match strip_suffix "__lt" key with
  | Some f => (f, Lt_)
  | None =>
  match strip_suffix "__isnull" key with
  | Some f => (f, IsNull)
  | None => (key, Exact)
  end end end end end.

Definition is_cmp (c : option comparison) (x : comparison) : bool :=
  match c, x with
  | Some Eq, Eq | Some Lt, Lt | Some Gt, Gt => true
  | _, _ => false
  end.

(** A comparison with a null column is never true; [column=None] is
    [column IS NULL]. *)
Definition eval_leaf (key : string) (v : value) (r : row) : bool :=
  let '(field, kind) := split_lookup key in
  let c := compare_values (r field) v in
  match kind with
  | Exact => if is_null v then is_null (r field) else is_cmp c Eq
  | Gt_ => is_cmp c Gt
  | Gte => is_cmp c Gt || is_cmp c Eq
  | Lt_ => is_cmp c Lt
  | Lte => is_cmp c Lt || is_cmp c Eq
  | IsNull =>
      match v with
      | VBool true => is_null (r field)
      | _ => negb (is_null (r field))
      end
  end.

Fixpoint eval (q : Q) (r : row) : bool :=
  match q with
  | QEmpty => true
  | QLeaf k v => eval_leaf k v r
  | QAnd a b => eval a r && eval b r
  | QOr a b => eval a r || eval b r
  end.

(** ** Querysets *)

(** What the module sees of a queryset: the ordering of its query and of
    its model, the filters and annotations applied so far, and the
    expressions its database refuses. *)
Record queryset : Type := {
  query_order_by : list order_item;
  meta_ordering : list order_item;
  query_where : list Q;
  query_annotations : list (string * Q);
  engine_rejects : Q -> bool
}.

Definition get_order_by (qs : queryset) : list order_item :=
  match query_order_by qs with
  | [] => meta_ordering qs
  | order_by => order_by
  end.

Definition qs_order_by (qs : queryset) (order_by : list loc) : queryset :=
  {| query_order_by := map ByExpr order_by;
     meta_ordering := meta_ordering qs;
     query_where := query_where qs;
     query_annotations := query_annotations qs;
     engine_rejects := engine_rejects qs |}.

Definition qs_filter (qs : queryset) (q : Q) : result queryset :=
  if engine_rejects qs q then Raise ValueError
  else Ok {| query_order_by := query_order_by qs;
             meta_ordering := meta_ordering qs;
             query_where := query_where qs ++ [q];
             query_annotations := query_annotations qs;
             engine_rejects := engine_rejects qs |}.

Definition qs_annotate (qs : queryset) (name : string) (condition : Q)
  : result queryset :=
  if engine_rejects qs condition then Raise ValueError
  else Ok {| query_order_by := query_order_by qs;
             meta_ordering := meta_ordering qs;
             query_where := query_where qs;
             query_annotations := query_annotations qs ++ [(name, condition)];
             engine_rejects := engine_rejects qs |}.

(** The rows of the table a queryset returns. *)
Definition selects (qs : queryset) (r : row) : bool :=
  forallb (fun q => eval q r) (query_where qs).

(** ** [filter_by_order_key] *)

Record loop_state : Type := {
  filter_combinations : dict;
  q : Q;
  warnings : list string
}.

Definition isnull_lookup (field_name : string) : string :=
  (field_name ++ "__isnull")%string.

(** The end of the loop body, from [# apply combination] on. *)
Definition apply_combination (field_name field_lookup : string) (v : value)
  (st : loop_state) : loop_state :=
  let filter_combination := Q_kwargs (filter_combinations st) in
  let q := q_or (q st) filter_combination in
  let fc := dict_pop (filter_combinations st) field_lookup in
  let fc := dict_set fc field_name v in
  {| filter_combinations := fc; q := q; warnings := warnings st |}.

(** One turn of the [for i, value in enumerate(zip(order_by,
    start_position))] loop; [n] is [len(order_by)]. *)
Definition loop_body (n : Z) (i : Z) (order_expression : OrderBy) (v : value)
  (st : loop_state) : loop_state :=
  let is_last := i =? n - 1 in
  let field_name := expression_name order_expression in
  let fc := filter_combinations st in
  match v with
  | VNone =>
      if truthy (nulls_last order_expression) then
        {| filter_combinations := dict_set fc (isnull_lookup field_name) (VBool true);
           q := q st;
           warnings := warnings st |}
      else if truthy (nulls_first order_expression) then
        let fc := dict_set fc (isnull_lookup field_name) (VBool false) in
        let q := q_or (q st) (Q_kwargs fc) in
        let fc := dict_set fc (isnull_lookup field_name) (VBool true) in
        {| filter_combinations := fc; q := q; warnings := warnings st |}
      else
        apply_combination field_name "" v
          {| filter_combinations := fc;
             q := q st;
             warnings := warnings st ++ ["No nulls_first / nulls_last specified"%string] |}
  | _ =>
      let direction := if descending order_expression then "lt"%string else "gt"%string in
      let direction := if is_last then (direction ++ "e")%string else direction in
      let field_lookup := (field_name ++ "__" ++ direction)%string in
      if truthy (nulls_last order_expression) then
        let filter_combination :=
          q_and (Q_kwargs fc)
                (q_or (QLeaf field_lookup v) (QLeaf (isnull_lookup field_name) (VBool true))) in
        {| filter_combinations := dict_set fc field_name v;
           q := q_or (q st) filter_combination;
           warnings := warnings st |}
      else
        apply_combination field_name field_lookup v
          {| filter_combinations := dict_set fc field_lookup v;
             q := q st;
             warnings := warnings st |}
  end.

Fixpoint filter_loop (h : heap) (n : Z) (i : Z) (items : list (loc * value))
  (st : loop_state) : loop_state :=
  match items with
  | [] => st
  | (l, v) :: rest =>
      filter_loop h n (i + 1) rest (loop_body n i (cells h l) v st)
  end.

(** The dict comprehension that builds [sentinel_query]. *)
Definition sentinel_query (h : heap) (items : list (loc * value)) : dict :=
  fold_left (fun d '(l, start) => dict_set d (expression_name (cells h l)) start)
            items [].

Section FilterByOrderKey.

(** The two names this function takes from the [constants] module. *)
Variable KEY_BACK : string.
Variable SENTINEL_NAME : string.

(** The end of the function, from [# apply filter] on: an empty [q]
    leaves the queryset as it is; any exception of the database is turned
    into [InvalidPage]. *)
Definition apply_filter (qs : queryset) (q : Q) (sentinel_query : dict)
  : result queryset :=
  if q_bool q then
    let filtered :=
      qs <- qs_filter qs q ;;
      qs_annotate qs SENTINEL_NAME (Q_kwargs sentinel_query) in
    match filtered with
    | Ok qs => Ok qs
    | Raise _ => Raise InvalidPage
    end
  else Ok qs.

(** The function returns its result or the exception it raises, the
    warnings it logged, and the store it leaves. *)
Definition filter_by_order_key (qs : queryset) (direction : string)
  (start_position : list value) (h : heap)
  : result queryset * list string * heap :=
  let '(order_by, h) := convert_order_by_to_expressions (get_order_by qs) h in
  if negb (len start_position =? len order_by) then (Raise InvalidPage, [], h)
  else
    let '(order_by, qs, h) :=
      if String.eqb direction KEY_BACK then
        let '(order_by, h) := invert_order_by order_by h in
        (order_by, qs_order_by qs order_by, h)
      else (order_by, qs, h) in
    let st :=
      filter_loop h (len order_by) 0 (combine order_by start_position)
        {| filter_combinations := []; q := QEmpty; warnings := [] |} in
    (apply_filter qs (q st) (sentinel_query h (combine order_by start_position)),
     warnings st, h).

End FilterByOrderKey.

(** The integer entries of [VALUE_SERIALIZERS], tags 6 to 13. *)
Definition integer_serializers : list serializer :=
  [ integer_serializer 1; integer_serializer (-1);
    integer_serializer 2; integer_serializer (-2);
    integer_serializer 3; integer_serializer (-3);
    integer_serializer 4; integer_serializer (-4) ].

(** The values whose encoding carries its own length: the constants and
    the integers of the eight integer classes. *)
Definition codec_scalar (v : value) : Prop :=
  match v with
  | VNone | VBool _ => True
  | VInt z => - 18446744078004584704 <= z < 18446744078004584704
  | _ => False
  end.

(** ** The integer classes as the specification describes them *)

Definition width (c : nat) : nat := nth c sizes 0%nat.

(** [cap c] is the sum of [256 ^ width i] for [i <= c], and [bias c] is
    [cap (c - 1)], or 0 for the first class. *)
Fixpoint cap (c : nat) : Z :=
  match c with
  | O => 256 ^ Z.of_nat (width 0)
  | S c' => cap c' + 256 ^ Z.of_nat (width c)
  end.

Definition bias (c : nat) : Z :=
  match c with
  | O => 0
  | S c' => cap c'
  end.

Definition positive_tag (c : nat) : Z := 6 + 2 * Z.of_nat c.
Definition negative_tag (c : nat) : Z := 7 + 2 * Z.of_nat c.

(** The encoding of a negative integer [v] as the specification words it:
    the class is the first one with [bias c <= m < cap c + 1], for
    [m = - v - 1]. *)
Definition negative_encoding_as_stated (v : Z) : Prop :=
  forall c : nat,
    (c < 4)%nat ->
    bias c <= - v - 1 < cap c + 1 ->
    (forall c' : nat, (c' < c)%nat -> ~ bias c' <= - v - 1 < cap c' + 1) ->
    serialize_value serialize_value_fuel (VInt v)
    = Some (Ok (byte_of_Z (negative_tag c)
                :: be_encode (width c) (- v - 1 - bias c))).

(** The number of bytes [serialize_value] produces for a value. *)
Definition encoded_size (v : value) : option Z :=
  match serialize_value serialize_value_fuel v with
  | Some (Ok b) => Some (len b)
  | _ => None
  end.

(** [deserialize_values(serialize_values(values))] *)
Definition roundtrip (values : list value) : option (result (list value)) :=
  match serialize_values values with
  | Some (Ok data) => deserialize_values data
  | Some (Raise e) => Some (Raise e)
  | None => None
  end.

(** ** The loop on the orderings read from the store *)

(** The [OrderBy] an entry of [order_by] stands for. *)
Definition denote_item (h : heap) (item : order_item) : OrderBy :=
  match item with
  | ByExpr l => cells h l
  | ByName field =>
      if String.eqb (substring 0 1 field) "-"
      then F_desc (substring 1 (String.length field - 1) field)
      else F_asc field
  end.

(** The store is not written during the loop of [filter_by_order_key]:
    the loop is a fold of [loop_body] over the orderings and the cursor. *)
Fixpoint filter_turns (n : Z) (i : Z) (items : list (OrderBy * value))
  (st : loop_state) : loop_state :=
  match items with
  | [] => st
  | (o, v) :: rest => filter_turns n (i + 1) rest (loop_body n i o v st)
  end.

Definition sentinel_of (items : list (OrderBy * value)) : dict :=
  fold_left (fun d '(o, start) => dict_set d (expression_name o) start) items [].

Definition initial_state : loop_state :=
  {| filter_combinations := []; q := QEmpty; warnings := [] |}.

(** ** Reading the claims on the filter *)

(** Comparisons of a column of a row with a cursor value. *)
Definition col_lt (r : row) (c : string) (v : value) : bool :=
  is_cmp (compare_values (r c) v) Lt.
Definition col_gt (r : row) (c : string) (v : value) : bool :=
  is_cmp (compare_values (r c) v) Gt.
Definition col_eq (r : row) (c : string) (v : value) : bool :=
  is_cmp (compare_values (r c) v) Eq.
Definition col_ge (r : row) (c : string) (v : value) : bool :=
  col_gt r c v || col_eq r c v.
Definition col_is_null (r : row) (c : string) : bool := is_null (r c).

Definition no_nulls_warning : string := "No nulls_first / nulls_last specified".

(** The turn of the loop on a null cursor value and a column without null
    policy, as the specification words it: the turn of a non-null value,
    that is the comparison branch under the current prefix, and a
    warning. *)
Definition unspecified_null_turn_as_stated (n i : Z) (order_expression : OrderBy)
  (st : loop_state) : loop_state :=
  let field_name := expression_name order_expression in
  let direction := if descending order_expression then "lt"%string else "gt"%string in
  let direction := if i =? n - 1 then (direction ++ "e")%string else direction in
  let field_lookup := (field_name ++ "__" ++ direction)%string in
  apply_combination field_name field_lookup VNone
    {| filter_combinations := dict_set (filter_combinations st) field_lookup VNone;
       q := q st;
       warnings := warnings st ++ [no_nulls_warning] |}.

(** The cursor values of the examples. *)
Definition str_B : value := VStr (pystr_of_string "B").
Definition float_4_5 : value := VFloat (9 # 2) (pystr_of_string "4.5").

Definition rating_desc_nulls_last : OrderBy :=
  {| expression_name := "rating"; descending := true;
     nulls_first := None; nulls_last := Some true |}.

Definition asc_nulls_last (name : string) : OrderBy :=
  {| expression_name := name; descending := false;
     nulls_first := None; nulls_last := Some true |}.

(** A store without objects and a queryset without filters, for the
    examples. *)
Definition empty_heap : heap := {| cells := fun _ => F_asc ""; next := 0%nat |}.

Definition plain_queryset (order_by : list order_item) : queryset :=
  {| query_order_by := order_by;
     meta_ordering := [];
     query_where := [];
     query_annotations := [];
     engine_rejects := fun _ => false |}.

(** The state of the loop after the column [id], ascending, with the
    cursor value 1, in an ordering of two columns. *)
Definition after_id_1 : loop_state :=
  loop_body 2 0 (F_asc "id") (VInt 1) initial_state.

Definition row_id_1_name_x : row :=
  fun c => if String.eqb c "id" then VInt 1 else VStr (pystr_of_string "x").

(** ** The invariant of [deepcopy] *)

(** While the objects below [base] of a store [h0] are being copied into
    [h]: every entry of the memo sends an object below [base] to a copy
    allocated since, holding what the object holds, and no two objects
    share a copy. *)
Definition memo_ok (base : loc) (h0 h : heap) (m : memo) : Prop :=
  (forall l c : loc,
      memo_find m l = Some c ->
      (base <= c < next h)%nat /\ (l < base)%nat /\ cells h c = cells h0 l) /\
  (forall l1 l2 c : loc,
      memo_find m l1 = Some c -> memo_find m l2 = Some c -> l1 = l2).

(** How many times a reference is listed. *)
Definition occurrences (ls : list loc) (l : loc) : nat :=
  count_occ Nat.eq_dec ls l.

(** A row satisfies one of the branches gathered in [q]; an empty [Q]
    holds no branch. *)
Definition some_branch (q : Q) (r : row) : bool := q_bool q && eval q r.

(** ** Reading the claim on [invert_order_by] *)

Inductive null_policy : Type := NullsFirst | NullsLast | Unspecified.

Definition null_policy_of (o : OrderBy) : null_policy :=
  if truthy (nulls_first o) then NullsFirst
  else if truthy (nulls_last o) then NullsLast
  else Unspecified.

(** The column, the direction and the null policy of an [OrderBy]. *)
Definition column_of (o : OrderBy) : string * bool * null_policy :=
  (expression_name o, descending o, null_policy_of o).

(** At most one of the two flags is active. *)
Definition one_flag (o : OrderBy) : Prop :=
  truthy (nulls_first o) && truthy (nulls_last o) = false.

(** ** Values that survive the codec in last position *)

(** Text whose characters are all ASCII: one byte each in UTF-8. *)
Definition ascii_text (s : pystr) : Prop := Forall (fun c => (c < 128)%N) s.

Definition ascii_bytes (s : pystr) : bytes := map (fun c => byte_of_Z (Z.of_N c)) s.

(** The last value of a tuple may also be an ASCII string or a bytes
    object within the length limits. *)
Definition codec_last (v : value) : Prop :=
  match v with
  | VStr s => ascii_text s /\ len s <= 65535 + 256
  | VBytes b => len b <= 65535
  | _ => codec_scalar v
  end.

(** The message of the [SerializationError] a value raises for its
    length, if it does. *)
Definition too_long_error (v : value) : option string :=
  match v with
  | VStr s => if 65535 + 256 <? len s then Some "String value too long"%string else None
  | VBytes b => if 65535 <? len b then Some "Bytes value too long"%string else None
  | _ => None
  end.

(** ** The rows at or after a cursor *)

(** The rows that come strictly after the cursor value [s] in the column
    [c]: past [s] in the direction of the column, or null when nulls come
    last; after a null cursor value, the rows that are not null when nulls
    come first, and none when nulls come last. *)
Definition after_in_column (c : OrderBy) (s : value) (r : row) : bool :=
  let n := expression_name c in
  if is_null s then
    if truthy (nulls_last c) then false else negb (col_is_null r n)
  else
    (if descending c then col_lt r n s else col_gt r n s)
    || (truthy (nulls_last c) && col_is_null r n).

(** The rows that have the cursor value in the column. *)
Definition same_in_column (c : OrderBy) (s : value) (r : row) : bool :=
  let n := expression_name c in
  if is_null s then col_is_null r n else col_eq r n s.

(** The rows at or after the cursor in the lexicographic order of the
    columns: after it in the first column, or equal there and at or after
    it in the next ones; the row of the cursor itself is in. *)
Fixpoint at_or_after (columns : list OrderBy) (start : list value) (r : row) : bool :=
  match columns, start with
  | c :: cs, s :: ss =>
      after_in_column c s r || (same_in_column c s r && at_or_after cs ss r)
  | _, _ => true
  end.

(** What one turn of the loop adds to [q], below the prefix: on the last
    column the comparison is inclusive. *)
Definition emitted (c : OrderBy) (s : value) (last : bool) (r : row) : bool :=
  let n := expression_name c in
  if is_null s then
    if truthy (nulls_last c) then false else negb (col_is_null r n)
  else
    (if descending c
     then (if last then col_lt r n s || col_eq r n s else col_lt r n s)
     else (if last then col_gt r n s || col_eq r n s else col_gt r n s))
    || (truthy (nulls_last c) && col_is_null r n).

Definition no_more {A} (l : list A) : bool :=
  match l with
  | [] => true
  | _ => false
  end.

Fixpoint branches (columns : list OrderBy) (start : list value) (r : row) : bool :=
  match columns, start with
  | c :: cs, s :: ss =>
      emitted c s (no_more cs) r || (same_in_column c s r && branches cs ss r)
  | _, _ => false
  end.

(** The conjunction of the keyword arguments of a prefix. *)
Definition prefix_holds (fc : dict) (r : row) : bool :=
  forallb (fun kv => eval_leaf (fst kv) (snd kv) r) fc.

(** The column a keyword is about. *)
Definition key_column (k : string) : string := fst (split_lookup k).

(** A column name that does not end like a lookup. *)
Definition plain_name (n : string) : Prop := split_lookup n = (n, Exact).

(** The entry a turn of the loop leaves in the prefix. *)
Definition pinned (c : OrderBy) (s : value) : string * value :=
  if is_null s then (isnull_lookup (expression_name c), VBool true)
  else (expression_name c, s).

(** A cursor fits an ordering when a null value only stands in a column
    with a null policy, and not in the last column. *)
Definition policy_where_null (c : OrderBy) (s : value) : Prop :=
  s = VNone -> truthy (nulls_last c) = true \/ truthy (nulls_first c) = true.

(** The rows that have the cursor value in every column. *)
Fixpoint same_in_all (columns : list OrderBy) (start : list value) (r : row) : bool :=
  match columns, start with
  | c :: cs, s :: ss => same_in_column c s r && same_in_all cs ss r
  | _, _ => true
  end.

(** The conditions under which the filter is the keyset condition: distinct
    column names that do not end like a lookup, a null policy wherever the
    cursor is null, and a last cursor value that is not null. *)
Definition keyset_ready (columns : list OrderBy) (start : list value) : Prop :=
  NoDup (map expression_name columns) /\
  Forall (fun c => plain_name (expression_name c)) columns /\
  Forall2 policy_where_null columns start /\
  is_null (last start VNone) = false.

(** ** The rows at or before a cursor *)

(** The mirror of [after_in_column]: the rows that come strictly before the
    cursor value in the column. *)
Definition before_in_column (c : OrderBy) (s : value) (r : row) : bool :=
  let n := expression_name c in
  if is_null s then
    if truthy (nulls_first c) then false else negb (col_is_null r n)
  else
    (if descending c then col_gt r n s else col_lt r n s)
    || (truthy (nulls_first c) && col_is_null r n).

Fixpoint at_or_before (columns : list OrderBy) (start : list value) (r : row) : bool :=
  match columns, start with
  | c :: cs, s :: ss =>
      before_in_column c s r || (same_in_column c s r && at_or_before cs ss r)
  | _, _ => true
  end.

(** A row can be placed against a cursor value in a column when the two
    values compare, or when one of them is null and the column says on
    which side nulls go. *)
Definition placed_in_column (c : OrderBy) (s : value) (r : row) : bool :=
  let v := r (expression_name c) in
  if is_null s && is_null v then true
  else if is_null s || is_null v then xorb (truthy (nulls_first c)) (truthy (nulls_last c))
  else match compare_values v s with
       | Some _ => true
       | None => false
       end.

Fixpoint placed (columns : list OrderBy) (start : list value) (r : row) : bool :=
  match columns, start with
  | c :: cs, s :: ss => placed_in_column c s r && placed cs ss r
  | _, _ => true
  end.

(** ** Cursors that end in a null *)

(** A turn of the loop that adds no branch to [q]: a null cursor value in
    a column that puts nulls last. *)
Definition skipped (c : OrderBy) (s : value) : bool :=
  is_null s && truthy (nulls_last c).

Definition all_skipped (columns : list OrderBy) (start : list value) : bool :=
  forallb (fun cs => skipped (fst cs) (snd cs)) (combine columns start).

(** ** Values the codec knows by their text *)


(** ** What [filter_by_order_key] leaves of its arguments *)

(** The queryset [qs'] is [qs] with at most one more filter, and with it
    one annotation of the given name. *)
Definition extends_by_filter (name : string) (qs qs' : queryset) : Prop :=
  meta_ordering qs' = meta_ordering qs /\
  query_order_by qs' = query_order_by qs /\
  (qs' = qs \/
   exists boundary condition : Q,
     query_where qs' = query_where qs ++ [boundary] /\
     query_annotations qs' = query_annotations qs ++ [(name, condition)]).

(** ** [get_model_attribute] and [get_order_key] *)

(** [django.db.models.constants.LOOKUP_SEP]. *)
Definition LOOKUP_SEP : string := "__".

(** [s.split(sep)] for a separator that is not empty, as here: the string
    is cut at the occurrences of the separator found from the left, an
    occurrence starting where the one before it ends at the earliest.
    [skip] counts the characters of the separator just found that are
    still to pass, [current] is the piece gathered so far. *)
Fixpoint split_loop (sep s : string) (skip : nat) (current : string) : list string :=
  match s with
  | EmptyString => [current]
  | String c rest =>
      match skip with
      | S k => split_loop sep rest k current
      | O =>
          if String.prefix sep s
          then current :: split_loop sep rest (String.length sep - 1) ""
          else split_loop sep rest 0 (current ++ String c "")
      end
  end.

Definition str_split (s sep : string) : list string := split_loop sep s 0 "".

Fixpoint str_in (c : ascii) (chars : string) : bool :=
  match chars with
  | EmptyString => false
  | String c' chars' => Ascii.eqb c c' || str_in c chars'
  end.

(** [s.lstrip(chars)]: the leading characters that are in [chars] go. *)
Fixpoint lstrip (chars s : string) : string :=
  match s with
  | EmptyString => EmptyString
  | String c rest => if str_in c chars then lstrip chars rest else s
  end.

Section Attributes.

(** The objects attributes are read from, and what [getattr] answers: an
    object or the exception it raises. *)
Variable object : Type.
Variable error : Type.
Variable getattr : object -> string -> error + object.

(** The [for lookup in ...] loop of [get_model_attribute]. *)
Fixpoint getattr_loop (obj : object) (lookups : list string) : error + object :=
  match lookups with
  | [] => inr obj
  | lookup :: rest =>
      match getattr obj lookup with
      | inl e => inl e
      | inr obj => getattr_loop obj rest
      end
  end.

Definition get_model_attribute (obj : object) (attribute : string) : error + object :=
  getattr_loop obj (str_split attribute LOOKUP_SEP).

(** The path [get_order_key] reads for the entry [f] of [order_by]:
    [f.expression.name if isinstance(f, OrderBy) else f.lstrip('-')]. *)
Definition order_key_attribute (h : heap) (f : order_item) : string :=
  match f with
  | ByExpr l => expression_name (cells h l)
  | ByName f => lstrip "-" f
  end.

Fixpoint get_order_key (obj : object) (order_by : list order_item) (h : heap)
  : error + list object :=
  match order_by with
  | [] => inr []
  | f :: rest =>
      match get_model_attribute obj (order_key_attribute h f) with
      | inl e => inl e
      | inr attribute =>
          match get_order_key obj rest h with
          | inl e => inl e
          | inr key => inr (attribute :: key)
          end
      end
  end.

(** The row of an object: the column a path names holds the value of the
    attribute the path reads, and null where there is none. *)
Variable column_value : object -> value.

Definition row_of (obj : object) : row :=
  fun column =>
    match get_model_attribute obj column with
    | inr attribute => column_value attribute
    | inl _ => VNone
    end.

End Attributes.

Arguments getattr_loop {object error} getattr obj lookups.
Arguments get_model_attribute {object error} getattr obj attribute.
Arguments get_order_key {object error} getattr obj order_by h.
Arguments row_of {object error} getattr column_value obj _.

(** A field name with at most one leading dash. *)
Definition single_dash (f : order_item) : Prop :=
  match f with
  | ByExpr _ => True
  | ByName name => substring 0 2 name <> "--"%string
  end.

(** A value the database finds equal to itself, or null. *)
Definition self_equal (v : value) : bool :=
  is_null v || is_cmp (compare_values v v) Eq.

(** An object for the examples: a review with a null rating, of the book
    number 10. *)
Definition review_getattr (obj : value) (name : string) : unit + value :=
  match obj with
  | VOther _ =>
      if String.eqb name "rating" then inr VNone
      else if String.eqb name "id" then inr (VInt 10)
      else inl tt
  | _ => inl tt
  end.

Definition review : value := VOther (pystr_of_string "review").

Definition review_queryset : queryset := plain_queryset [ByExpr 0%nat; ByName "-id"].

Definition review_heap : heap := snd (alloc empty_heap rating_desc_nulls_last).

(** The last character of a string is [c]. *)
Fixpoint ends_with (c : ascii) (s : string) : bool :=
  match s with
  | EmptyString => false
  | String x EmptyString => Ascii.eqb x c
  | String _ rest => ends_with c rest
  end.

(** * Properties *)

(** ** Bytes and big-endian numbers *)

Lemma Z_of_byte_range (b : byte) : 0 <= Z_of_byte b < 256.
Proof.
  unfold Z_of_byte. pose proof (Byte.to_N_bounded b). lia.
Qed.

Lemma Z_of_byte_of_Z (z : Z) : Z_of_byte (byte_of_Z z) = z mod 256.
Proof.
  unfold Z_of_byte, byte_of_Z.
  assert (Hr : 0 <= z mod 256 < 256) by (apply Z.mod_pos_bound; lia).
  destruct (Byte.of_N (Z.to_N (z mod 256))) as [b|] eqn:E.
  - apply Byte.to_of_N in E. rewrite E. lia.
  - apply Byte.of_N_None_iff in E. lia.
Qed.

Lemma be_encode_length (w : nat) (n : Z) : List.length (be_encode w n) = w.
Proof.
  revert n. induction w as [|w IH]; intros n; simpl.
  - reflexivity.
  - rewrite length_app, IH. simpl. lia.
Qed.

Lemma be_decode_app (v : bytes) (b : byte) :
  be_decode (v ++ [b]) = be_decode v * 256 + Z_of_byte b.
Proof.
  unfold be_decode. rewrite fold_left_app. reflexivity.
Qed.

Lemma be_decode_encode (w : nat) (n : Z) :
  be_decode (be_encode w n) = n mod 256 ^ Z.of_nat w.
Proof.
  revert n. induction w as [|w IH]; intros n.
  - simpl. rewrite Z.mod_1_r. reflexivity.
  - cbn [be_encode]. rewrite be_decode_app, IH, Z_of_byte_of_Z.
    rewrite Nat2Z.inj_succ, Z.pow_succ_r by lia.
    rewrite Z.rem_mul_r by lia. lia.
Qed.

Lemma be_decode_encode_small (w : nat) (n : Z) :
  0 <= n < 256 ^ Z.of_nat w -> be_decode (be_encode w n) = n.
Proof.
  intros H. rewrite be_decode_encode. apply Z.mod_small. exact H.
Qed.

(** ** The integer serializers *)

Lemma integer_bounds_cap (c : nat) :
  (c < 4)%nat -> integer_bounds c = (cap c, bias c).
Proof.
  intros H. destruct c as [|[|[|[|c]]]]; try reflexivity. lia.
Qed.

Lemma cap_pos (c : nat) : 0 < cap c.
Proof.
  assert (P : forall k, 0 < 256 ^ Z.of_nat k) by (intros k; apply Z.pow_pos_nonneg; lia).
  induction c as [|c IH]; cbn [cap].
  - apply P.
  - pose proof (P (width (S c))). lia.
Qed.

Lemma bias_le_cap (c : nat) : bias c < cap c.
Proof.
  destruct c as [|c]; cbn [bias cap].
  - apply (cap_pos 0).
  - assert (0 < 256 ^ Z.of_nat (width (S c))) by (apply Z.pow_pos_nonneg; lia). lia.
Qed.

Lemma cap_minus_bias (c : nat) : cap c - bias c = 256 ^ Z.of_nat (width c).
Proof.
  destruct c as [|c]; cbn [bias cap]; lia.
Qed.

Lemma width_calcsize (c : nat) :
  (c < 4)%nat -> calcsize (nth c formats FB) = width c.
Proof.
  intros H. destruct c as [|[|[|[|c]]]]; try reflexivity. lia.
Qed.

Lemma positive_checker (c : nat) (v : Z) :
  (c < 4)%nat ->
  checker (integer_serializer (Z.of_nat (S c))) (VInt v)
  = Ok ((0 <=? v) && (v <? cap c)).
Proof.
  intros H. destruct c as [|[|[|[|c]]]]; try reflexivity. lia.
Qed.

Lemma negative_checker (c : nat) (v : Z) :
  (c < 4)%nat ->
  checker (integer_serializer (- Z.of_nat (S c))) (VInt v)
  = Ok ((0 <=? - v) && (- v <? cap c + 1)).
Proof.
  intros H. destruct c as [|[|[|[|c]]]]; try reflexivity. lia.
Qed.

Lemma positive_serialize (c : nat) (v : Z) :
  (c < 4)%nat ->
  serialize (integer_serializer (Z.of_nat (S c))) (VInt v)
  = struct_pack (nth c formats FB) (v - bias c).
Proof.
  intros H. destruct c as [|[|[|[|c]]]]; try reflexivity. lia.
Qed.

Lemma negative_serialize (c : nat) (v : Z) :
  (c < 4)%nat ->
  serialize (integer_serializer (- Z.of_nat (S c))) (VInt v)
  = struct_pack (nth c formats FB) (- v - 1 - bias c).
Proof.
  intros H. destruct c as [|[|[|[|c]]]]; try reflexivity. lia.
Qed.

Lemma positive_deserialize (c : nat) (data : bytes) :
  (c < 4)%nat ->
  deserialize (integer_serializer (Z.of_nat (S c))) data
  = (u <- struct_unpack (nth c formats FB) (firstn (width c) data) ;;
     Ok (width c, VInt (u + bias c))).
Proof.
  intros H. destruct c as [|[|[|[|c]]]]; try reflexivity. lia.
Qed.

Lemma negative_deserialize (c : nat) (data : bytes) :
  (c < 4)%nat ->
  deserialize (integer_serializer (- Z.of_nat (S c))) data
  = (u <- struct_unpack (nth c formats FB) (firstn (width c) data) ;;
     Ok (width c, VInt (- (u + bias c) - 1))).
Proof.
  intros H. destruct c as [|[|[|[|c]]]]; try reflexivity. lia.
Qed.

Lemma struct_pack_class (c : nat) (x : Z) :
  (c < 4)%nat -> 0 <= x < 256 ^ Z.of_nat (width c) ->
  struct_pack (nth c formats FB) x = Ok (be_encode (width c) x).
Proof.
  intros Hc Hx. unfold struct_pack. rewrite (width_calcsize c Hc).
  destruct (Z.leb_spec 0 x); [|lia].
  destruct (Z.ltb_spec x (256 ^ Z.of_nat (width c))); [|lia].
  reflexivity.
Qed.

Lemma struct_unpack_class (c : nat) (x : Z) (rest : bytes) :
  (c < 4)%nat -> 0 <= x < 256 ^ Z.of_nat (width c) ->
  struct_unpack (nth c formats FB) (firstn (width c) (be_encode (width c) x ++ rest))
  = Ok x.
Proof.
  intros Hc Hx. unfold struct_unpack.
  rewrite firstn_app, be_encode_length, Nat.sub_diag, firstn_O, app_nil_r.
  rewrite firstn_all2 by (rewrite be_encode_length; lia).
  rewrite be_encode_length, (width_calcsize c Hc), Nat.eqb_refl.
  rewrite be_decode_encode_small by exact Hx. reflexivity.
Qed.

(** ** Encoding an integer *)

Lemma serialize_first_int (v : Z) :
  serialize_first 0 VALUE_SERIALIZERS (VInt v)
  = serialize_first 6 integer_serializers (VInt v).
Proof. reflexivity. Qed.

Lemma cap_values :
  cap 0 = 256 /\ cap 1 = 65792 /\ cap 2 = 4295033088
  /\ cap 3 = 18446744078004584704.
Proof. repeat split. Qed.

Lemma bias_values :
  bias 0 = 0 /\ bias 1 = 256 /\ bias 2 = 65792 /\ bias 3 = 4295033088.
Proof. repeat split. Qed.

Ltac class_values :=
  destruct cap_values as (Hc0 & Hc1 & Hc2 & Hc3);
  destruct bias_values as (Hb0 & Hb1 & Hb2 & Hb3);
  rewrite ?Hc0, ?Hc1, ?Hc2, ?Hc3, ?Hb0, ?Hb1, ?Hb2, ?Hb3 in *.

Ltac decide_test :=
  repeat match goal with
  | |- context [Z.leb ?a ?b] => destruct (Z.leb_spec a b); try lia
  | |- context [Z.ltb ?a ?b] => destruct (Z.ltb_spec a b); try lia
  end.

Ltac finish_pack :=
  match goal with
  | |- context [struct_pack (nth ?c formats FB) ?x] =>
      rewrite (struct_pack_class c x) by (assumption || lia); reflexivity
  end.

Lemma serialize_first_negative (c : nat) (v : Z) :
  (c < 4)%nat -> v < 0 -> bias c <= - v - 1 < cap c ->
  serialize_first 0 VALUE_SERIALIZERS (VInt v)
  = Some (Ok (byte_of_Z (negative_tag c) :: be_encode (width c) (- v - 1 - bias c))).
Proof.
  intros Hc Hv Hm.
  assert (Hp : 0 <= - v - 1 - bias c < 256 ^ Z.of_nat (width c))
    by (rewrite <- cap_minus_bias; lia).
  rewrite serialize_first_int. unfold integer_serializers.
  destruct c as [|[|[|[|c]]]]; try lia; cbn [serialize_first].
  all: rewrite ?(positive_checker 0), ?(negative_checker 0),
         ?(positive_checker 1), ?(negative_checker 1),
         ?(positive_checker 2), ?(negative_checker 2),
         ?(positive_checker 3), ?(negative_checker 3) by lia.
  all: class_values.
  all: decide_test; cbn [andb].
  all: rewrite ?(negative_serialize 0), ?(negative_serialize 1),
         ?(negative_serialize 2), ?(negative_serialize 3) by lia.
  all: rewrite ?Hb0, ?Hb1, ?Hb2, ?Hb3.
  all: finish_pack.
Qed.

Lemma serialize_first_positive (c : nat) (v : Z) :
  (c < 4)%nat -> bias c <= v < cap c ->
  serialize_first 0 VALUE_SERIALIZERS (VInt v)
  = Some (Ok (byte_of_Z (positive_tag c) :: be_encode (width c) (v - bias c))).
Proof.
  intros Hc Hm.
  assert (Hp : 0 <= v - bias c < 256 ^ Z.of_nat (width c))
    by (rewrite <- cap_minus_bias; lia).
  rewrite serialize_first_int. unfold integer_serializers.
  destruct c as [|[|[|[|c]]]]; try lia; cbn [serialize_first].
  all: rewrite ?(positive_checker 0), ?(negative_checker 0),
         ?(positive_checker 1), ?(negative_checker 1),
         ?(positive_checker 2), ?(negative_checker 2),
         ?(positive_checker 3), ?(negative_checker 3) by lia.
  all: class_values.
  all: decide_test; cbn [andb].
  all: rewrite ?(positive_serialize 0), ?(positive_serialize 1),
         ?(positive_serialize 2), ?(positive_serialize 3) by lia.
  all: rewrite ?Hb0, ?Hb1, ?Hb2, ?Hb3.
  all: finish_pack.
Qed.

(** ** Decoding an integer *)

Lemma skipn_encoded (w : nat) (x : Z) (rest : bytes) :
  skipn w (be_encode w x ++ rest) = rest.
Proof.
  rewrite skipn_app, be_encode_length, Nat.sub_diag.
  rewrite skipn_all2 by (rewrite be_encode_length; lia). reflexivity.
Qed.

Lemma deserialize_loop_nil (fuel : nat) (values : list value) :
  deserialize_loop fuel [] values = Some (Ok values).
Proof. destruct fuel; reflexivity. Qed.

Lemma deserialize_loop_negative (c : nat) (x : Z) (rest : bytes)
  (fuel : nat) (values : list value) :
  (c < 4)%nat -> 0 <= x < 256 ^ Z.of_nat (width c) ->
  deserialize_loop (S fuel)
    (byte_of_Z (negative_tag c) :: be_encode (width c) x ++ rest) values
  = deserialize_loop fuel rest (values ++ [VInt (- (x + bias c) - 1)]).
Proof.
  intros Hc Hx. cbn [deserialize_loop].
  assert (E : nth_error VALUE_SERIALIZERS (Z.to_nat (Z_of_byte (byte_of_Z (negative_tag c))))
              = Some (integer_serializer (- Z.of_nat (S c)))).
  { destruct c as [|[|[|[|c]]]]; try reflexivity. lia. }
  rewrite E, (negative_deserialize c) by exact Hc.
  rewrite (struct_unpack_class c x rest Hc Hx). cbn [bind].
  rewrite skipn_encoded.
  destruct c as [|[|[|[|c]]]]; try reflexivity. lia.
Qed.

Lemma deserialize_loop_positive (c : nat) (x : Z) (rest : bytes)
  (fuel : nat) (values : list value) :
  (c < 4)%nat -> 0 <= x < 256 ^ Z.of_nat (width c) ->
  deserialize_loop (S fuel)
    (byte_of_Z (positive_tag c) :: be_encode (width c) x ++ rest) values
  = deserialize_loop fuel rest (values ++ [VInt (x + bias c)]).
Proof.
  intros Hc Hx. cbn [deserialize_loop].
  assert (E : nth_error VALUE_SERIALIZERS (Z.to_nat (Z_of_byte (byte_of_Z (positive_tag c))))
              = Some (integer_serializer (Z.of_nat (S c)))).
  { destruct c as [|[|[|[|c]]]]; try reflexivity. lia. }
  rewrite E, (positive_deserialize c) by exact Hc.
  rewrite (struct_unpack_class c x rest Hc Hx). cbn [bind].
  rewrite skipn_encoded.
  destruct c as [|[|[|[|c]]]]; try reflexivity. lia.
Qed.

Lemma class_of_magnitude (m : Z) :
  0 <= m < cap 3 ->
  exists c : nat, (c < 4)%nat /\ bias c <= m < cap c.
Proof.
  intros H. class_values.
  destruct (Z.ltb_spec m 256); [exists 0%nat | ].
  2: destruct (Z.ltb_spec m 65792); [exists 1%nat | ].
  3: destruct (Z.ltb_spec m 4295033088); [exists 2%nat | exists 3%nat].
  all: rewrite ?Hc0, ?Hc1, ?Hc2, ?Hc3, ?Hb0, ?Hb1, ?Hb2, ?Hb3; lia.
Qed.

Lemma cap_below_bias (c c' : nat) : (c' < c)%nat -> (c < 4)%nat -> cap c' <= bias c.
Proof.
  intros H Hc. class_values.
  destruct c as [|[|[|[|c]]]]; try lia;
    destruct c' as [|[|[|[|c']]]]; try lia;
    rewrite ?Hc0, ?Hc1, ?Hc2, ?Hc3, ?Hb0, ?Hb1, ?Hb2, ?Hb3; lia.
Qed.

(** ** The claims on the integer encoding *)

(** C5, as amended.  A negative integer [v] whose magnitude [m = - v - 1]
    is below [cap 3] belongs to exactly the class [c] with
    [bias c <= m < cap c] (the test of the code, [- v < cap c + 1], is
    [m < cap c]); it is the first class whose range reaches [m]; the
    encoder writes the tag of that class and the big-endian digits of
    [m - bias c] on [width c] bytes, and the decoder reads
    [- (U + bias c) - 1 = v] back. *)
Theorem negative_integer_class (v : Z) :
  v < 0 -> - v - 1 < cap 3 ->
  exists c : nat,
    (c < 4)%nat /\
    bias c <= - v - 1 < cap c /\
    (forall c' : nat, (c' < c)%nat -> ~ - v - 1 < cap c') /\
    let payload := be_encode (width c) (- v - 1 - bias c) in
    serialize_value serialize_value_fuel (VInt v)
    = Some (Ok (byte_of_Z (negative_tag c) :: payload)) /\
    List.length payload = width c /\
    be_decode payload = - v - 1 - bias c /\
    deserialize
      (nth (Z.to_nat (negative_tag c)) VALUE_SERIALIZERS (constant_serializer VNone))
      payload
    = Ok (width c, VInt (- (be_decode payload + bias c) - 1)) /\
    - (be_decode payload + bias c) - 1 = v /\
    deserialize_values (byte_of_Z (negative_tag c) :: payload) = Some (Ok [VInt v]).
Proof.
  intros Hv Hm.
  destruct (class_of_magnitude (- v - 1)) as (c & Hc & Hr); [lia|].
  assert (Hp : 0 <= - v - 1 - bias c < 256 ^ Z.of_nat (width c))
    by (rewrite <- cap_minus_bias; lia).
  assert (Hd : be_decode (be_encode (width c) (- v - 1 - bias c)) = - v - 1 - bias c)
    by (apply be_decode_encode_small; exact Hp).
  exists c. split; [exact Hc|]. split; [exact Hr|]. split.
  { intros c' Hlt. pose proof (cap_below_bias c c' Hlt Hc). lia. }
  cbv zeta. repeat split.
  - unfold serialize_value_fuel. cbn [serialize_value].
    rewrite (serialize_first_negative c v Hc Hv Hr). reflexivity.
  - apply be_encode_length.
  - exact Hd.
  - assert (E : nth (Z.to_nat (negative_tag c)) VALUE_SERIALIZERS (constant_serializer VNone)
                = integer_serializer (- Z.of_nat (S c))).
    { destruct c as [|[|[|[|c]]]]; try reflexivity. lia. }
    rewrite E, (negative_deserialize c) by exact Hc.
    pose proof (struct_unpack_class c (- v - 1 - bias c) [] Hc Hp) as U.
    rewrite app_nil_r in U. rewrite U. cbn [bind]. rewrite Hd. reflexivity.
  - rewrite Hd. lia.
  - unfold deserialize_values. cbn [List.length].
    pose proof (deserialize_loop_negative c (- v - 1 - bias c) []
                  (List.length (be_encode (width c) (- v - 1 - bias c))) [] Hc Hp) as L.
    rewrite app_nil_r in L. rewrite L, deserialize_loop_nil. cbn [app].
    replace (- (- v - 1 - bias c + bias c) - 1) with v by lia. reflexivity.
Qed.

Lemma negative_integer_class_witness :
  exists c : nat,
    (c < 4)%nat /\
    bias c <= - (-257) - 1 < cap c /\
    (forall c' : nat, (c' < c)%nat -> ~ - (-257) - 1 < cap c') /\
    let payload := be_encode (width c) (- (-257) - 1 - bias c) in
    serialize_value serialize_value_fuel (VInt (-257))
    = Some (Ok (byte_of_Z (negative_tag c) :: payload)) /\
    List.length payload = width c /\
    be_decode payload = - (-257) - 1 - bias c /\
    deserialize
      (nth (Z.to_nat (negative_tag c)) VALUE_SERIALIZERS (constant_serializer VNone))
      payload
    = Ok (width c, VInt (- (be_decode payload + bias c) - 1)) /\
    - (be_decode payload + bias c) - 1 = -257 /\
    deserialize_values (byte_of_Z (negative_tag c) :: payload) = Some (Ok [VInt (-257)]).
Proof.
  apply (negative_integer_class (-257)); reflexivity.
Defined.

(** C5, as the specification states it, fails at [v = -257]: there
    [m = 256] satisfies [bias 0 <= m < cap 0 + 1], so the stated rule picks
    the one-byte class, while the code writes tag 9 and two bytes. *)
Lemma negative_class_as_stated_fails : ~ negative_encoding_as_stated (-257).
Proof.
  intros H. specialize (H 0%nat).
  assert (E : serialize_value serialize_value_fuel (VInt (-257))
              = Some (Ok [x09; x00; x00])) by reflexivity.
  rewrite E in H.
  assert (A : Some (Ok [x09; x00; x00])
              = Some (Ok (byte_of_Z (negative_tag 0)
                          :: be_encode (width 0) (- (-257) - 1 - bias 0)))).
  { apply H.
    - lia.
    - destruct cap_values as (-> & _). simpl bias. lia.
    - intros c' Hc'. lia. }
  vm_compute in A. discriminate A.
Qed.

(** Below the eight-byte negative class no integer serializer accepts the
    value, and its decimal text is encoded as a short string. *)
Example negative_beyond_eight_bytes :
  serialize_first 0 VALUE_SERIALIZERS (VInt (- 18446744078004584704 - 1)) = None /\
  serialize_value serialize_value_fuel (VInt (- 18446744078004584704 - 1))
  = serialize_value 1 (VStr (pystr_of_string "-18446744078004584705")).
Proof. split; vm_compute; reflexivity. Qed.

(** C6.  [serialize_value(255)] is 2 bytes, the tag 6 and one byte of
    payload; [serialize_value(256)] is 3 bytes, the tag 8 and two bytes;
    [serialize_value(-1)] is 2 bytes, the tag 7 of the one-byte negative
    class and one byte. *)
Theorem minimal_width_sizes :
  serialize_value serialize_value_fuel (VInt 255) = Some (Ok [x06; xff]) /\
  encoded_size (VInt 255) = Some 2 /\
  serialize_value serialize_value_fuel (VInt 256) = Some (Ok [x08; x00; x00]) /\
  encoded_size (VInt 256) = Some 3 /\
  serialize_value serialize_value_fuel (VInt (-1)) = Some (Ok [x07; x00]) /\
  encoded_size (VInt (-1)) = Some 2.
Proof.
  repeat split; vm_compute; reflexivity.
Qed.

(** ** Termination of [serialize_value] *)

(** A string never falls through the loop of [serialize_value]: the
    short-string checker or the long-string checker accepts it, or the
    long-string checker raises [SerializationError]. *)
Lemma serialize_first_str (s : pystr) :
  serialize_first 0 VALUE_SERIALIZERS (VStr s)
  = Some (if len s <? 256 then
            t <- struct_pack FB 3 ;; p <- serialize_short_string s ;; Ok (t ++ p)
          else if 65535 + 256 <? len s then
            Raise (SerializationError "String value too long")
          else
            t <- struct_pack FB 4 ;; p <- serialize_long_string s ;; Ok (t ++ p)).
Proof.
  unfold VALUE_SERIALIZERS.
  cbn [serialize_first checker constant_serializer is_value is_short_string
       is_long_string serialize on_str Z.add Pos.add Pos.succ].
  destruct (len s <? 256); [reflexivity|].
  change (65535 + 256) with 65791.
  destruct (65791 <? len s); reflexivity.
Qed.

Lemma serialize_value_succ (fuel : nat) (v : value) :
  serialize_value (S fuel) v
  = match serialize_first 0 VALUE_SERIALIZERS v with
    | Some r => Some r
    | None => serialize_value fuel (VStr (py_str v))
    end.
Proof. reflexivity. Qed.

Lemma serialize_value_answers (v : value) (n : nat) :
  exists r : result bytes,
    serialize_value serialize_value_fuel v = Some r /\
    serialize_value (serialize_value_fuel + n) v = Some r.
Proof.
  unfold serialize_value_fuel. change (2 + n)%nat with (S (S n)).
  rewrite !serialize_value_succ.
  destruct (serialize_first 0 VALUE_SERIALIZERS v) as [r|] eqn:E.
  - exists r. split; reflexivity.
  - rewrite ?serialize_value_succ, !serialize_first_str.
    eexists. split; reflexivity.
Qed.

(** C10.  [serialize_value] returns or raises for every value after at
    most one call of itself: whatever the fuel beyond two calls, the
    answer is the one of two calls and it is not the out-of-fuel answer;
    when no checker accepts the value the answer is the one of the single
    call on [str(value)], and a string is always accepted by the
    short-string or the long-string checker, or rejected by
    [SerializationError]. *)
Theorem serialize_value_terminates :
  (forall (v : value) (n : nat),
      exists r : result bytes,
        serialize_value serialize_value_fuel v = Some r /\
        serialize_value (serialize_value_fuel + n) v = Some r) /\
  (forall v : value,
      serialize_first 0 VALUE_SERIALIZERS v = None ->
      serialize_value serialize_value_fuel v = serialize_value 1 (VStr (py_str v))) /\
  (forall s : pystr,
      serialize_value 1 (VStr s)
      = Some (if len s <? 256 then
                t <- struct_pack FB 3 ;; p <- serialize_short_string s ;; Ok (t ++ p)
              else if 65535 + 256 <? len s then
                Raise (SerializationError "String value too long")
              else
                t <- struct_pack FB 4 ;; p <- serialize_long_string s ;; Ok (t ++ p))).
Proof.
  split; [|split].
  - exact serialize_value_answers.
  - intros v E. unfold serialize_value_fuel.
    rewrite serialize_value_succ, E. reflexivity.
  - intros s. rewrite serialize_value_succ, serialize_first_str. reflexivity.
Qed.

(** One call is not enough: a value no checker accepts needs the second. *)
Lemma serialize_value_needs_two_calls :
  serialize_value 1 (VOther (pystr_of_string "2024-01-01")) = None /\
  serialize_value 2 (VOther (pystr_of_string "2024-01-01"))
  = serialize_value 1 (VStr (pystr_of_string "2024-01-01")).
Proof. split; reflexivity. Qed.

(** ** Round trip of the codec *)

(** C1 fails on the code.  The string and bytes deserializers return the
    whole rest of the buffer as the value ([v[1:]], [v[2:]]) and advance by
    the declared length only: the pair [("a", "b")] comes back as
    [["a\x03\x01b", "b"]], and the one-character string of code point 233,
    two bytes in UTF-8, leaves a stray byte that is read as a tag. *)
Theorem roundtrip_breaks_on_strings :
  serialize_values [VStr (pystr_of_string "a"); VStr (pystr_of_string "b")]
  = Some (Ok [x03; x01; x61; x03; x01; x62]) /\
  roundtrip [VStr (pystr_of_string "a"); VStr (pystr_of_string "b")]
  = Some (Ok [VStr [97%N; 3%N; 1%N; 98%N]; VStr (pystr_of_string "b")]) /\
  roundtrip [VStr (pystr_of_string "a"); VStr (pystr_of_string "b")]
  <> Some (Ok [VStr (pystr_of_string "a"); VStr (pystr_of_string "b")]) /\
  roundtrip [VStr [233%N]] = Some (Raise IndexError) /\
  roundtrip [VBytes [x61]; VBytes [x62]]
  = Some (Ok [VBytes [x61; x05; x00; x01; x62]; VBytes [x62]]) /\
  roundtrip [VStr (pystr_of_string "a"); VInt 255] = Some (Raise UnicodeDecodeError).
Proof.
  repeat split; try (vm_compute; reflexivity).
  vm_compute. discriminate.
Qed.

(** ** The keyset filter *)

Lemma filter_loop_turns (h : heap) (n i : Z) (order_by : list loc)
  (start_position : list value) (st : loop_state) :
  filter_loop h n i (combine order_by start_position) st
  = filter_turns n i (combine (read h order_by) start_position) st.
Proof.
  revert i start_position st.
  induction order_by as [|l ls IH]; intros i [|v vs] st; try reflexivity.
  cbn [combine read map filter_loop filter_turns]. apply IH.
Qed.

Lemma sentinel_query_of (h : heap) (order_by : list loc) (start_position : list value) :
  sentinel_query h (combine order_by start_position)
  = sentinel_of (combine (read h order_by) start_position).
Proof.
  unfold sentinel_query, sentinel_of. generalize (@nil (string * value)).
  revert start_position.
  induction order_by as [|l ls IH]; intros [|v vs] d; try reflexivity.
  cbn [combine read map fold_left]. apply IH.
Qed.

(** What [convert_order_by_to_expressions] leaves: one reference per
    entry, denoting the ordering of that entry, and the objects that were
    in the store untouched. *)
Lemma convert_order_by_spec (items : list order_item) (h : heap) :
  (forall l : loc, In (ByExpr l) items -> (l < next h)%nat) ->
  forall (ls : list loc) (h' : heap),
    convert_order_by_to_expressions items h = (ls, h') ->
    read h' ls = map (denote_item h) items /\
    List.length ls = List.length items /\
    (next h <= next h')%nat /\
    (forall l : loc, In l ls -> (l < next h')%nat) /\
    (forall l : loc, (l < next h)%nat -> cells h' l = cells h l).
Proof.
  revert h. induction items as [|item items IH]; intros h Hv ls h' E.
  - inversion E; subst. repeat split; auto.
  - cbn [convert_order_by_to_expressions] in E.
    destruct (convert_to_order_by item h) as [l h1] eqn:E1.
    destruct (convert_order_by_to_expressions items h1) as [ls2 h2] eqn:E2.
    inversion E; subst; clear E.
    assert (H1 : (next h <= next h1)%nat /\ (l < next h1)%nat /\
                 cells h1 l = denote_item h item /\
                 (forall l0, (l0 < next h)%nat -> cells h1 l0 = cells h l0)).
    { destruct item as [field|l0]; cbn [convert_to_order_by denote_item] in *.
      - destruct (String.eqb (substring 0 1 field) "-");
          inversion E1; subst; cbn [next cells];
          rewrite Nat.eqb_refl; repeat split; try lia;
          intros l0 Hl0; destruct (Nat.eqb_spec l0 (next h)); (lia || reflexivity).
      - inversion E1; subst. repeat split; auto. apply Hv. left. reflexivity. }
    destruct H1 as (Hn1 & Hl1 & Hc1 & Hf1).
    destruct (IH h1) with (ls := ls2) (h' := h') as (R & L & N & V & Fr); auto.
    { intros l0 Hin. specialize (Hv l0 (or_intror Hin)). lia. }
    repeat split.
    + cbn [read map]. f_equal.
      * rewrite Fr by exact Hl1. exact Hc1.
      * unfold read in R. rewrite R. apply map_ext_in.
        intros [field|l0] Hin; cbn [denote_item]; [reflexivity|].
        apply Hf1. apply Hv. right. exact Hin.
    + cbn [List.length]. rewrite L. reflexivity.
    + lia.
    + intros l0 [<-|Hin]; [lia|]. apply V. exact Hin.
    + intros l0 Hl0. rewrite Fr by lia. apply Hf1. exact Hl0.
Qed.

Lemma convert_order_by_frame (items : list order_item) (h : heap) :
  forall (ls : list loc) (h' : heap),
    convert_order_by_to_expressions items h = (ls, h') ->
    List.length ls = List.length items /\
    (next h <= next h')%nat /\
    (forall l : loc, (l < next h)%nat -> cells h' l = cells h l).
Proof.
  revert h. induction items as [|item items IH]; intros h ls h' E.
  - inversion E; subst. repeat split; auto.
  - cbn [convert_order_by_to_expressions] in E.
    destruct (convert_to_order_by item h) as [l h1] eqn:E1.
    destruct (convert_order_by_to_expressions items h1) as [ls2 h2] eqn:E2.
    inversion E; subst; clear E.
    destruct (IH h1 ls2 h' E2) as (L & N & Fr).
    assert (H1 : (next h <= next h1)%nat /\
                 (forall l0, (l0 < next h)%nat -> cells h1 l0 = cells h l0)).
    { destruct item as [field|l0]; cbn [convert_to_order_by] in E1.
      - destruct (String.eqb (substring 0 1 field) "-");
          inversion E1; subst; cbn [next cells]; split; try lia;
          intros l0 Hl0; destruct (Nat.eqb_spec l0 (next h)); (lia || reflexivity).
      - inversion E1; subst. split; auto. }
    destruct H1 as (N1 & F1).
    repeat split.
    + cbn [List.length]. rewrite L. reflexivity.
    + lia.
    + intros l0 Hl0. rewrite Fr by lia. apply F1. exact Hl0.
Qed.

(** In the forward direction the function is the fold of [loop_body] over
    the orderings the entries of [order_by] denote, followed by
    [apply_filter]. *)
Lemma filter_by_order_key_forward (KEY_BACK SENTINEL_NAME direction : string)
  (qs : queryset) (start_position : list value) (h : heap) :
  direction <> KEY_BACK ->
  (forall l : loc, In (ByExpr l) (get_order_by qs) -> (l < next h)%nat) ->
  List.length start_position = List.length (get_order_by qs) ->
  exists h' : heap,
    let items := combine (map (denote_item h) (get_order_by qs)) start_position in
    let st := filter_turns (len (get_order_by qs)) 0 items initial_state in
    filter_by_order_key KEY_BACK SENTINEL_NAME qs direction start_position h
    = (apply_filter SENTINEL_NAME qs (q st) (sentinel_of items), warnings st, h').
Proof.
  intros Hdir Hv Hlen. unfold filter_by_order_key.
  destruct (convert_order_by_to_expressions (get_order_by qs) h) as [ls h1] eqn:E.
  destruct (convert_order_by_spec _ _ Hv _ _ E) as (R & L & _).
  exists h1. cbv zeta.
  assert (Hl : (len start_position =? len ls) = true).
  { unfold len. rewrite Hlen, L. apply Z.eqb_refl. }
  rewrite Hl. cbn [negb].
  destruct (String.eqb_spec direction KEY_BACK) as [Eq|_]; [contradiction|].
  rewrite filter_loop_turns, sentinel_query_of, R.
  unfold len. rewrite L. reflexivity.
Qed.

Lemma filter_by_order_key_forward_columns
  (KEY_BACK SENTINEL_NAME direction : string)
  (qs : queryset) (start_position : list value) (h : heap) (columns : list OrderBy) :
  direction <> KEY_BACK ->
  (forall l : loc, In (ByExpr l) (get_order_by qs) -> (l < next h)%nat) ->
  map (denote_item h) (get_order_by qs) = columns ->
  List.length start_position = List.length columns ->
  exists h' : heap,
    let items := combine columns start_position in
    let st := filter_turns (len columns) 0 items initial_state in
    filter_by_order_key KEY_BACK SENTINEL_NAME qs direction start_position h
    = (apply_filter SENTINEL_NAME qs (q st) (sentinel_of items), warnings st, h').
Proof.
  intros Hdir Hv Hcols Hlen.
  assert (L : List.length (get_order_by qs) = List.length columns)
    by (rewrite <- Hcols, length_map; reflexivity).
  destruct (filter_by_order_key_forward KEY_BACK SENTINEL_NAME direction qs
              start_position h Hdir Hv) as (h' & E); [congruence|].
  exists h'. cbv zeta in *. rewrite E, Hcols. unfold len. rewrite L. reflexivity.
Qed.

Lemma apply_filter_accepted (SENTINEL_NAME : string) (qs : queryset) (b : Q) (d : dict) :
  (forall x : Q, engine_rejects qs x = false) ->
  q_bool b = true ->
  exists qs' : queryset,
    apply_filter SENTINEL_NAME qs b d = Ok qs' /\
    query_where qs' = query_where qs ++ [b] /\
    query_annotations qs' = query_annotations qs ++ [(SENTINEL_NAME, Q_kwargs d)].
Proof.
  intros Hacc Hb. unfold apply_filter, qs_filter. rewrite Hb, Hacc.
  cbn [bind]. unfold qs_annotate. cbn [engine_rejects]. rewrite Hacc.
  eexists. split; [reflexivity|]. split; reflexivity.
Qed.

(** C2.  With the ordering [(name, id)], both ascending, given by field
    names or by [OrderBy] objects, and the cursor [("B", 2)], the forward
    filter is [name > "B" OR (name = "B" AND id >= 2)]: the second branch
    carries the equality on the first column, the first column is compared
    strictly and the last one inclusively, so the row of the cursor is
    kept. *)
Theorem two_column_forward (KEY_BACK SENTINEL_NAME direction : string)
  (qs : queryset) (h : heap) :
  (forall l : loc, In (ByExpr l) (get_order_by qs) -> (l < next h)%nat) ->
  map (denote_item h) (get_order_by qs) = [F_asc "name"; F_asc "id"] ->
  direction <> KEY_BACK ->
  (forall x : Q, engine_rejects qs x = false) ->
  exists (qs' : queryset) (h' : heap) (boundary : Q),
    filter_by_order_key KEY_BACK SENTINEL_NAME qs direction [str_B; VInt 2] h
    = (Ok qs', [], h') /\
    query_where qs' = query_where qs ++ [boundary] /\
    boundary = QOr (QLeaf "name__gt" str_B)
                   (QAnd (QLeaf "name" str_B) (QLeaf "id__gte" (VInt 2))) /\
    (forall r : row,
        eval boundary r
        = col_gt r "name" str_B || (col_eq r "name" str_B && col_ge r "id" (VInt 2))) /\
    (forall r : row, r "name"%string = str_B -> r "id"%string = VInt 2 ->
                     eval boundary r = true).
Proof.
  intros Hv Hcols Hdir Hacc.
  destruct (filter_by_order_key_forward_columns KEY_BACK SENTINEL_NAME direction qs
              [str_B; VInt 2] h _ Hdir Hv Hcols eq_refl) as (h' & E).
  cbv zeta in E.
  set (boundary := QOr (QLeaf "name__gt" str_B)
                       (QAnd (QLeaf "name" str_B) (QLeaf "id__gte" (VInt 2)))).
  destruct (apply_filter_accepted SENTINEL_NAME qs boundary
              [("name"%string, str_B); ("id"%string, VInt 2)] Hacc eq_refl)
    as (qs' & A & W & _).
  exists qs', h', boundary. split; [|split; [exact W|split; [reflexivity|split]]].
  - rewrite E. rewrite <- A. reflexivity.
  - intros r. reflexivity.
  - intros r Hn Hi. unfold boundary. cbn [eval]. unfold eval_leaf.
    cbn [split_lookup]. simpl. rewrite Hn, Hi. reflexivity.
Qed.

Lemma two_column_forward_witness :
  exists (qs' : queryset) (h' : heap) (boundary : Q),
    filter_by_order_key "b" "sentinel" (plain_queryset [ByName "name"; ByName "id"])
      "n" [str_B; VInt 2] empty_heap
    = (Ok qs', [], h') /\
    query_where qs' = query_where (plain_queryset [ByName "name"; ByName "id"]) ++ [boundary] /\
    boundary = QOr (QLeaf "name__gt" str_B)
                   (QAnd (QLeaf "name" str_B) (QLeaf "id__gte" (VInt 2))) /\
    (forall r : row,
        eval boundary r
        = col_gt r "name" str_B || (col_eq r "name" str_B && col_ge r "id" (VInt 2))) /\
    (forall r : row, r "name"%string = str_B -> r "id"%string = VInt 2 ->
                     eval boundary r = true).
Proof.
  apply (two_column_forward "b" "sentinel" "n"
           (plain_queryset [ByName "name"; ByName "id"]) empty_heap).
  - intros l [H|[H|[]]]; discriminate H.
  - reflexivity.
  - intros H; discriminate H.
  - intros x; reflexivity.
Defined.

(** C3.  With the ordering [(rating DESC NULLS LAST, id ASC)] and the
    cursor [(4.5, 10)], the forward filter is
    [rating < 4.5 OR rating IS NULL OR (rating = 4.5 AND id >= 10)]: the
    branch of the nulls-last column is widened by [rating IS NULL] and the
    branch of the next column pins [rating] to the cursor value. *)
Theorem nulls_last_desc_forward (KEY_BACK SENTINEL_NAME direction : string)
  (qs : queryset) (h : heap) :
  (forall l : loc, In (ByExpr l) (get_order_by qs) -> (l < next h)%nat) ->
  map (denote_item h) (get_order_by qs) = [rating_desc_nulls_last; F_asc "id"] ->
  direction <> KEY_BACK ->
  (forall x : Q, engine_rejects qs x = false) ->
  exists (qs' : queryset) (h' : heap) (boundary : Q),
    filter_by_order_key KEY_BACK SENTINEL_NAME qs direction [float_4_5; VInt 10] h
    = (Ok qs', [], h') /\
    query_where qs' = query_where qs ++ [boundary] /\
    boundary = QOr (QOr (QLeaf "rating__lt" float_4_5)
                        (QLeaf "rating__isnull" (VBool true)))
                   (QAnd (QLeaf "rating" float_4_5) (QLeaf "id__gte" (VInt 10))) /\
    (forall r : row,
        eval boundary r
        = (col_lt r "rating" float_4_5 || col_is_null r "rating")
          || (col_eq r "rating" float_4_5 && col_ge r "id" (VInt 10))).
Proof.
  intros Hv Hcols Hdir Hacc.
  destruct (filter_by_order_key_forward_columns KEY_BACK SENTINEL_NAME direction qs
              [float_4_5; VInt 10] h _ Hdir Hv Hcols eq_refl) as (h' & E).
  cbv zeta in E.
  set (boundary := QOr (QOr (QLeaf "rating__lt" float_4_5)
                            (QLeaf "rating__isnull" (VBool true)))
                       (QAnd (QLeaf "rating" float_4_5) (QLeaf "id__gte" (VInt 10)))).
  destruct (apply_filter_accepted SENTINEL_NAME qs boundary
              [("rating"%string, float_4_5); ("id"%string, VInt 10)] Hacc eq_refl)
    as (qs' & A & W & _).
  exists qs', h', boundary. split; [|split; [exact W|split; [reflexivity|]]].
  - rewrite E. rewrite <- A. reflexivity.
  - intros r. reflexivity.
Qed.

Lemma nulls_last_desc_forward_witness :
  exists (qs' : queryset) (h' : heap) (boundary : Q),
    filter_by_order_key "b" "sentinel" (plain_queryset [ByExpr 0%nat; ByName "id"])
      "n" [float_4_5; VInt 10] (snd (alloc empty_heap rating_desc_nulls_last))
    = (Ok qs', [], h') /\
    query_where qs'
    = query_where (plain_queryset [ByExpr 0%nat; ByName "id"]) ++ [boundary] /\
    boundary = QOr (QOr (QLeaf "rating__lt" float_4_5)
                        (QLeaf "rating__isnull" (VBool true)))
                   (QAnd (QLeaf "rating" float_4_5) (QLeaf "id__gte" (VInt 10))) /\
    (forall r : row,
        eval boundary r
        = (col_lt r "rating" float_4_5 || col_is_null r "rating")
          || (col_eq r "rating" float_4_5 && col_ge r "id" (VInt 10))).
Proof.
  apply (nulls_last_desc_forward "b" "sentinel" "n"
           (plain_queryset [ByExpr 0%nat; ByName "id"])
           (snd (alloc empty_heap rating_desc_nulls_last))).
  - intros l [H|[H|[]]]; [|discriminate H]. inversion H. simpl. lia.
  - reflexivity.
  - intros H; discriminate H.
  - intros x; reflexivity.
Defined.

(** C4 fails on the code.  With one nulls-last column and a null cursor
    value the loop only records [column__isnull] in the prefix and
    continues; [q] stays empty, the test [if q:] skips the filter, and the
    queryset comes back as it was given: no [column IS NULL] is applied,
    and a row whose column is not null, which [column IS NULL] rejects, is
    returned when the given queryset returns it. *)
Theorem null_cursor_nulls_last_unfiltered (KEY_BACK SENTINEL_NAME direction : string)
  (qs : queryset) (h : heap) (column : OrderBy) :
  (forall l : loc, In (ByExpr l) (get_order_by qs) -> (l < next h)%nat) ->
  map (denote_item h) (get_order_by qs) = [column] ->
  truthy (nulls_last column) = true ->
  direction <> KEY_BACK ->
  exists h' : heap,
    filter_by_order_key KEY_BACK SENTINEL_NAME qs direction [VNone] h
    = (Ok qs, [], h') /\
    (forall r : row,
        r (expression_name column) = VInt 5 ->
        selects qs r = true ->
        col_is_null r (expression_name column) = false /\
        forall qs' : queryset,
          filter_by_order_key KEY_BACK SENTINEL_NAME qs direction [VNone] h
          = (Ok qs', [], h') ->
          selects qs' r = true).
Proof.
  intros Hv Hcols Hnl Hdir.
  destruct (filter_by_order_key_forward_columns KEY_BACK SENTINEL_NAME direction qs
              [VNone] h _ Hdir Hv Hcols eq_refl) as (h' & E).
  cbv zeta in E.
  assert (St : filter_turns (len [column]) 0 (combine [column] [VNone]) initial_state
               = {| filter_combinations :=
                      [(isnull_lookup (expression_name column), VBool true)];
                    q := QEmpty; warnings := [] |}).
  { cbn [combine filter_turns]. unfold loop_body. rewrite Hnl. reflexivity. }
  rewrite St in E. cbn [q warnings apply_filter q_bool] in E.
  exists h'. split; [exact E|].
  intros r Hr Hs. split.
  - unfold col_is_null. rewrite Hr. reflexivity.
  - intros qs' E'. rewrite E in E'. inversion E'; subst qs'. exact Hs.
Qed.

Lemma null_cursor_nulls_last_unfiltered_witness :
  exists h' : heap,
    filter_by_order_key "b" "sentinel" (plain_queryset [ByExpr 0%nat]) "n" [VNone]
      (snd (alloc empty_heap (asc_nulls_last "col")))
    = (Ok (plain_queryset [ByExpr 0%nat]), [], h') /\
    (forall r : row,
        r (expression_name (asc_nulls_last "col")) = VInt 5 ->
        selects (plain_queryset [ByExpr 0%nat]) r = true ->
        col_is_null r (expression_name (asc_nulls_last "col")) = false /\
        forall qs' : queryset,
          filter_by_order_key "b" "sentinel" (plain_queryset [ByExpr 0%nat]) "n" [VNone]
            (snd (alloc empty_heap (asc_nulls_last "col")))
          = (Ok qs', [], h') ->
          selects qs' r = true).
Proof.
  apply (null_cursor_nulls_last_unfiltered "b" "sentinel" "n"
           (plain_queryset [ByExpr 0%nat])
           (snd (alloc empty_heap (asc_nulls_last "col"))) (asc_nulls_last "col")).
  - intros l [H|[]]. inversion H. simpl. lia.
  - reflexivity.
  - reflexivity.
  - intros H; discriminate H.
Defined.

(** C7.  Whenever the cursor and the ordering differ in length, the
    function raises [InvalidPage], whatever the direction and the values:
    no warning is logged, no queryset is produced (so nothing was ordered,
    filtered or annotated), and the objects of the store are as they
    were. *)
Theorem length_mismatch_is_invalid_page (KEY_BACK SENTINEL_NAME direction : string)
  (qs : queryset) (start_position : list value) (h : heap) :
  List.length start_position <> List.length (get_order_by qs) ->
  exists h' : heap,
    filter_by_order_key KEY_BACK SENTINEL_NAME qs direction start_position h
    = (Raise InvalidPage, [], h') /\
    (forall l : loc, (l < next h)%nat -> cells h' l = cells h l).
Proof.
  intros Hlen. unfold filter_by_order_key.
  destruct (convert_order_by_to_expressions (get_order_by qs) h) as [ls h1] eqn:E.
  destruct (convert_order_by_frame _ _ _ _ E) as (L & _ & Fr).
  exists h1. split; [|exact Fr].
  assert (Hl : (len start_position =? len ls) = false).
  { apply Z.eqb_neq. unfold len. rewrite L. lia. }
  rewrite Hl. reflexivity.
Qed.

Lemma length_mismatch_is_invalid_page_witness :
  exists h' : heap,
    filter_by_order_key "b" "sentinel" (plain_queryset [ByName "name"; ByName "id"])
      "n" [str_B] empty_heap
    = (Raise InvalidPage, [], h') /\
    (forall l : loc, (l < next empty_heap)%nat -> cells h' l = cells empty_heap l).
Proof.
  apply (length_mismatch_is_invalid_page "b" "sentinel" "n"
           (plain_queryset [ByName "name"; ByName "id"]) [str_B] empty_heap).
  simpl. lia.
Defined.

Lemma some_branch_or (a b : Q) (r : row) :
  some_branch (q_or a b) r = some_branch a r || some_branch b r.
Proof.
  unfold some_branch, q_or.
  destruct a, b; cbn [q_bool negb andb orb eval];
    rewrite ?orb_false_r; reflexivity.
Qed.

Lemma invert_field_unspecified (o : OrderBy) :
  truthy (nulls_first o) = false -> truthy (nulls_last o) = false ->
  invert_field o
  = {| expression_name := expression_name o;
       descending := negb (descending o);
       nulls_first := nulls_first o;
       nulls_last := nulls_last o |}.
Proof.
  intros Hf Hl. unfold invert_field. cbn [nulls_first nulls_last].
  rewrite Hf, Hl. reflexivity.
Qed.

(** C8, as amended.  On a null cursor value and a column with neither
    null flag, the turn of the loop logs the warning and adds to [q] the
    current prefix alone, with no comparison and no null test on the
    column (and nothing when the prefix is empty, an empty [Q] being
    dropped by [|]); the prefix is then extended by [column = None].  The
    rows of the new branch are the rows of the prefix, and the turn is the
    same in the backward direction, on the inverted column. *)
Theorem unspecified_null_turn (n i : Z) (order_expression : OrderBy) (st : loop_state) :
  truthy (nulls_first order_expression) = false ->
  truthy (nulls_last order_expression) = false ->
  loop_body n i order_expression VNone st
  = {| filter_combinations :=
         dict_set (dict_pop (filter_combinations st) "")
                  (expression_name order_expression) VNone;
       q := q_or (q st) (Q_kwargs (filter_combinations st));
       warnings := warnings st ++ [no_nulls_warning] |} /\
  (forall r : row,
      some_branch (q (loop_body n i order_expression VNone st)) r
      = some_branch (q st) r || some_branch (Q_kwargs (filter_combinations st)) r) /\
  loop_body n i (invert_field order_expression) VNone st
  = loop_body n i order_expression VNone st.
Proof.
  intros Hf Hl.
  assert (E : loop_body n i order_expression VNone st
              = {| filter_combinations :=
                     dict_set (dict_pop (filter_combinations st) "")
                              (expression_name order_expression) VNone;
                   q := q_or (q st) (Q_kwargs (filter_combinations st));
                   warnings := warnings st ++ [no_nulls_warning] |}).
  { unfold loop_body. rewrite Hf, Hl. reflexivity. }
  split; [exact E|split].
  - intros r. rewrite E. cbn [q]. apply some_branch_or.
  - rewrite (invert_field_unspecified _ Hf Hl).
    unfold loop_body. cbn [nulls_first nulls_last expression_name].
    rewrite Hf, Hl. reflexivity.
Qed.

Lemma unspecified_null_turn_witness :
  loop_body 2 1 (F_asc "name") VNone after_id_1
  = {| filter_combinations :=
         dict_set (dict_pop (filter_combinations after_id_1) "")
                  (expression_name (F_asc "name")) VNone;
       q := q_or (q after_id_1) (Q_kwargs (filter_combinations after_id_1));
       warnings := warnings after_id_1 ++ [no_nulls_warning] |} /\
  (forall r : row,
      some_branch (q (loop_body 2 1 (F_asc "name") VNone after_id_1)) r
      = some_branch (q after_id_1) r
        || some_branch (Q_kwargs (filter_combinations after_id_1)) r) /\
  loop_body 2 1 (invert_field (F_asc "name")) VNone after_id_1
  = loop_body 2 1 (F_asc "name") VNone after_id_1.
Proof.
  apply (unspecified_null_turn 2 1 (F_asc "name") after_id_1); reflexivity.
Defined.

(** C8, as the specification states it, fails: after the column [id]
    with cursor value 1, the turn on the column [name], without null
    policy and with a null cursor value, adds the branch [id = 1], not
    [id = 1 AND name >= None]; the row [(id = 1, name = "x")] passes the
    filter of the code and not the one of the stated turn. *)
Lemma unspecified_null_turn_as_stated_fails :
  truthy (nulls_first (F_asc "name")) = false /\
  truthy (nulls_last (F_asc "name")) = false /\
  q (loop_body 2 1 (F_asc "name") VNone after_id_1)
  = QOr (QLeaf "id__gt" (VInt 1)) (QLeaf "id" (VInt 1)) /\
  q (unspecified_null_turn_as_stated 2 1 (F_asc "name") after_id_1)
  = QOr (QLeaf "id__gt" (VInt 1))
        (QAnd (QLeaf "id" (VInt 1)) (QLeaf "name__gte" VNone)) /\
  loop_body 2 1 (F_asc "name") VNone after_id_1
  <> unspecified_null_turn_as_stated 2 1 (F_asc "name") after_id_1 /\
  eval (q (loop_body 2 1 (F_asc "name") VNone after_id_1)) row_id_1_name_x = true /\
  eval (q (unspecified_null_turn_as_stated 2 1 (F_asc "name") after_id_1))
       row_id_1_name_x = false.
Proof.
  repeat split; try reflexivity.
  intros H. apply (f_equal q) in H. vm_compute in H. discriminate H.
Qed.

(** ** [invert_order_by] *)

Lemma invert_field_involutive (field : OrderBy) :
  nulls_first field = None \/ nulls_last field = None ->
  invert_field (invert_field field) = field.
Proof.
  destruct field as [name d nf nl]. cbn [nulls_first nulls_last].
  destruct nf as [[|]|], nl as [[|]|], d; intros [H|H];
    try discriminate H; reflexivity.
Qed.

Lemma invert_field_even (k : nat) (field : OrderBy) :
  nulls_first field = None \/ nulls_last field = None ->
  Nat.iter (k + k) invert_field field = field.
Proof.
  intros H. induction k as [|k IH].
  - reflexivity.
  - replace (S k + S k)%nat with (S (S (k + k))) by lia.
    cbn [Nat.iter nat_rect]. unfold Nat.iter in IH. rewrite IH.
    apply invert_field_involutive. exact H.
Qed.

Lemma invert_loop_next (ls : list loc) (h : heap) :
  next (invert_loop ls h) = next h.
Proof.
  revert h. induction ls as [|a ls IH]; intros h; cbn [invert_loop].
  - reflexivity.
  - rewrite IH. reflexivity.
Qed.

Lemma iter_shift {A} (f : A -> A) (k : nat) (x : A) :
  Nat.iter k f (f x) = f (Nat.iter k f x).
Proof.
  induction k as [|k IH]; cbn [Nat.iter nat_rect].
  - reflexivity.
  - unfold Nat.iter in IH. rewrite IH. reflexivity.
Qed.

(** The loop of [invert_order_by] inverts an object once for each time it
    is listed. *)
Lemma invert_loop_cells (ls : list loc) (h : heap) (l : loc) :
  cells (invert_loop ls h) l
  = Nat.iter (occurrences ls l) invert_field (cells h l).
Proof.
  revert h. induction ls as [|a ls IH]; intros h.
  - reflexivity.
  - cbn [invert_loop]. rewrite IH. unfold occurrences. cbn [count_occ update cells].
    destruct (Nat.eq_dec a l) as [->|Hne].
    + rewrite Nat.eqb_refl. rewrite iter_shift. reflexivity.
    + destruct (Nat.eqb_spec l a) as [->|_]; [contradiction|]. reflexivity.
Qed.

Lemma deepcopy_items_spec (base : loc) (h0 : heap) (ls : list loc) :
  forall (m : memo) (h : heap),
    (base <= next h)%nat ->
    (forall l : loc, In l ls -> (l < base)%nat) ->
    memo_ok base h0 h m ->
    (forall l : loc, (l < base)%nat -> cells h l = cells h0 l) ->
    forall (copies : list loc) (m' : memo) (h' : heap),
      deepcopy_items m ls h = (copies, m', h') ->
      memo_ok base h0 h' m' /\
      Forall2 (fun l c => memo_find m' l = Some c) ls copies /\
      (forall l c : loc, memo_find m l = Some c -> memo_find m' l = Some c) /\
      (next h <= next h')%nat /\
      (forall l : loc, (l < next h)%nat -> cells h' l = cells h l).
Proof.
  induction ls as [|l rest IH]; intros m h Hb Hv Hm Hf copies m' h' E.
  - inversion E; subst.
    refine (conj Hm (conj _ (conj _ (conj _ _)))); auto.
  - cbn [deepcopy_items] in E.
    destruct (memo_find m l) as [c|] eqn:Ef.
    + destruct (deepcopy_items m rest h) as [[cs m1] h1] eqn:Er.
      inversion E; subst; clear E.
      destruct (IH m h Hb (fun x Hx => Hv x (or_intror Hx)) Hm Hf _ _ _ Er)
        as (Hm' & F2 & Ext & Hn & Fr).
      refine (conj Hm' (conj _ (conj Ext (conj Hn Fr)))).
      constructor; [|exact F2]. apply Ext. exact Ef.
    + cbn [alloc] in E.
      set (h1 := {| cells := fun l0 => if Nat.eqb l0 (next h) then cells h l else cells h l0;
                    next := S (next h) |}) in *.
      destruct (deepcopy_items ((l, next h) :: m) rest h1) as [[cs m1] h2] eqn:Er.
      inversion E; subst; clear E.
      assert (Hl : (l < base)%nat) by (apply Hv; left; reflexivity).
      destruct Hm as (Hm1 & Hm2).
      assert (Hm1' : memo_ok base h0 h1 ((l, next h) :: m)).
      { split.
        - intros l0 c Hfind. cbn [memo_find] in Hfind.
          destruct (Nat.eqb_spec l l0) as [->|Hne].
          + inversion Hfind; subst. cbn [next cells h1]. rewrite Nat.eqb_refl.
            repeat split; try lia. apply Hf. exact Hl.
          + destruct (Hm1 _ _ Hfind) as (Hc & Hl0 & Hcell).
            cbn [next cells h1]. destruct (Nat.eqb_spec c (next h)); [lia|].
            repeat split; try lia. exact Hcell.
        - intros l1 l2 c H1 H2. cbn [memo_find] in H1, H2.
          destruct (Nat.eqb_spec l l1) as [E1|N1], (Nat.eqb_spec l l2) as [E2|N2].
          + congruence.
          + inversion H1; subst. destruct (Hm1 _ _ H2) as (Hc & _). lia.
          + inversion H2; subst. destruct (Hm1 _ _ H1) as (Hc & _). lia.
          + apply (Hm2 _ _ _ H1 H2). }
      assert (Hf1 : forall l0 : loc, (l0 < base)%nat -> cells h1 l0 = cells h0 l0).
      { intros l0 Hl0. cbn [cells h1].
        destruct (Nat.eqb_spec l0 (next h)); [lia|]. apply Hf. exact Hl0. }
      assert (Hb1 : (base <= next h1)%nat) by (cbn [next h1]; lia).
      destruct (IH _ h1 Hb1 (fun x Hx => Hv x (or_intror Hx)) Hm1' Hf1 _ _ _ Er)
        as (Hm' & F2 & Ext & Hn & Fr).
      cbn [next h1] in Hn.
      refine (conj Hm' (conj _ (conj _ (conj _ _)))).
      * constructor; [|exact F2]. apply Ext. cbn [memo_find].
        rewrite Nat.eqb_refl. reflexivity.
      * intros l0 c Hfind. apply Ext. cbn [memo_find].
        destruct (Nat.eqb_spec l l0) as [->|_]; [congruence|exact Hfind].
      * lia.
      * intros l0 Hl0. rewrite Fr by (cbn [next h1]; lia). cbn [cells h1].
        destruct (Nat.eqb_spec l0 (next h)); [lia|reflexivity].
Qed.

(** Copies are listed as often as the objects they copy. *)
Lemma occurrences_copies (rho : loc -> option loc) (ls copies : list loc) :
  (forall l1 l2 c : loc, rho l1 = Some c -> rho l2 = Some c -> l1 = l2) ->
  Forall2 (fun l c => rho l = Some c) ls copies ->
  forall l c : loc, rho l = Some c -> occurrences copies c = occurrences ls l.
Proof.
  intros Hinj F2 l c Hl. unfold occurrences.
  induction F2 as [|x y xs ys Hxy _ IH]; [reflexivity|].
  cbn [count_occ].
  destruct (Nat.eq_dec y c) as [->|Hy], (Nat.eq_dec x l) as [->|Hx].
  - rewrite IH. reflexivity.
  - exfalso. apply Hx. apply (Hinj _ _ _ Hxy Hl).
  - exfalso. apply Hy. congruence.
  - exact IH.
Qed.

Lemma Forall2_right_In {A B} (P : A -> B -> Prop) (xs : list A) (ys : list B) :
  Forall2 P xs ys -> forall y : B, In y ys -> exists x : A, In x xs /\ P x y.
Proof.
  induction 1 as [|x y0 xs ys HP _ IH]; intros y Hin.
  - destruct Hin.
  - destruct Hin as [<-|Hin].
    + exists x. split; [left; reflexivity|exact HP].
    + destruct (IH y Hin) as (x' & Hx' & HP'). exists x'. split; [right|]; assumption.
Qed.

Lemma Forall2_map_eq {A B C} (f : B -> C) (g : A -> C) (xs : list A) (ys : list B) :
  Forall2 (fun x y => f y = g x) xs ys -> map f ys = map g xs.
Proof.
  induction 1 as [|x y xs ys HP _ IH]; cbn [map]; [reflexivity|].
  rewrite HP, IH. reflexivity.
Qed.

(** One call of [invert_order_by]: the result lists fresh copies, each
    inverted once for each time the object it copies is listed, and every
    object that was in the store holds what it held. *)
Lemma invert_order_by_spec (order_by : list loc) (h : heap) :
  (forall l : loc, In l order_by -> (l < next h)%nat) ->
  exists (copies : list loc) (h' : heap),
    invert_order_by order_by h = (copies, h') /\
    Forall2 (fun l c =>
               cells h' c = Nat.iter (occurrences order_by l) invert_field (cells h l) /\
               occurrences copies c = occurrences order_by l /\
               (next h <= c < next h')%nat)
            order_by copies /\
    (forall l : loc, (l < next h)%nat -> cells h' l = cells h l) /\
    (next h <= next h')%nat.
Proof.
  intros Hv. unfold invert_order_by, deepcopy.
  destruct (deepcopy_items [] order_by h) as [[copies m'] h1] eqn:E.
  assert (M0 : memo_ok (next h) h h []).
  { split; intros; discriminate. }
  destruct (deepcopy_items_spec (next h) h order_by [] h (le_n _) Hv M0
              (fun _ _ => eq_refl) _ _ _ E) as ((Hm1 & Hm2) & F2 & _ & Hn & Fr).
  exists copies, (invert_loop copies h1). split; [reflexivity|].
  rewrite invert_loop_next. split; [|split; [|exact Hn]].
  - eapply Forall2_impl; [|exact F2].
    intros l c Hfind. cbv beta in Hfind.
    destruct (Hm1 _ _ Hfind) as (Hc & Hl & Hcell).
    pose proof (occurrences_copies (memo_find m') order_by copies Hm2 F2 l c Hfind) as Ho.
    rewrite invert_loop_cells, Ho, Hcell. repeat split; lia.
  - intros l Hl. rewrite invert_loop_cells.
    assert (Hz : occurrences copies l = 0%nat).
    { unfold occurrences. apply count_occ_not_In. intros Hin.
      destruct (Forall2_right_In _ _ _ F2 l Hin) as (l0 & _ & Hfind).
      destruct (Hm1 _ _ Hfind) as (Hc & _). lia. }
    rewrite Hz. cbn [Nat.iter nat_rect]. apply Fr. exact Hl.
Qed.

Lemma Forall2_with_left {A B} (P : A -> B -> Prop) (Q : A -> Prop)
  (xs : list A) (ys : list B) :
  Forall2 P xs ys -> (forall x : A, In x xs -> Q x) ->
  Forall2 (fun x y => P x y /\ Q x) xs ys.
Proof.
  induction 1 as [|x y xs ys HP _ IH]; intros HQ; constructor.
  - split; [exact HP|]. apply HQ. left. reflexivity.
  - apply IH. intros x' Hx'. apply HQ. right. exact Hx'.
Qed.

Lemma Forall2_compose {A B C} (P : A -> B -> Prop) (Q : B -> C -> Prop)
  (xs : list A) (ys : list B) (zs : list C) :
  Forall2 P xs ys -> Forall2 Q ys zs ->
  Forall2 (fun x z => exists y : B, P x y /\ Q y z) xs zs.
Proof.
  intros HP. revert zs. induction HP as [|x y xs ys Hxy _ IH]; intros zs HQ.
  - inversion HQ. constructor.
  - inversion HQ as [|y' z ys' zs' Hyz HQ']; subst. constructor.
    + exists y. split; assumption.
    + apply IH. exact HQ'.
Qed.

Lemma invert_field_one_flag (field : OrderBy) :
  one_flag field -> one_flag (invert_field field).
Proof.
  destruct field as [name d nf nl]. unfold one_flag. cbn [nulls_first nulls_last].
  destruct nf as [[|]|], nl as [[|]|]; intros H; try discriminate H; reflexivity.
Qed.

Lemma invert_field_twice_column (field : OrderBy) :
  one_flag field -> column_of (invert_field (invert_field field)) = column_of field.
Proof.
  destruct field as [name d nf nl]. unfold one_flag. cbn [nulls_first nulls_last].
  destruct nf as [[|]|], nl as [[|]|], d; intros H; try discriminate H; reflexivity.
Qed.

Lemma invert_field_iter_one_flag (k : nat) (field : OrderBy) :
  one_flag field -> one_flag (Nat.iter k invert_field field).
Proof.
  intros H. induction k as [|k IH]; cbn [Nat.iter nat_rect].
  - exact H.
  - apply invert_field_one_flag. exact IH.
Qed.

Lemma invert_field_even_column (k : nat) (field : OrderBy) :
  one_flag field ->
  column_of (Nat.iter (k + k) invert_field field) = column_of field.
Proof.
  intros H. induction k as [|k IH].
  - reflexivity.
  - replace (S k + S k)%nat with (S (S (k + k))) by lia.
    cbn [Nat.iter nat_rect].
    pose proof (invert_field_iter_one_flag (k + k) field H) as Hk.
    unfold Nat.iter in IH, Hk.
    rewrite (invert_field_twice_column _ Hk). exact IH.
Qed.

(** C9.  For an ordering whose columns have at most one of [nulls_first]
    and [nulls_last] active, inverting twice restores the column, the
    direction and the null policy of every entry, and gives an ordering
    equal to the original, flag by flag, when one of the two flags of
    every column is [None]; one call returns fresh copies: the objects of
    its argument are not written and none of them is in the result. *)
Theorem invert_order_by_involutive (order_by : list loc) (h : heap) :
  (forall l : loc, In l order_by -> (l < next h)%nat) ->
  (forall l : loc, In l order_by -> one_flag (cells h l)) ->
  exists (once : list loc) (h1 : heap) (twice : list loc) (h2 : heap),
    invert_order_by order_by h = (once, h1) /\
    invert_order_by once h1 = (twice, h2) /\
    map column_of (read h2 twice) = map column_of (read h order_by) /\
    ((forall l : loc, In l order_by ->
                      nulls_first (cells h l) = None \/ nulls_last (cells h l) = None) ->
     read h2 twice = read h order_by) /\
    read h1 order_by = read h order_by /\
    read h2 order_by = read h order_by /\
    (forall l : loc, (l < next h)%nat -> cells h1 l = cells h l) /\
    (forall l : loc, In l once -> ~ In l order_by).
Proof.
  intros Hv Hflags.
  destruct (invert_order_by_spec order_by h Hv) as (once & h1 & E1 & F1 & Fr1 & N1).
  assert (Hv1 : forall l : loc, In l once -> (l < next h1)%nat).
  { intros c Hin. destruct (Forall2_right_In _ _ _ F1 c Hin) as (l & _ & _ & _ & Hc). lia. }
  destruct (invert_order_by_spec once h1 Hv1) as (twice & h2 & E2 & F2 & Fr2 & N2).
  exists once, h1, twice, h2.
  split; [exact E1|]. split; [exact E2|].
  assert (R1 : read h1 order_by = read h order_by).
  { unfold read. apply map_ext_in. intros l Hin. apply Fr1. apply Hv. exact Hin. }
  assert (G : Forall2 (fun l c2 =>
                In l order_by /\
                cells h2 c2
                = Nat.iter (occurrences order_by l + occurrences order_by l)
                           invert_field (cells h l))
              order_by twice).
  { pose proof (Forall2_compose _ _ _ _ _
                  (Forall2_with_left _ (fun l => In l order_by) _ _ F1 (fun _ H => H))
                  F2) as G.
    eapply Forall2_impl; [|exact G].
    intros l c2 (c1 & ((Hc1 & Ho1 & _) & Hin) & (Hc2 & _ & _)). cbv beta.
    split; [exact Hin|].
    rewrite Hc2, Ho1, Hc1, <- Nat.iter_add. reflexivity. }
  split; [|split; [|split; [exact R1|split; [|split; [exact Fr1|]]]]].
  - unfold read. rewrite !map_map. apply Forall2_map_eq.
    eapply Forall2_impl; [|exact G].
    intros l c2 (Hin & Hc2). cbv beta. rewrite Hc2.
    apply invert_field_even_column. apply Hflags. exact Hin.
  - intros Hnone. unfold read. apply Forall2_map_eq.
    eapply Forall2_impl; [|exact G].
    intros l c2 (Hin & Hc2). cbv beta. rewrite Hc2.
    apply invert_field_even. apply Hnone. exact Hin.
  - rewrite <- R1. unfold read. apply map_ext_in. intros l Hin.
    apply Fr2. specialize (Hv l Hin). lia.
  - intros c Hin Hin'.
    destruct (Forall2_right_In _ _ _ F1 c Hin) as (l & _ & _ & _ & Hc).
    specialize (Hv c Hin'). lia.
Qed.

Lemma invert_order_by_involutive_witness :
  exists (once : list loc) (h1 : heap) (twice : list loc) (h2 : heap),
    invert_order_by [0%nat; 1%nat; 0%nat]
      (snd (alloc (snd (alloc empty_heap rating_desc_nulls_last)) (F_asc "id")))
    = (once, h1) /\
    invert_order_by once h1 = (twice, h2) /\
    map column_of (read h2 twice)
    = map column_of
        (read (snd (alloc (snd (alloc empty_heap rating_desc_nulls_last)) (F_asc "id")))
              [0%nat; 1%nat; 0%nat]) /\
    ((forall l : loc,
         In l [0%nat; 1%nat; 0%nat] ->
         nulls_first
           (cells (snd (alloc (snd (alloc empty_heap rating_desc_nulls_last))
                              (F_asc "id"))) l) = None \/
         nulls_last
           (cells (snd (alloc (snd (alloc empty_heap rating_desc_nulls_last))
                              (F_asc "id"))) l) = None) ->
     read h2 twice
     = read (snd (alloc (snd (alloc empty_heap rating_desc_nulls_last)) (F_asc "id")))
            [0%nat; 1%nat; 0%nat]) /\
    read h1 [0%nat; 1%nat; 0%nat]
    = read (snd (alloc (snd (alloc empty_heap rating_desc_nulls_last)) (F_asc "id")))
           [0%nat; 1%nat; 0%nat] /\
    read h2 [0%nat; 1%nat; 0%nat]
    = read (snd (alloc (snd (alloc empty_heap rating_desc_nulls_last)) (F_asc "id")))
           [0%nat; 1%nat; 0%nat] /\
    (forall l : loc,
        (l < next (snd (alloc (snd (alloc empty_heap rating_desc_nulls_last))
                              (F_asc "id"))))%nat ->
        cells h1 l
        = cells (snd (alloc (snd (alloc empty_heap rating_desc_nulls_last)) (F_asc "id"))) l) /\
    (forall l : loc, In l once -> ~ In l [0%nat; 1%nat; 0%nat]).
Proof.
  apply (invert_order_by_involutive [0%nat; 1%nat; 0%nat]
           (snd (alloc (snd (alloc empty_heap rating_desc_nulls_last)) (F_asc "id")))).
  - intros l [<-|[<-|[<-|[]]]]; simpl; lia.
  - intros l [<-|[<-|[<-|[]]]]; reflexivity.
Defined.

(** With [nulls_last=False] beside [nulls_first=True] the policy comes
    back but the flag [False] comes back as [None]. *)
Example invert_field_twice_false_flag :
  let field := {| expression_name := "rating"; descending := false;
                  nulls_first := Some true; nulls_last := Some false |} in
  invert_field (invert_field field)
  = {| expression_name := "rating"; descending := false;
       nulls_first := Some true; nulls_last := None |} /\
  column_of (invert_field (invert_field field)) = column_of field.
Proof. split; reflexivity. Qed.

(** On distinct objects one call inverts every column once. *)
Lemma invert_order_by_distinct (order_by : list loc) (h : heap) :
  (forall l : loc, In l order_by -> (l < next h)%nat) ->
  NoDup order_by ->
  exists (once : list loc) (h1 : heap),
    invert_order_by order_by h = (once, h1) /\
    read h1 once = map invert_field (read h order_by).
Proof.
  intros Hv Hnd.
  destruct (invert_order_by_spec order_by h Hv) as (once & h1 & E1 & F1 & _).
  exists once, h1. split; [exact E1|].
  unfold read. rewrite map_map. apply Forall2_map_eq.
  pose proof (Forall2_with_left _ (fun l => In l order_by) _ _ F1 (fun _ H => H)) as G.
  eapply Forall2_impl; [|exact G].
  intros l c ((Hc & _) & Hin). cbv beta. rewrite Hc.
  unfold occurrences.
  rewrite (proj1 (NoDup_count_occ' Nat.eq_dec order_by) Hnd l Hin). reflexivity.
Qed.

(** An object listed twice is inverted twice by one call, that is left
    as it was. *)
Example invert_order_by_shared_object :
  let h := snd (alloc empty_heap rating_desc_nulls_last) in
  let '(once, h1) := invert_order_by [0%nat; 0%nat] h in
  read h1 once = [rating_desc_nulls_last; rating_desc_nulls_last] /\
  read h1 [0%nat; 0%nat] = [rating_desc_nulls_last; rating_desc_nulls_last].
Proof. split; reflexivity. Qed.

(** ** Where the round trip holds *)

Lemma serialize_value_scalar (v : value) :
  codec_scalar v ->
  exists b : bytes,
    serialize_value serialize_value_fuel v = Some (Ok b) /\
    (0 < List.length b)%nat /\
    forall (fuel : nat) (rest : bytes) (values : list value),
      deserialize_loop (S fuel) (b ++ rest) values
      = deserialize_loop fuel rest (values ++ [v]).
Proof.
  destruct v as [|b|s|b|z|x t|t]; cbn [codec_scalar]; intros H; try contradiction.
  - exists [x00]. repeat split; cbn [List.length]; try lia.
  - destruct b; [exists [x01]|exists [x02]]; repeat split; cbn [List.length]; lia.
  - destruct (Z.ltb_spec z 0) as [Hneg|Hpos].
    + destruct (class_of_magnitude (- z - 1)) as (c & Hc & Hr).
      { destruct cap_values as (_ & _ & _ & ->). lia. }
      assert (Hp : 0 <= - z - 1 - bias c < 256 ^ Z.of_nat (width c))
        by (rewrite <- cap_minus_bias; lia).
      eexists. split; [|split].
      * unfold serialize_value_fuel. cbn [serialize_value].
        rewrite (serialize_first_negative c z Hc Hneg Hr). reflexivity.
      * cbn [List.length]. lia.
      * intros fuel rest values. cbn [app].
        rewrite (deserialize_loop_negative c _ rest fuel values Hc Hp).
        replace (- (- z - 1 - bias c + bias c) - 1) with z by lia. reflexivity.
    + destruct (class_of_magnitude z) as (c & Hc & Hr).
      { destruct cap_values as (_ & _ & _ & ->). lia. }
      assert (Hp : 0 <= z - bias c < 256 ^ Z.of_nat (width c))
        by (rewrite <- cap_minus_bias; lia).
      eexists. split; [|split].
      * unfold serialize_value_fuel. cbn [serialize_value].
        rewrite (serialize_first_positive c z Hc Hr). reflexivity.
      * cbn [List.length]. lia.
      * intros fuel rest values. cbn [app].
        rewrite (deserialize_loop_positive c _ rest fuel values Hc Hp).
        replace (z - bias c + bias c) with z by lia. reflexivity.
Qed.

Lemma serialize_values_scalars (vs : list value) :
  Forall codec_scalar vs ->
  exists data : bytes,
    serialize_values vs = Some (Ok data) /\
    (List.length vs <= List.length data)%nat /\
    forall (k : nat) (rest : bytes) (values : list value),
      deserialize_loop (List.length vs + k) (data ++ rest) values
      = deserialize_loop k rest (values ++ vs).
Proof.
  induction 1 as [|v vs Hv _ IH].
  - exists []. repeat split; auto. intros k rest values. rewrite app_nil_r. reflexivity.
  - destruct IH as (data & E & L & D).
    destruct (serialize_value_scalar v Hv) as (b & Eb & Lb & Db).
    exists (b ++ data). split; [|split].
    + cbn [serialize_values]. rewrite Eb, E. reflexivity.
    + rewrite length_app. cbn [List.length]. lia.
    + intros k rest values. cbn [List.length plus]. rewrite <- app_assoc.
      rewrite Db, D, <- app_assoc. reflexivity.
Qed.

(** The part of C1 that holds: a tuple of constants and integers of the
    eight integer classes is decoded to itself; this covers 0, 255, 256,
    65535, 65536, 2^31 - 1, 2^31, 2^63 - 1 and their opposites. *)
Lemma roundtrip_scalars (vs : list value) :
  Forall codec_scalar vs -> roundtrip vs = Some (Ok vs).
Proof.
  intros H. destruct (serialize_values_scalars vs H) as (data & E & L & D).
  unfold roundtrip, deserialize_values. rewrite E.
  replace (List.length data) with (List.length vs + (List.length data - List.length vs))%nat
    by lia.
  rewrite <- (app_nil_r data) at 2. rewrite D, deserialize_loop_nil. reflexivity.
Qed.

Example roundtrip_boundaries :
  roundtrip (map VInt [0; 255; 256; 65535; 65536; 2 ^ 31 - 1; 2 ^ 31; 2 ^ 63 - 1;
                       -1; -255; -256; -257; -65535; -65536; - 2 ^ 31; - 2 ^ 63])
  = Some (Ok (map VInt [0; 255; 256; 65535; 65536; 2 ^ 31 - 1; 2 ^ 31; 2 ^ 63 - 1;
                        -1; -255; -256; -257; -65535; -65536; - 2 ^ 31; - 2 ^ 63])).
Proof. vm_compute. reflexivity. Qed.

(** ** The fuel of the model is enough *)

Lemma deserialize_loop_answers (fuel : nat) :
  forall (data : bytes) (values : list value),
    (List.length data <= fuel)%nat ->
    exists r : result (list value), deserialize_loop fuel data values = Some r.
Proof.
  induction fuel as [|fuel IH]; intros data values Hlen.
  - destruct data; [|cbn [List.length] in Hlen; lia].
    eexists. reflexivity.
  - destruct data as [|data_type data]; [eexists; reflexivity|].
    cbn [deserialize_loop List.length] in *.
    destruct (nth_error VALUE_SERIALIZERS (Z.to_nat (Z_of_byte data_type))) as [s|];
      [|eexists; reflexivity].
    destruct (deserialize s data) as [[consumed v]|e]; [|eexists; reflexivity].
    apply IH. destruct (Nat.eqb consumed 0); [lia|].
    rewrite length_skipn. lia.
Qed.

Lemma deserialize_values_answers (data : bytes) :
  exists r : result (list value), deserialize_values data = Some r.
Proof.
  apply deserialize_loop_answers. apply le_n.
Qed.

Lemma serialize_values_answers (values : list value) :
  exists r : result bytes, serialize_values values = Some r.
Proof.
  induction values as [|v values IH]; cbn [serialize_values].
  - eexists. reflexivity.
  - destruct (serialize_value_answers v 0) as (r & E & _). rewrite E.
    destruct r as [b|e]; [|eexists; reflexivity].
    destruct IH as (r' & E'). rewrite E'.
    destruct r'; eexists; reflexivity.
Qed.

Lemma roundtrip_answers (values : list value) :
  exists r : result (list value), roundtrip values = Some r.
Proof.
  unfold roundtrip. destruct (serialize_values_answers values) as ([data|e] & E);
    rewrite E.
  - apply deserialize_values_answers.
  - eexists. reflexivity.
Qed.

(** * Further properties of the codec *)

Lemma utf8_encode_ascii (s : pystr) :
  ascii_text s -> utf8_encode s = Ok (ascii_bytes s).
Proof.
  induction 1 as [|c s Hc _ IH]; [reflexivity|].
  cbn [utf8_encode ascii_bytes map]. unfold utf8_encode_char.
  destruct (Z.ltb_spec (Z.of_N c) 128); [|lia].
  cbn [bind]. rewrite IH. reflexivity.
Qed.

Lemma utf8_decode_ascii (s : pystr) :
  ascii_text s -> utf8_decode (ascii_bytes s) = Ok s.
Proof.
  induction 1 as [|c s Hc _ IH]; [reflexivity|].
  cbn [ascii_bytes map utf8_decode]. rewrite Z_of_byte_of_Z.
  rewrite Z.mod_small by lia.
  destruct (Z.ltb_spec (Z.of_N c) 128); [|lia].
  fold (ascii_bytes s). rewrite IH. cbn [bind]. rewrite N2Z.id. reflexivity.
Qed.

Lemma ascii_bytes_length (s : pystr) : List.length (ascii_bytes s) = List.length s.
Proof. apply length_map. Qed.

Lemma serialize_first_bytes (b : bytes) :
  serialize_first 0 VALUE_SERIALIZERS (VBytes b)
  = Some (t <- struct_pack FB 5 ;; p <- serialize_bytes b ;; Ok (t ++ p)).
Proof. reflexivity. Qed.

Lemma struct_pack_ok (f : fmt) (x : Z) :
  0 <= x < 256 ^ Z.of_nat (calcsize f) ->
  struct_pack f x = Ok (be_encode (calcsize f) x).
Proof.
  intros H. unfold struct_pack.
  destruct (Z.leb_spec 0 x); [|lia].
  destruct (Z.ltb_spec x (256 ^ Z.of_nat (calcsize f))); [|lia]. reflexivity.
Qed.

Lemma struct_unpack_encoded (f : fmt) (x : Z) (rest : bytes) :
  0 <= x < 256 ^ Z.of_nat (calcsize f) ->
  struct_unpack f (firstn (calcsize f) (be_encode (calcsize f) x ++ rest)) = Ok x.
Proof.
  intros H. unfold struct_unpack.
  rewrite firstn_app, be_encode_length, Nat.sub_diag, firstn_O, app_nil_r.
  rewrite firstn_all2 by (rewrite be_encode_length; lia).
  rewrite be_encode_length, Nat.eqb_refl, be_decode_encode_small by exact H.
  reflexivity.
Qed.

Lemma len_nonneg {A} (l : list A) : 0 <= len l.
Proof. unfold len. lia. Qed.

(** A short ASCII string at the end of the buffer is read back. *)
Lemma short_string_last (s : pystr) :
  ascii_text s -> len s < 256 ->
  serialize_value serialize_value_fuel (VStr s)
  = Some (Ok (x03 :: byte_of_Z (len s) :: ascii_bytes s)) /\
  forall (fuel : nat) (values : list value),
    deserialize_loop (S fuel) (x03 :: byte_of_Z (len s) :: ascii_bytes s) values
    = Some (Ok (values ++ [VStr s])).
Proof.
  intros Ha Hl. pose proof (len_nonneg s) as H0. split.
  - unfold serialize_value_fuel. rewrite serialize_value_succ, serialize_first_str.
    destruct (Z.ltb_spec (len s) 256); [|lia].
    unfold serialize_short_string.
    rewrite (struct_pack_ok FB (len s)) by (cbn; lia).
    rewrite utf8_encode_ascii by exact Ha. reflexivity.
  - intros fuel values.
    change (deserialize_loop (S fuel) (x03 :: byte_of_Z (len s) :: ascii_bytes s) values)
      with (match deserialize_short_string (byte_of_Z (len s) :: ascii_bytes s) with
            | Raise e => Some (Raise e)
            | Ok (consumed, v) =>
                deserialize_loop fuel
                  (if Nat.eqb consumed 0 then byte_of_Z (len s) :: ascii_bytes s
                   else skipn consumed (byte_of_Z (len s) :: ascii_bytes s))
                  (values ++ [v])
            end).
    unfold deserialize_short_string. cbn [skipn].
    rewrite utf8_decode_ascii by exact Ha. cbn [bind].
    rewrite Z_of_byte_of_Z, Z.mod_small by lia.
    unfold len. rewrite Nat2Z.id. rewrite Nat.add_1_r. cbn [Nat.eqb skipn].
    rewrite skipn_all2 by (rewrite ascii_bytes_length; lia).
    apply deserialize_loop_nil.
Qed.

(** A long ASCII string at the end of the buffer is read back. *)
Lemma long_string_last (s : pystr) :
  ascii_text s -> 256 <= len s <= 65535 + 256 ->
  serialize_value serialize_value_fuel (VStr s)
  = Some (Ok (x04 :: be_encode 2 (len s - 256) ++ ascii_bytes s)) /\
  forall (fuel : nat) (values : list value),
    deserialize_loop (S fuel) (x04 :: be_encode 2 (len s - 256) ++ ascii_bytes s) values
    = Some (Ok (values ++ [VStr s])).
Proof.
  intros Ha Hl. split.
  - unfold serialize_value_fuel. rewrite serialize_value_succ, serialize_first_str.
    destruct (Z.ltb_spec (len s) 256); [lia|].
    destruct (Z.ltb_spec (65535 + 256) (len s)); [lia|].
    unfold serialize_long_string.
    rewrite (struct_pack_ok FH (len s - 256)) by (cbn; lia).
    rewrite utf8_encode_ascii by exact Ha. reflexivity.
  - intros fuel values.
    change (deserialize_loop (S fuel)
              (x04 :: be_encode 2 (len s - 256) ++ ascii_bytes s) values)
      with (match deserialize_long_string (be_encode 2 (len s - 256) ++ ascii_bytes s) with
            | Raise e => Some (Raise e)
            | Ok (consumed, v) =>
                deserialize_loop fuel
                  (if Nat.eqb consumed 0 then be_encode 2 (len s - 256) ++ ascii_bytes s
                   else skipn consumed (be_encode 2 (len s - 256) ++ ascii_bytes s))
                  (values ++ [v])
            end).
    unfold deserialize_long_string.
    rewrite (struct_unpack_encoded FH (len s - 256)) by (cbn; lia). cbn [bind].
    rewrite (skipn_encoded 2), utf8_decode_ascii by exact Ha. cbn [bind].
    replace (Z.to_nat (len s - 256) + 256 + 2)%nat with (S (S (List.length s)))
      by (unfold len in *; lia).
    cbn [Nat.eqb].
    rewrite skipn_all2 by (rewrite length_app, be_encode_length, ascii_bytes_length; lia).
    apply deserialize_loop_nil.
Qed.

(** A bytes object at the end of the buffer is read back. *)
Lemma bytes_last (b : bytes) :
  len b <= 65535 ->
  serialize_value serialize_value_fuel (VBytes b)
  = Some (Ok (x05 :: be_encode 2 (len b) ++ b)) /\
  forall (fuel : nat) (values : list value),
    deserialize_loop (S fuel) (x05 :: be_encode 2 (len b) ++ b) values
    = Some (Ok (values ++ [VBytes b])).
Proof.
  intros Hl. pose proof (len_nonneg b) as H0. split.
  - unfold serialize_value_fuel. rewrite serialize_value_succ, serialize_first_bytes.
    unfold serialize_bytes.
    destruct (Z.ltb_spec 65535 (len b)); [lia|].
    rewrite (struct_pack_ok FH (len b)) by (cbn; lia). reflexivity.
  - intros fuel values.
    change (deserialize_loop (S fuel) (x05 :: be_encode 2 (len b) ++ b) values)
      with (match deserialize_bytes (be_encode 2 (len b) ++ b) with
            | Raise e => Some (Raise e)
            | Ok (consumed, v) =>
                deserialize_loop fuel
                  (if Nat.eqb consumed 0 then be_encode 2 (len b) ++ b
                   else skipn consumed (be_encode 2 (len b) ++ b))
                  (values ++ [v])
            end).
    unfold deserialize_bytes.
    rewrite (struct_unpack_encoded FH (len b)) by (cbn; lia). cbn [bind].
    rewrite (skipn_encoded 2).
    replace (Z.to_nat (len b) + 2)%nat with (S (S (List.length b)))
      by (unfold len in *; lia).
    cbn [Nat.eqb].
    rewrite skipn_all2 by (rewrite length_app, be_encode_length; lia).
    apply deserialize_loop_nil.
Qed.

(** X1.  A non-negative integer [v] below [cap 3] belongs to exactly the
    class [c] with [bias c <= v < cap c], the first class whose range
    reaches it; [serialize_value] writes the tag [6 + 2c] and the
    big-endian digits of [v - bias c] on [width c] bytes, so the encoding
    has [1 + width c] bytes, and [deserialize_values] reads [v] back. *)
Theorem positive_integer_class (v : Z) :
  0 <= v -> v < cap 3 ->
  exists c : nat,
    (c < 4)%nat /\
    bias c <= v < cap c /\
    (forall c' : nat, (c' < c)%nat -> ~ v < cap c') /\
    serialize_value serialize_value_fuel (VInt v)
    = Some (Ok (byte_of_Z (positive_tag c) :: be_encode (width c) (v - bias c))) /\
    encoded_size (VInt v) = Some (1 + Z.of_nat (width c)) /\
    deserialize_values (byte_of_Z (positive_tag c) :: be_encode (width c) (v - bias c))
    = Some (Ok [VInt v]).
Proof.
  intros Hv Hm.
  destruct (class_of_magnitude v) as (c & Hc & Hr); [lia|].
  assert (Hp : 0 <= v - bias c < 256 ^ Z.of_nat (width c))
    by (rewrite <- cap_minus_bias; lia).
  assert (E : serialize_value serialize_value_fuel (VInt v)
              = Some (Ok (byte_of_Z (positive_tag c) :: be_encode (width c) (v - bias c)))).
  { unfold serialize_value_fuel. cbn [serialize_value].
    rewrite (serialize_first_positive c v Hc Hr). reflexivity. }
  exists c. split; [exact Hc|]. split; [exact Hr|]. split; [|split; [exact E|split]].
  - intros c' Hlt. pose proof (cap_below_bias c c' Hlt Hc). lia.
  - unfold encoded_size. rewrite E. unfold len. cbn [List.length].
    rewrite be_encode_length. f_equal. lia.
  - unfold deserialize_values. cbn [List.length].
    pose proof (deserialize_loop_positive c (v - bias c) []
                  (List.length (be_encode (width c) (v - bias c))) [] Hc Hp) as L.
    rewrite app_nil_r in L. rewrite L, deserialize_loop_nil. cbn [app].
    replace (v - bias c + bias c) with v by lia. reflexivity.
Qed.

Lemma positive_integer_class_witness :
  exists c : nat,
    (c < 4)%nat /\
    bias c <= 65536 < cap c /\
    (forall c' : nat, (c' < c)%nat -> ~ 65536 < cap c') /\
    serialize_value serialize_value_fuel (VInt 65536)
    = Some (Ok (byte_of_Z (positive_tag c) :: be_encode (width c) (65536 - bias c))) /\
    encoded_size (VInt 65536) = Some (1 + Z.of_nat (width c)) /\
    deserialize_values (byte_of_Z (positive_tag c) :: be_encode (width c) (65536 - bias c))
    = Some (Ok [VInt 65536]).
Proof.
  apply (positive_integer_class 65536); [lia | reflexivity].
Defined.

Lemma serialize_values_snoc (vs : list value) (v : value) (d1 d2 : bytes) :
  serialize_values vs = Some (Ok d1) ->
  serialize_value serialize_value_fuel v = Some (Ok d2) ->
  serialize_values (vs ++ [v]) = Some (Ok (d1 ++ d2)).
Proof.
  revert d1. induction vs as [|x vs IH]; intros d1 E1 E2.
  - inversion E1; subst. cbn [app serialize_values]. rewrite E2, app_nil_r. reflexivity.
  - cbn [app serialize_values] in *.
    destruct (serialize_value serialize_value_fuel x) as [[b|e]|]; try discriminate E1.
    destruct (serialize_values vs) as [[bs|e]|]; try discriminate E1.
    inversion E1; subst. rewrite (IH bs eq_refl E2), app_assoc. reflexivity.
Qed.

Lemma serialize_value_last (v : value) :
  codec_last v ->
  exists b : bytes,
    serialize_value serialize_value_fuel v = Some (Ok b) /\
    (0 < List.length b)%nat /\
    forall (fuel : nat) (values : list value),
      deserialize_loop (S fuel) b values = Some (Ok (values ++ [v])).
Proof.
  intros H.
  assert (Scalar : codec_scalar v ->
    exists b : bytes,
      serialize_value serialize_value_fuel v = Some (Ok b) /\
      (0 < List.length b)%nat /\
      forall (fuel : nat) (values : list value),
        deserialize_loop (S fuel) b values = Some (Ok (values ++ [v]))).
  { intros Hs. destruct (serialize_value_scalar v Hs) as (b & E & L & D).
    exists b. split; [exact E|]. split; [exact L|].
    intros fuel values. rewrite <- (app_nil_r b), D. apply deserialize_loop_nil. }
  destruct v as [|b|s|b|z|x t|t]; cbn [codec_last] in H; try (apply Scalar; exact H).
  - destruct H as (Ha & Hl). destruct (Z.ltb_spec (len s) 256) as [Hs|Hs].
    + destruct (short_string_last s Ha Hs) as (E & D).
      eexists. split; [exact E|]. split; [cbn [List.length]; lia|exact D].
    + destruct (long_string_last s Ha (conj Hs Hl)) as (E & D).
      eexists. split; [exact E|]. split; [cbn [List.length]; lia|exact D].
  - destruct (bytes_last b H) as (E & D).
    eexists. split; [exact E|]. split; [cbn [List.length]; lia|exact D].
Qed.

(** X2.  A tuple of constants and integers of the eight classes, ended by
    one more such value, by an ASCII string of at most 65535 + 256
    characters or by a bytes object of at most 65535 bytes, is decoded to
    itself by [deserialize_values] after [serialize_values]. *)
Theorem roundtrip_scalars_then_last (vs : list value) (v : value) :
  Forall codec_scalar vs -> codec_last v ->
  roundtrip (vs ++ [v]) = Some (Ok (vs ++ [v])).
Proof.
  intros Hs Hv.
  destruct (serialize_values_scalars vs Hs) as (d1 & E1 & L1 & D1).
  destruct (serialize_value_last v Hv) as (d2 & E2 & L2 & D2).
  unfold roundtrip, deserialize_values.
  rewrite (serialize_values_snoc vs v d1 d2 E1 E2).
  rewrite length_app.
  replace (List.length d1 + List.length d2)%nat
    with (List.length vs + S (List.length d1 - List.length vs + (List.length d2 - 1)))%nat
    by lia.
  rewrite D1, D2. reflexivity.
Qed.

Lemma roundtrip_scalars_then_last_witness :
  roundtrip ([VNone; VBool true; VInt (-257)] ++ [VStr (pystr_of_string "Brno")])
  = Some (Ok ([VNone; VBool true; VInt (-257)] ++ [VStr (pystr_of_string "Brno")])).
Proof.
  apply (roundtrip_scalars_then_last [VNone; VBool true; VInt (-257)]
           (VStr (pystr_of_string "Brno"))).
  - repeat constructor; cbn; lia.
  - split; [repeat constructor; reflexivity | cbn; lia].
Defined.

(** X3.  On the tuples of X2 [serialize_values] is injective: two such
    tuples with the same encoding are equal. *)
Theorem serialize_values_injective (vs1 vs2 : list value) (v1 v2 : value) :
  Forall codec_scalar vs1 -> codec_last v1 ->
  Forall codec_scalar vs2 -> codec_last v2 ->
  serialize_values (vs1 ++ [v1]) = serialize_values (vs2 ++ [v2]) ->
  vs1 ++ [v1] = vs2 ++ [v2].
Proof.
  intros H1 L1 H2 L2 E.
  destruct (serialize_values_scalars vs1 H1) as (d1 & E1 & Len1 & D1).
  destruct (serialize_value_last v1 L1) as (b1 & Eb1 & Lb1 & Db1).
  destruct (serialize_values_scalars vs2 H2) as (d2 & E2 & Len2 & D2).
  destruct (serialize_value_last v2 L2) as (b2 & Eb2 & Lb2 & Db2).
  rewrite (serialize_values_snoc _ _ _ _ E1 Eb1) in E.
  rewrite (serialize_values_snoc _ _ _ _ E2 Eb2) in E.
  assert (R1 : deserialize_values (d1 ++ b1) = Some (Ok (vs1 ++ [v1]))).
  { unfold deserialize_values. rewrite length_app.
    replace (List.length d1 + List.length b1)%nat
      with (List.length vs1 + S (List.length d1 - List.length vs1 + (List.length b1 - 1)))%nat
      by lia.
    rewrite D1, Db1. reflexivity. }
  assert (R2 : deserialize_values (d2 ++ b2) = Some (Ok (vs2 ++ [v2]))).
  { unfold deserialize_values. rewrite length_app.
    replace (List.length d2 + List.length b2)%nat
      with (List.length vs2 + S (List.length d2 - List.length vs2 + (List.length b2 - 1)))%nat
      by lia.
    rewrite D2, Db2. reflexivity. }
  inversion E as [Ed]. rewrite Ed in R1. rewrite R1 in R2. inversion R2. reflexivity.
Qed.

Lemma serialize_values_injective_witness :
  [VInt 1] ++ [VInt 255] = [VInt 1] ++ [VInt 255].
Proof.
  apply (serialize_values_injective [VInt 1] [VInt 1] (VInt 255) (VInt 255)).
  - repeat constructor; cbn; lia.
  - cbn; lia.
  - repeat constructor; cbn; lia.
  - cbn; lia.
  - reflexivity.
Defined.

Lemma serialize_value_too_long (v : value) (msg : string) :
  too_long_error v = Some msg ->
  serialize_value serialize_value_fuel v = Some (Raise (SerializationError msg)).
Proof.
  destruct v as [|b|s|b|z|x t|t]; cbn [too_long_error]; intros H; try discriminate H.
  - destruct (Z.ltb_spec (65535 + 256) (len s)) as [Hl|Hl]; [|discriminate H].
    inversion H; subst.
    unfold serialize_value_fuel. rewrite serialize_value_succ, serialize_first_str.
    destruct (Z.ltb_spec (len s) 256); [lia|].
    destruct (Z.ltb_spec (65535 + 256) (len s)); [reflexivity|lia].
  - destruct (Z.ltb_spec 65535 (len b)) as [Hl|Hl]; [|discriminate H].
    inversion H; subst.
    unfold serialize_value_fuel. rewrite serialize_value_succ, serialize_first_bytes.
    unfold serialize_bytes.
    destruct (Z.ltb_spec 65535 (len b)); [reflexivity|lia].
Qed.

(** X4.  A string of more than 65535 + 256 characters, or a bytes object
    of more than 65535 bytes, makes [serialize_values] raise
    [SerializationError] with the message of its kind, wherever it stands
    after constants and integers; nothing is truncated. *)
Theorem too_long_value_raises (vs rest : list value) (v : value) (msg : string) :
  Forall codec_scalar vs ->
  too_long_error v = Some msg ->
  serialize_values (vs ++ v :: rest) = Some (Raise (SerializationError msg)) /\
  roundtrip (vs ++ v :: rest) = Some (Raise (SerializationError msg)).
Proof.
  intros Hs Hv.
  assert (E : serialize_values (vs ++ v :: rest) = Some (Raise (SerializationError msg))).
  { induction Hs as [|x vs Hx _ IH].
    - cbn [app serialize_values]. rewrite (serialize_value_too_long v msg Hv). reflexivity.
    - cbn [app serialize_values].
      destruct (serialize_value_scalar x Hx) as (b & Eb & _). rewrite Eb, IH. reflexivity. }
  split; [exact E|]. unfold roundtrip. rewrite E. reflexivity.
Qed.

Lemma too_long_value_raises_witness :
  serialize_values ([VInt 7] ++ VBytes (repeat x00 (Z.to_nat 65536)) :: [VNone])
  = Some (Raise (SerializationError "Bytes value too long")) /\
  roundtrip ([VInt 7] ++ VBytes (repeat x00 (Z.to_nat 65536)) :: [VNone])
  = Some (Raise (SerializationError "Bytes value too long")).
Proof.
  apply (too_long_value_raises [VInt 7] [VNone] (VBytes (repeat x00 (Z.to_nat 65536)))).
  - repeat constructor; cbn; lia.
  - vm_compute. reflexivity.
Defined.

(** X5.  A tag byte of 14 or more makes [deserialize_values] raise
    [IndexError], whatever follows it. *)
Theorem unknown_tag_raises (data_type : byte) (rest : bytes) :
  14 <= Z_of_byte data_type ->
  deserialize_values (data_type :: rest) = Some (Raise IndexError).
Proof.
  intros H. unfold deserialize_values. cbn [List.length deserialize_loop].
  assert (E : nth_error VALUE_SERIALIZERS (Z.to_nat (Z_of_byte data_type)) = None).
  { apply nth_error_None. cbn [List.length VALUE_SERIALIZERS]. lia. }
  rewrite E. reflexivity.
Qed.

Lemma unknown_tag_raises_witness :
  deserialize_values (x0e :: [x00; x01]) = Some (Raise IndexError).
Proof.
  apply (unknown_tag_raises x0e [x00; x01]). vm_compute. discriminate.
Defined.

(** X6.  An integer tag followed by fewer bytes than the width of its
    class makes [deserialize_values] raise [struct.error]: a truncated
    integer is not read as a shorter one. *)
Theorem truncated_integer_raises (c : nat) (negative : bool) (payload : bytes) :
  (c < 4)%nat ->
  (List.length payload < width c)%nat ->
  deserialize_values
    (byte_of_Z (if negative then negative_tag c else positive_tag c) :: payload)
  = Some (Raise StructError).
Proof.
  intros Hc Hl. unfold deserialize_values. cbn [List.length deserialize_loop].
  assert (U : struct_unpack (nth c formats FB) (firstn (width c) payload)
              = Raise StructError).
  { unfold struct_unpack. rewrite firstn_all2 by lia.
    rewrite (width_calcsize c Hc).
    destruct (Nat.eqb_spec (List.length payload) (width c)); [lia|reflexivity]. }
  destruct negative.
  - assert (E : nth_error VALUE_SERIALIZERS
                  (Z.to_nat (Z_of_byte (byte_of_Z (negative_tag c))))
                = Some (integer_serializer (- Z.of_nat (S c)))).
    { destruct c as [|[|[|[|c]]]]; try reflexivity. lia. }
    rewrite E, (negative_deserialize c) by exact Hc. rewrite U. reflexivity.
  - assert (E : nth_error VALUE_SERIALIZERS
                  (Z.to_nat (Z_of_byte (byte_of_Z (positive_tag c))))
                = Some (integer_serializer (Z.of_nat (S c)))).
    { destruct c as [|[|[|[|c]]]]; try reflexivity. lia. }
    rewrite E, (positive_deserialize c) by exact Hc. rewrite U. reflexivity.
Qed.

Lemma truncated_integer_raises_witness :
  deserialize_values (byte_of_Z (if false then negative_tag 2 else positive_tag 2)
                      :: [x00; x01; x02])
  = Some (Raise StructError).
Proof.
  apply (truncated_integer_raises 2 false [x00; x01; x02]); cbn; lia.
Defined.

Lemma deserialize_loop_more_fuel (fuel n : nat) :
  forall (data : bytes) (values : list value) (r : result (list value)),
    deserialize_loop fuel data values = Some r ->
    deserialize_loop (fuel + n) data values = Some r.
Proof.
  induction fuel as [|fuel IH]; intros data values r E.
  - destruct data; [|discriminate E]. rewrite deserialize_loop_nil. exact E.
  - destruct data as [|data_type data]; [exact E|].
    cbn [plus deserialize_loop] in *.
    destruct (nth_error VALUE_SERIALIZERS (Z.to_nat (Z_of_byte data_type))) as [s0|];
      [|exact E].
    destruct (deserialize s0 data) as [[consumed v]|e]; [|exact E].
    apply IH. exact E.
Qed.

(** X7.  The loop of [deserialize_values] ends on every byte string, with
    a list or an exception: each turn removes the tag byte, also for the
    constants, whose deserializers consume nothing; [len(data)] turns are
    enough and more turns change nothing. *)
Theorem deserialize_values_terminates (data : bytes) :
  exists r : result (list value),
    deserialize_values data = Some r /\
    forall n : nat, deserialize_loop (List.length data + n) data [] = Some r.
Proof.
  destruct (deserialize_values_answers data) as (r & E).
  exists r. split; [exact E|].
  intros n. apply deserialize_loop_more_fuel. exact E.
Qed.

(** ** Where the round trip is lost *)

Lemma deserialize_loop_extends (fuel : nat) :
  forall (data : bytes) (values l : list value),
    deserialize_loop fuel data values = Some (Ok l) ->
    exists more : list value, l = values ++ more /\ (data <> [] -> more <> []).
Proof.
  induction fuel as [|fuel IH]; intros data values l E.
  - destruct data; [|discriminate E]. inversion E; subst.
    exists []. split; [symmetry; apply app_nil_r|intros H; contradiction].
  - destruct data as [|data_type data].
    + inversion E; subst.
      exists []. split; [symmetry; apply app_nil_r|intros H; contradiction].
    + cbn [deserialize_loop] in E.
      destruct (nth_error VALUE_SERIALIZERS (Z.to_nat (Z_of_byte data_type))) as [s0|];
        [|discriminate E].
      destruct (deserialize s0 data) as [[consumed v]|e]; [|discriminate E].
      destruct (IH _ _ _ E) as (more & -> & _).
      exists (v :: more). split.
      * rewrite <- app_assoc. reflexivity.
      * intros _. discriminate.
Qed.

Lemma serialize_first_nonempty (ss : list serializer) :
  forall (i : Z) (v : value) (b : bytes),
    serialize_first i ss v = Some (Ok b) -> b <> [].
Proof.
  induction ss as [|s0 ss IH]; intros i v b E; [discriminate E|].
  cbn [serialize_first] in E.
  destruct (checker s0 v) as [[|]|e]; try discriminate E.
  - unfold struct_pack in E.
    destruct ((0 <=? i) && (i <? 256 ^ Z.of_nat (calcsize FB))); [|discriminate E].
    cbn [bind calcsize be_encode app] in E.
    destruct (serialize s0 v) as [p0|e]; [|discriminate E].
    cbn [bind app] in E. inversion E. discriminate.
  - apply (IH _ _ _ E).
Qed.

Lemma serialize_value_nonempty (fuel : nat) :
  forall (v : value) (b : bytes), serialize_value fuel v = Some (Ok b) -> b <> [].
Proof.
  induction fuel as [|fuel IH]; intros v b E; [discriminate E|].
  rewrite serialize_value_succ in E.
  destruct (serialize_first 0 VALUE_SERIALIZERS v) as [r|] eqn:F.
  - inversion E; subst. apply (serialize_first_nonempty _ _ _ _ F).
  - apply (IH _ _ E).
Qed.

Lemma serialize_values_nonempty (vs : list value) (d : bytes) :
  vs <> [] -> serialize_values vs = Some (Ok d) -> d <> [].
Proof.
  destruct vs as [|v vs]; [intros H; contradiction|]. intros _ E.
  cbn [serialize_values] in E.
  destruct (serialize_value serialize_value_fuel v) as [[b|e]|] eqn:Eb; try discriminate E.
  destruct (serialize_values vs) as [[bs|e]|]; try discriminate E.
  inversion E; subst. pose proof (serialize_value_nonempty _ _ _ Eb) as Hb.
  destruct b; [contradiction|discriminate].
Qed.

Lemma utf8_decode_ascii_app (s : pystr) (more : bytes) :
  ascii_text s ->
  utf8_decode (ascii_bytes s ++ more) = (t <- utf8_decode more ;; Ok (s ++ t)).
Proof.
  induction 1 as [|c s Hc _ IH].
  - cbn [ascii_bytes map app]. destruct (utf8_decode more); reflexivity.
  - cbn [ascii_bytes map app utf8_decode]. rewrite Z_of_byte_of_Z.
    rewrite Z.mod_small by lia.
    destruct (Z.ltb_spec (Z.of_N c) 128); [|lia].
    fold (ascii_bytes s). rewrite IH.
    destruct (utf8_decode more); cbn [bind]; [rewrite N2Z.id|]; reflexivity.
Qed.

Lemma utf8_decode_nonempty (b : byte) (v : bytes) (t : pystr) :
  utf8_decode (b :: v) = Ok t -> t <> [].
Proof.
  cbn [utf8_decode]. intros H.
  repeat match type of H with
         | context [if ?c then _ else _] => destruct c
         | context [match ?l with [] => _ | _ :: _ => _ end] => destruct l
         | context [bind ?x _] => destruct x; cbn [bind] in H
         end;
    try discriminate H; inversion H; discriminate.
Qed.

Lemma serialize_string_ascii (s : pystr) :
  ascii_text s -> len s <= 65535 + 256 ->
  exists header : bytes,
    header <> [] /\
    serialize_value serialize_value_fuel (VStr s) = Some (Ok (header ++ ascii_bytes s)) /\
    forall (more : bytes) (fuel : nat) (values : list value) (l : list value),
      deserialize_loop (S fuel) (header ++ ascii_bytes s ++ more) values = Some (Ok l) ->
      exists (t : pystr) (rest : list value),
        utf8_decode more = Ok t /\ l = values ++ VStr (s ++ t) :: rest.
Proof.
  intros Ha Hl. destruct (Z.ltb_spec (len s) 256) as [Hs|Hs].
  - exists [x03; byte_of_Z (len s)]. split; [discriminate|].
    split; [apply (short_string_last s Ha Hs)|].
    intros more fuel values l E.
    change (deserialize_loop (S fuel) ([x03; byte_of_Z (len s)] ++ ascii_bytes s ++ more) values)
      with (match deserialize_short_string (byte_of_Z (len s) :: ascii_bytes s ++ more) with
            | Raise e => Some (Raise e)
            | Ok (consumed, v) =>
                deserialize_loop fuel
                  (if Nat.eqb consumed 0 then byte_of_Z (len s) :: ascii_bytes s ++ more
                   else skipn consumed (byte_of_Z (len s) :: ascii_bytes s ++ more))
                  (values ++ [v])
            end) in E.
    unfold deserialize_short_string in E. cbn [skipn] in E.
    rewrite utf8_decode_ascii_app in E by exact Ha.
    destruct (utf8_decode more) as [t|e]; cbn [bind] in E; [|discriminate E].
    destruct (deserialize_loop_extends _ _ _ _ E) as (rest & -> & _).
    exists t, rest. split; [reflexivity|]. rewrite <- app_assoc. reflexivity.
  - exists (x04 :: be_encode 2 (len s - 256)). split; [discriminate|].
    split; [apply (long_string_last s Ha (conj Hs Hl))|].
    intros more fuel values l E.
    change (deserialize_loop (S fuel)
              ((x04 :: be_encode 2 (len s - 256)) ++ ascii_bytes s ++ more) values)
      with (match deserialize_long_string
                    (be_encode 2 (len s - 256) ++ ascii_bytes s ++ more) with
            | Raise e => Some (Raise e)
            | Ok (consumed, v) =>
                deserialize_loop fuel
                  (if Nat.eqb consumed 0
                   then be_encode 2 (len s - 256) ++ ascii_bytes s ++ more
                   else skipn consumed (be_encode 2 (len s - 256) ++ ascii_bytes s ++ more))
                  (values ++ [v])
            end) in E.
    unfold deserialize_long_string in E.
    rewrite (struct_unpack_encoded FH (len s - 256)) in E by (cbn; lia).
    cbn [bind] in E. rewrite (skipn_encoded 2), utf8_decode_ascii_app in E by exact Ha.
    destruct (utf8_decode more) as [t|e]; cbn [bind] in E; [|discriminate E].
    destruct (deserialize_loop_extends _ _ _ _ E) as (rest & -> & _).
    exists t, rest. split; [reflexivity|]. rewrite <- app_assoc. reflexivity.
Qed.

(** X8.  An ASCII string within the length limit that is not the last
    value of the tuple is never read back: [deserialize_short_string] and
    [deserialize_long_string] decode the whole rest of the buffer, so the
    value read is the string followed by the text of the values after it,
    or the decoding raises. *)
Theorem string_before_values_is_lost (s : pystr) (rest : list value) :
  ascii_text s -> len s <= 65535 + 256 -> rest <> [] ->
  roundtrip (VStr s :: rest) <> Some (Ok (VStr s :: rest)).
Proof.
  intros Ha Hl Hrest R.
  destruct (serialize_string_ascii s Ha Hl) as (header & Hh & E & D).
  unfold roundtrip in R. cbn [serialize_values] in R. rewrite E in R.
  destruct (serialize_values rest) as [[drest|e]|] eqn:Er; try discriminate R.
  pose proof (serialize_values_nonempty rest drest Hrest Er) as Hne.
  unfold deserialize_values in R.
  destruct header as [|h0 h1]; [contradiction|].
  rewrite <- app_assoc in R. cbn [app List.length] in R.
  destruct (D drest _ [] _ R) as (t & more & Ht & El).
  cbn [app] in El. inversion El as [[Es Em]].
  assert (t = []) by (apply (app_inv_head s); rewrite app_nil_r; symmetry; exact Es).
  subst t. destruct drest as [|b0 d0]; [contradiction|].
  apply (utf8_decode_nonempty _ _ _ Ht). reflexivity.
Qed.

Lemma string_before_values_is_lost_witness :
  roundtrip (VStr (pystr_of_string "a") :: [VInt 1])
  <> Some (Ok (VStr (pystr_of_string "a") :: [VInt 1])).
Proof.
  apply (string_before_values_is_lost (pystr_of_string "a") [VInt 1]).
  - repeat constructor.
  - cbn. lia.
  - discriminate.
Defined.

Lemma utf8_encode_char_length (c : N) (b : bytes) :
  utf8_encode_char c = Ok b ->
  (1 <= List.length b)%nat /\ ((128 <= c)%N -> (2 <= List.length b)%nat).
Proof.
  unfold utf8_encode_char. intros H.
  destruct (Z.ltb_spec (Z.of_N c) 128).
  - inversion H; subst. cbn [List.length]. split; lia.
  - destruct (Z.of_N c <? 2048).
    + inversion H; subst. cbn [List.length]. split; lia.
    + destruct (Z.of_N c <? 65536).
      * destruct ((55296 <=? Z.of_N c) && (Z.of_N c <? 57344)); [discriminate H|].
        inversion H; subst. cbn [List.length]. split; lia.
      * destruct (Z.of_N c <? 1114112); [|discriminate H].
        inversion H; subst. cbn [List.length]. split; lia.
Qed.

Lemma utf8_encode_length (s : pystr) :
  forall e : bytes,
    utf8_encode s = Ok e ->
    (List.length s <= List.length e)%nat /\
    (Exists (fun c => (128 <= c)%N) s -> (List.length s < List.length e)%nat).
Proof.
  induction s as [|c s IH]; intros e H.
  - inversion H; subst. split; [apply le_n|]. intros X. inversion X.
  - cbn [utf8_encode] in H.
    destruct (utf8_encode_char c) as [b|] eqn:Ec; [|discriminate H].
    destruct (utf8_encode s) as [bs|]; [|discriminate H].
    cbn [bind] in H. inversion H; subst.
    destruct (utf8_encode_char_length c b Ec) as (H1 & H2).
    destruct (IH bs eq_refl) as (L1 & L2).
    rewrite length_app. cbn [List.length]. split; [lia|].
    intros X. inversion X as [? ? Hc|? ? Hs]; subst.
    + specialize (H2 Hc). lia.
    + specialize (L2 Hs). lia.
Qed.

(** X9.  A string within the length limit that holds a character outside
    ASCII is never read back, even alone: the declared length counts
    characters while the buffer holds more bytes, so after the string the
    loop finds bytes left and reads them as further values, or raises. *)
Theorem non_ascii_string_is_lost (s : pystr) :
  Exists (fun c => (128 <= c)%N) s -> len s <= 65535 + 256 ->
  roundtrip [VStr s] <> Some (Ok [VStr s]).
Proof.
  intros Hx Hl R. unfold roundtrip in R. cbn [serialize_values] in R.
  unfold serialize_value_fuel in R. rewrite serialize_value_succ, serialize_first_str in R.
  pose proof (len_nonneg s) as H0.
  assert (Final : forall (fuel : nat) (data : bytes) (text : pystr),
             data <> [] ->
             deserialize_loop fuel data ([] ++ [VStr text]) <> Some (Ok [VStr s])).
  { intros fuel data text Hd E.
    destruct (deserialize_loop_extends _ _ _ _ E) as (more & El & Hm).
    specialize (Hm Hd). destruct more; [contradiction|]. discriminate El. }
  destruct (Z.ltb_spec (len s) 256) as [Hs|Hs].
  - unfold serialize_short_string in R.
    rewrite (struct_pack_ok FB (len s)) in R by (cbn; lia). cbn [bind] in R.
    destruct (utf8_encode s) as [e|] eqn:Ee; cbn [bind] in R; [|discriminate R].
    change (struct_pack FB 3) with (Ok [x03] : result bytes) in R.
    change (be_encode (calcsize FB) (len s)) with [byte_of_Z (len s)] in R.
    cbn [bind app] in R. rewrite app_nil_r in R.
    destruct (utf8_encode_length s e Ee) as (_ & Hlen). specialize (Hlen Hx).
    unfold deserialize_values in R. cbn [List.length] in R.
    change (deserialize_loop (S (S (List.length e))) (x03 :: byte_of_Z (len s) :: e) [])
      with (match deserialize_short_string (byte_of_Z (len s) :: e) with
            | Raise x => Some (Raise x)
            | Ok (consumed, v) =>
                deserialize_loop (S (List.length e))
                  (if Nat.eqb consumed 0 then byte_of_Z (len s) :: e
                   else skipn consumed (byte_of_Z (len s) :: e))
                  ([] ++ [v])
            end) in R.
    unfold deserialize_short_string in R. cbn [skipn] in R.
    destruct (utf8_decode e) as [text|]; cbn [bind] in R; [|discriminate R].
    rewrite Z_of_byte_of_Z, Z.mod_small in R by lia.
    unfold len in R. rewrite Nat2Z.id, Nat.add_1_r in R. cbn [Nat.eqb skipn] in R.
    apply (Final _ _ _) in R; [exact R|].
    intros Hn. apply (f_equal (@List.length byte)) in Hn.
    rewrite length_skipn in Hn. cbn [List.length] in Hn. lia.
  - destruct (Z.ltb_spec (65535 + 256) (len s)); [lia|].
    unfold serialize_long_string in R.
    rewrite (struct_pack_ok FH (len s - 256)) in R by (cbn; lia). cbn [bind] in R.
    destruct (utf8_encode s) as [e|] eqn:Ee; cbn [bind] in R; [|discriminate R].
    change (struct_pack FB 4) with (Ok [x04] : result bytes) in R.
    change (calcsize FH) with 2%nat in R.
    cbn [bind app] in R. rewrite app_nil_r in R.
    destruct (utf8_encode_length s e Ee) as (_ & Hlen). specialize (Hlen Hx).
    unfold deserialize_values in R. cbn [List.length] in R.
    change (deserialize_loop (S (List.length (be_encode 2 (len s - 256) ++ e)))
              (x04 :: be_encode 2 (len s - 256) ++ e) [])
      with (match deserialize_long_string (be_encode 2 (len s - 256) ++ e) with
            | Raise x => Some (Raise x)
            | Ok (consumed, v) =>
                deserialize_loop (List.length (be_encode 2 (len s - 256) ++ e))
                  (if Nat.eqb consumed 0 then be_encode 2 (len s - 256) ++ e
                   else skipn consumed (be_encode 2 (len s - 256) ++ e))
                  ([] ++ [v])
            end) in R.
    unfold deserialize_long_string in R.
    rewrite (struct_unpack_encoded FH (len s - 256)) in R by (cbn; lia).
    cbn [bind] in R. rewrite (skipn_encoded 2) in R.
    destruct (utf8_decode e) as [text|]; cbn [bind] in R; [|discriminate R].
    replace (Z.to_nat (len s - 256) + 256 + 2)%nat with (S (S (List.length s))) in R
      by (unfold len in *; lia).
    cbn [Nat.eqb] in R.
    apply (Final _ _ _) in R; [exact R|].
    intros Hn. apply (f_equal (@List.length byte)) in Hn.
    rewrite length_skipn, length_app, be_encode_length in Hn. cbn [List.length] in Hn. lia.
Qed.

Lemma non_ascii_string_is_lost_witness :
  roundtrip [VStr [233%N]] <> Some (Ok [VStr [233%N]]).
Proof.
  apply (non_ascii_string_is_lost [233%N]).
  - constructor. lia.
  - cbn. lia.
Defined.

(** * Further properties of the filter *)

(** ** The keywords of the filter *)

Lemma string_length_append (a b : string) :
  String.length (a ++ b) = (String.length a + String.length b)%nat.
Proof.
  induction a as [|c a IH]; cbn [append String.length]; [reflexivity|].
  rewrite IH. reflexivity.
Qed.

Lemma string_append_assoc (a b c : string) : ((a ++ b) ++ c = a ++ (b ++ c))%string.
Proof.
  induction a as [|x a IH]; cbn [append]; [reflexivity|]. rewrite IH. reflexivity.
Qed.

Lemma substring_full (s : string) : substring 0 (String.length s) s = s.
Proof.
  induction s as [|c s IH]; cbn [String.length substring]; [reflexivity|].
  rewrite IH. reflexivity.
Qed.

Lemma substring_split (s : string) :
  forall a : nat,
    (a <= String.length s)%nat ->
    (substring 0 a s ++ substring a (String.length s - a) s)%string = s.
Proof.
  induction s as [|c s IH]; intros a Ha.
  - cbn [String.length] in Ha. assert (a = 0)%nat by lia. subst. reflexivity.
  - destruct a as [|a].
    + cbn [String.length Nat.sub substring append]. rewrite substring_full. reflexivity.
    + cbn [String.length] in Ha. cbn [String.length Nat.sub substring append].
      rewrite IH by lia. reflexivity.
Qed.

Lemma substring_prefix (p suffix : string) :
  substring 0 (String.length p) (p ++ suffix) = p.
Proof.
  induction p as [|c p IH]; cbn [String.length append substring].
  - destruct suffix; reflexivity.
  - rewrite IH. reflexivity.
Qed.

Lemma substring_suffix (p suffix : string) :
  substring (String.length p) (String.length suffix) (p ++ suffix) = suffix.
Proof.
  induction p as [|c p IH]; cbn [String.length append substring].
  - apply substring_full.
  - exact IH.
Qed.

Lemma strip_suffix_append (suffix p : string) :
  strip_suffix suffix (p ++ suffix) = Some p.
Proof.
  unfold strip_suffix. rewrite string_length_append.
  replace (String.length p + String.length suffix - String.length suffix)%nat
    with (String.length p) by lia.
  rewrite substring_suffix, String.eqb_refl, substring_prefix.
  destruct (Nat.leb_spec (String.length suffix) (String.length p + String.length suffix));
    [reflexivity|lia].
Qed.

Lemma strip_suffix_sound (suffix s p : string) :
  strip_suffix suffix s = Some p -> s = (p ++ suffix)%string.
Proof.
  unfold strip_suffix.
  destruct (Nat.leb_spec (String.length suffix) (String.length s)) as [Hk|Hk];
    [|discriminate].
  destruct (String.eqb_spec
              (substring (String.length s - String.length suffix)
                         (String.length suffix) s) suffix) as [E|E]; [|discriminate].
  cbn [andb]. intros H. inversion H; subst p.
  pose proof (substring_split s (String.length s - String.length suffix)) as S.
  replace (String.length s - (String.length s - String.length suffix))%nat
    with (String.length suffix) in S by lia.
  rewrite E in S. symmetry. apply S. lia.
Qed.

Lemma string_append_inj_right (p1 : string) :
  forall p2 s1 s2 : string,
    String.length s1 = String.length s2 ->
    (p1 ++ s1 = p2 ++ s2)%string -> s1 = s2.
Proof.
  induction p1 as [|c p1 IH]; intros p2 s1 s2 Hl E.
  - cbn [append] in E. destruct p2 as [|c2 p2]; [exact E|].
    apply (f_equal String.length) in E. rewrite string_length_append in E.
    cbn [String.length] in E. lia.
  - destruct p2 as [|c2 p2].
    + cbn [append] in E. apply (f_equal String.length) in E.
      cbn [String.length] in E. rewrite string_length_append in E. lia.
    + cbn [append] in E. inversion E. eapply IH; eassumption.
Qed.

(** Two keywords with the same column and different endings of the same
    length cannot be equal. *)
Lemma suffix_clash (n p a b c d : string) :
  (n ++ (a ++ b) = p ++ (c ++ d))%string ->
  String.length b = String.length d -> b = d.
Proof.
  intros E Hl. rewrite <- !string_append_assoc in E.
  eapply string_append_inj_right; eassumption.
Qed.

Lemma strip_suffix_clash (n key suffix a b c d : string) :
  key = (a ++ b)%string -> suffix = (c ++ d)%string ->
  String.length b = String.length d -> b <> d ->
  strip_suffix suffix (n ++ key) = None.
Proof.
  intros -> -> Hl Hne.
  destruct (strip_suffix (c ++ d) (n ++ (a ++ b))) as [p|] eqn:E; [|reflexivity].
  apply strip_suffix_sound in E. exfalso. apply Hne.
  apply (suffix_clash n p a b c d E Hl).
Qed.

Lemma split_lookup_gte (n : string) : split_lookup (n ++ "__gte") = (n, Gte).
Proof. unfold split_lookup. rewrite strip_suffix_append. reflexivity. Qed.

Lemma split_lookup_gt (n : string) : split_lookup (n ++ "__gt") = (n, Gt_).
Proof.
  unfold split_lookup.
  rewrite (strip_suffix_clash n "__gt" "__gte" "" "__gt" "_" "_gte") by (reflexivity || discriminate).
  rewrite strip_suffix_append. reflexivity.
Qed.

Lemma split_lookup_lte (n : string) : split_lookup (n ++ "__lte") = (n, Lte).
Proof.
  unfold split_lookup.
  rewrite (strip_suffix_clash n "__lte" "__gte" "" "__lte" "" "__gte") by (reflexivity || discriminate).
  rewrite (strip_suffix_clash n "__lte" "__gt" "_" "_lte" "" "__gt") by (reflexivity || discriminate).
  rewrite strip_suffix_append. reflexivity.
Qed.

Lemma split_lookup_lt (n : string) : split_lookup (n ++ "__lt") = (n, Lt_).
Proof.
  unfold split_lookup.
  rewrite (strip_suffix_clash n "__lt" "__gte" "" "__lt" "_" "_gte") by (reflexivity || discriminate).
  rewrite (strip_suffix_clash n "__lt" "__gt" "" "__lt" "" "__gt") by (reflexivity || discriminate).
  rewrite (strip_suffix_clash n "__lt" "__lte" "" "__lt" "_" "_lte") by (reflexivity || discriminate).
  rewrite strip_suffix_append. reflexivity.
Qed.

Lemma split_lookup_isnull (n : string) :
  split_lookup (isnull_lookup n) = (n, IsNull).
Proof.
  unfold split_lookup, isnull_lookup.
  rewrite (strip_suffix_clash n "__isnull" "__gte" "__i" "snull" "" "__gte") by (reflexivity || discriminate).
  rewrite (strip_suffix_clash n "__isnull" "__gt" "__is" "null" "" "__gt") by (reflexivity || discriminate).
  rewrite (strip_suffix_clash n "__isnull" "__lte" "__i" "snull" "" "__lte") by (reflexivity || discriminate).
  rewrite (strip_suffix_clash n "__isnull" "__lt" "__is" "null" "" "__lt") by (reflexivity || discriminate).
  rewrite strip_suffix_append. reflexivity.
Qed.

Lemma eval_leaf_gt (n : string) (v : value) (r : row) :
  eval_leaf (n ++ "__gt") v r = col_gt r n v.
Proof. unfold eval_leaf. rewrite split_lookup_gt. reflexivity. Qed.

Lemma eval_leaf_gte (n : string) (v : value) (r : row) :
  eval_leaf (n ++ "__gte") v r = col_gt r n v || col_eq r n v.
Proof. unfold eval_leaf. rewrite split_lookup_gte. reflexivity. Qed.

Lemma eval_leaf_lt (n : string) (v : value) (r : row) :
  eval_leaf (n ++ "__lt") v r = col_lt r n v.
Proof. unfold eval_leaf. rewrite split_lookup_lt. reflexivity. Qed.

Lemma eval_leaf_lte (n : string) (v : value) (r : row) :
  eval_leaf (n ++ "__lte") v r = col_lt r n v || col_eq r n v.
Proof. unfold eval_leaf. rewrite split_lookup_lte. reflexivity. Qed.

Lemma eval_leaf_isnull (n : string) (b : bool) (r : row) :
  eval_leaf (isnull_lookup n) (VBool b) r
  = if b then col_is_null r n else negb (col_is_null r n).
Proof. unfold eval_leaf. rewrite split_lookup_isnull. destruct b; reflexivity. Qed.

Lemma eval_leaf_plain (n : string) (v : value) (r : row) :
  plain_name n ->
  eval_leaf n v r = if is_null v then col_is_null r n else col_eq r n v.
Proof. intros H. unfold eval_leaf. rewrite H. reflexivity. Qed.

Lemma eval_leaf_pinned (c : OrderBy) (s : value) (r : row) :
  plain_name (expression_name c) ->
  eval_leaf (fst (pinned c s)) (snd (pinned c s)) r = same_in_column c s r.
Proof.
  intros H. unfold pinned, same_in_column.
  destruct (is_null s) eqn:E; cbn [fst snd].
  - apply (eval_leaf_isnull _ true).
  - rewrite (eval_leaf_plain _ _ _ H), E. reflexivity.
Qed.

Lemma key_column_pinned (c : OrderBy) (s : value) :
  plain_name (expression_name c) ->
  key_column (fst (pinned c s)) = expression_name c.
Proof.
  intros H. unfold pinned, key_column.
  destruct (is_null s); cbn [fst].
  - rewrite split_lookup_isnull. reflexivity.
  - rewrite H. reflexivity.
Qed.

(** ** The dict of the prefix *)

Lemma dict_set_fresh (d : dict) (k : string) (v : value) :
  (forall v' : value, ~ In (k, v') d) -> dict_set d k v = d ++ [(k, v)].
Proof.
  induction d as [|[k' v'] d IH]; intros H; cbn [dict_set app]; [reflexivity|].
  destruct (String.eqb_spec k' k) as [->|_].
  - exfalso. apply (H v'). left. reflexivity.
  - rewrite IH; [reflexivity|]. intros v0 Hin. apply (H v0). right. exact Hin.
Qed.

Lemma dict_set_last (d : dict) (k : string) (v0 v : value) :
  (forall v' : value, ~ In (k, v') d) ->
  dict_set (d ++ [(k, v0)]) k v = d ++ [(k, v)].
Proof.
  induction d as [|[k' v'] d IH]; intros H; cbn [dict_set app].
  - rewrite String.eqb_refl. reflexivity.
  - destruct (String.eqb_spec k' k) as [->|_].
    + exfalso. apply (H v'). left. reflexivity.
    + rewrite IH; [reflexivity|]. intros v1 Hin. apply (H v1). right. exact Hin.
Qed.

Lemma dict_pop_last (d : dict) (k : string) (v : value) :
  (forall v' : value, ~ In (k, v') d) -> dict_pop (d ++ [(k, v)]) k = d.
Proof.
  induction d as [|[k' v'] d IH]; intros H; cbn [dict_pop app].
  - rewrite String.eqb_refl. reflexivity.
  - destruct (String.eqb_spec k' k) as [->|_].
    + exfalso. apply (H v'). left. reflexivity.
    + rewrite IH; [reflexivity|]. intros v1 Hin. apply (H v1). right. exact Hin.
Qed.

Lemma eval_Q_kwargs (d : dict) (r : row) : eval (Q_kwargs d) r = prefix_holds d r.
Proof.
  induction d as [|[k v] d IH]; [reflexivity|].
  destruct d as [|kv d'].
  - cbn [Q_kwargs eval prefix_holds forallb fst snd]. rewrite andb_true_r. reflexivity.
  - change (Q_kwargs ((k, v) :: kv :: d')) with (QAnd (QLeaf k v) (Q_kwargs (kv :: d'))).
    cbn [eval]. rewrite IH. reflexivity.
Qed.

Lemma q_bool_Q_kwargs (d : dict) : q_bool (Q_kwargs d) = negb (no_more d).
Proof. destruct d as [|[k v] [|kv d]]; reflexivity. Qed.

Lemma prefix_holds_app (d : dict) (k : string) (v : value) (r : row) :
  prefix_holds (d ++ [(k, v)]) r = prefix_holds d r && eval_leaf k v r.
Proof.
  unfold prefix_holds. rewrite forallb_app. cbn [forallb fst snd].
  rewrite andb_true_r. reflexivity.
Qed.

Lemma some_branch_Q_kwargs_app (d : dict) (k : string) (v : value) (r : row) :
  some_branch (Q_kwargs (d ++ [(k, v)])) r = prefix_holds d r && eval_leaf k v r.
Proof.
  unfold some_branch. rewrite q_bool_Q_kwargs, eval_Q_kwargs, prefix_holds_app.
  destruct d; reflexivity.
Qed.

Lemma eval_q_and (a b : Q) (r : row) : eval (q_and a b) r = eval a r && eval b r.
Proof.
  unfold q_and. destruct a, b; cbn [q_bool negb eval andb];
    rewrite ?andb_true_r; reflexivity.
Qed.

(** ** One turn of the loop *)

Lemma loop_body_not_null (n i : Z) (c : OrderBy) (v : value) (st : loop_state) :
  is_null v = false ->
  loop_body n i c v st
  = let field_name := expression_name c in
    let fc := filter_combinations st in
    let direction := if descending c then "lt"%string else "gt"%string in
    let direction := if i =? n - 1 then (direction ++ "e")%string else direction in
    let field_lookup := (field_name ++ "__" ++ direction)%string in
    if truthy (nulls_last c) then
      {| filter_combinations := dict_set fc field_name v;
         q := q_or (q st)
                (q_and (Q_kwargs fc)
                   (q_or (QLeaf field_lookup v)
                         (QLeaf (isnull_lookup field_name) (VBool true))));
         warnings := warnings st |}
    else
      apply_combination field_name field_lookup v
        {| filter_combinations := dict_set fc field_lookup v;
           q := q st;
           warnings := warnings st |}.
Proof.
  intros H. destruct v; try discriminate H; reflexivity.
Qed.

Lemma some_branch_widened (fc : dict) (k1 k2 : string) (v1 v2 : value) (r : row) :
  some_branch (q_and (Q_kwargs fc) (q_or (QLeaf k1 v1) (QLeaf k2 v2))) r
  = prefix_holds fc r && (eval_leaf k1 v1 r || eval_leaf k2 v2 r).
Proof.
  unfold some_branch. rewrite eval_q_and, eval_Q_kwargs.
  assert (B : q_bool (q_and (Q_kwargs fc) (q_or (QLeaf k1 v1) (QLeaf k2 v2))) = true).
  { unfold q_and. destruct (Q_kwargs fc); reflexivity. }
  rewrite B. reflexivity.
Qed.

Lemma loop_body_turn (n i : Z) (c : OrderBy) (s : value) (st : loop_state) :
  plain_name (expression_name c) ->
  (forall (k : string) (v : value),
      In (k, v) (filter_combinations st) -> key_column k <> expression_name c) ->
  policy_where_null c s ->
  warnings (loop_body n i c s st) = warnings st /\
  filter_combinations (loop_body n i c s st) = filter_combinations st ++ [pinned c s] /\
  forall r : row,
    some_branch (q (loop_body n i c s st)) r
    = some_branch (q st) r
      || (prefix_holds (filter_combinations st) r && emitted c s (i =? n - 1) r).
Proof.
  intros Hplain Hfresh Hpol.
  assert (Fr : forall key : string,
             key_column key = expression_name c ->
             forall v' : value, ~ In (key, v') (filter_combinations st)).
  { intros key Hk v' Hin. apply (Hfresh _ _ Hin). exact Hk. }
  assert (Fnull : forall v' : value,
             ~ In (isnull_lookup (expression_name c), v') (filter_combinations st)).
  { apply Fr. unfold key_column. rewrite split_lookup_isnull. reflexivity. }
  assert (Fname : forall v' : value,
             ~ In (expression_name c, v') (filter_combinations st)).
  { apply Fr. unfold key_column. rewrite Hplain. reflexivity. }
  destruct (is_null s) eqn:Es.
  - destruct s; try discriminate Es. unfold loop_body, pinned, emitted.
    cbn [is_null].
    destruct (truthy (nulls_last c)) eqn:El.
    + cbn [warnings filter_combinations q]. rewrite dict_set_fresh by exact Fnull.
      split; [reflexivity|]. split; [reflexivity|].
      intros r. rewrite andb_false_r, orb_false_r. reflexivity.
    + destruct (Hpol eq_refl) as [Hl|Hf]; [congruence|]. rewrite Hf.
      cbn [warnings filter_combinations q].
      rewrite (dict_set_fresh (filter_combinations st)) by exact Fnull.
      rewrite dict_set_last by exact Fnull.
      split; [reflexivity|]. split; [reflexivity|].
      intros r. rewrite some_branch_or, some_branch_Q_kwargs_app.
      rewrite (eval_leaf_isnull _ false). reflexivity.
  - rewrite (loop_body_not_null n i c s st Es). cbv zeta.
    unfold pinned, emitted. rewrite Es.
    destruct (truthy (nulls_last c)) eqn:El.
    + cbn [warnings filter_combinations q]. rewrite dict_set_fresh by exact Fname.
      split; [reflexivity|]. split; [reflexivity|].
      intros r. rewrite some_branch_or, some_branch_widened.
      rewrite (eval_leaf_isnull _ true).
      destruct (descending c), (i =? n - 1); cbn [append];
        rewrite ?eval_leaf_gt, ?eval_leaf_gte, ?eval_leaf_lt, ?eval_leaf_lte;
        reflexivity.
    + unfold apply_combination. cbn [warnings filter_combinations q].
      assert (Flook : forall key : string,
                 key_column key = expression_name c ->
                 dict_set (dict_pop (dict_set (filter_combinations st) key s) key)
                          (expression_name c) s
                 = filter_combinations st ++ [(expression_name c, s)] /\
                 forall r : row,
                   some_branch (q_or (q st)
                                  (Q_kwargs (dict_set (filter_combinations st) key s))) r
                   = some_branch (q st) r
                     || (prefix_holds (filter_combinations st) r && eval_leaf key s r)).
      { intros key Hk. rewrite (dict_set_fresh _ key) by (apply Fr; exact Hk).
        rewrite dict_pop_last by (apply Fr; exact Hk).
        rewrite dict_set_fresh by exact Fname. split; [reflexivity|].
        intros r. rewrite some_branch_or, some_branch_Q_kwargs_app. reflexivity. }
      destruct (descending c), (i =? n - 1); cbn [append].
      * destruct (Flook (expression_name c ++ "__lte")%string) as (Hd & Hq).
        { unfold key_column. rewrite split_lookup_lte. reflexivity. }
        split; [reflexivity|]. split; [exact Hd|].
        intros r. rewrite Hq, eval_leaf_lte, orb_false_r. reflexivity.
      * destruct (Flook (expression_name c ++ "__lt")%string) as (Hd & Hq).
        { unfold key_column. rewrite split_lookup_lt. reflexivity. }
        split; [reflexivity|]. split; [exact Hd|].
        intros r. rewrite Hq, eval_leaf_lt, orb_false_r. reflexivity.
      * destruct (Flook (expression_name c ++ "__gte")%string) as (Hd & Hq).
        { unfold key_column. rewrite split_lookup_gte. reflexivity. }
        split; [reflexivity|]. split; [exact Hd|].
        intros r. rewrite Hq, eval_leaf_gte, orb_false_r. reflexivity.
      * destruct (Flook (expression_name c ++ "__gt")%string) as (Hd & Hq).
        { unfold key_column. rewrite split_lookup_gt. reflexivity. }
        split; [reflexivity|]. split; [exact Hd|].
        intros r. rewrite Hq, eval_leaf_gt, orb_false_r. reflexivity.
Qed.

(** ** The whole loop *)

Lemma is_last_no_more (n i : Z) (cs : list OrderBy) :
  i + 1 + len cs = n -> (i =? n - 1) = no_more cs.
Proof.
  intros H. unfold len in H. destruct cs as [|c cs]; cbn [List.length no_more] in *.
  - apply Z.eqb_eq. lia.
  - apply Z.eqb_neq. lia.
Qed.

Lemma filter_turns_branches (cs : list OrderBy) :
  forall (ss : list value) (n i : Z) (st : loop_state),
    i + len cs = n ->
    NoDup (map expression_name cs) ->
    Forall (fun c => plain_name (expression_name c)) cs ->
    (forall (k : string) (v : value),
        In (k, v) (filter_combinations st) ->
        ~ In (key_column k) (map expression_name cs)) ->
    Forall2 policy_where_null cs ss ->
    warnings (filter_turns n i (combine cs ss) st) = warnings st /\
    forall r : row,
      some_branch (q (filter_turns n i (combine cs ss) st)) r
      = some_branch (q st) r
        || (prefix_holds (filter_combinations st) r && branches cs ss r).
Proof.
  induction cs as [|c cs IH]; intros ss n i st Hn Hnd Hpl Hfr Hpol.
  - cbn [combine filter_turns branches].
    split; [reflexivity|]. intros r. rewrite andb_false_r, orb_false_r. reflexivity.
  - destruct ss as [|s ss']; [inversion Hpol|].
    apply Forall2_cons_iff in Hpol. destruct Hpol as (Hp & Hpol').
    cbn [map] in Hnd. apply NoDup_cons_iff in Hnd. destruct Hnd as (Hnotin & Hnd').
    apply Forall_cons_iff in Hpl. destruct Hpl as (Hplain & Hpl').
    cbn [combine filter_turns branches].
    destruct (loop_body_turn n i c s st Hplain) as (Hw & Hfc & Hq).
    { intros k v Hin E. apply (Hfr k v Hin). left. symmetry. exact E. }
    { exact Hp. }
    assert (Hn' : i + 1 + len cs = n).
    { unfold len in *. cbn [List.length] in Hn. lia. }
    destruct (IH ss' n (i + 1) (loop_body n i c s st) Hn' Hnd' Hpl') as (Hw' & Hq').
    { intros k v Hin. rewrite Hfc in Hin. apply in_app_or in Hin.
      destruct Hin as [Hin|[Hin|[]]].
      - intros Hc. apply (Hfr k v Hin). right. exact Hc.
      - inversion Hin as [[Ek Ev]].
        pose proof (key_column_pinned c s Hplain) as Kp.
        destruct (pinned c s) as [pk pv]. cbn [fst] in Kp. inversion Hin; subst.
        rewrite Kp. exact Hnotin. }
    { exact Hpol'. }
    split; [rewrite Hw'; exact Hw|].
    intros r. rewrite Hq', Hq, Hfc.
    destruct (pinned c s) as [pk pv] eqn:Ep.
    rewrite prefix_holds_app.
    pose proof (eval_leaf_pinned c s r Hplain) as Epin. rewrite Ep in Epin.
    cbn [fst snd] in Epin. rewrite Epin.
    rewrite (is_last_no_more n i cs Hn').
    destruct (some_branch (q st) r), (prefix_holds (filter_combinations st) r),
      (emitted c s (no_more cs) r), (same_in_column c s r), (branches cs ss' r);
      reflexivity.
Qed.

Lemma branches_at_or_after (cs : list OrderBy) :
  forall (ss : list value) (r : row),
    List.length ss = List.length cs ->
    is_null (last ss VNone) = false ->
    branches cs ss r = at_or_after cs ss r.
Proof.
  induction cs as [|c cs IH]; intros ss r Hlen Hlast.
  - destruct ss; [discriminate Hlast|discriminate Hlen].
  - destruct ss as [|s ss]; [discriminate Hlen|].
    cbn [branches at_or_after].
    destruct cs as [|c' cs].
    + destruct ss; [|discriminate Hlen]. cbn [last] in Hlast.
      cbn [no_more branches at_or_after].
      unfold emitted, after_in_column, same_in_column. rewrite Hlast.
      destruct (descending c), (truthy (nulls_last c)),
        (col_lt r (expression_name c) s), (col_gt r (expression_name c) s),
        (col_eq r (expression_name c) s), (col_is_null r (expression_name c));
        reflexivity.
    + destruct ss as [|s' ss]; [discriminate Hlen|].
      rewrite IH; [reflexivity| |exact Hlast].
      cbn [List.length] in *. lia.
Qed.

Lemma q_bool_q_or (a b : Q) : q_bool (q_or a b) = q_bool a || q_bool b.
Proof. destruct a, b; reflexivity. Qed.

Lemma dict_set_not_empty (d : dict) (k : string) (v : value) :
  no_more (dict_set d k v) = false.
Proof.
  destruct d as [|[k' v'] d]; cbn [dict_set]; [reflexivity|].
  destruct (String.eqb k' k); reflexivity.
Qed.

Lemma loop_body_q_not_empty (n i : Z) (c : OrderBy) (s : value) (st : loop_state) :
  is_null s = false -> q_bool (q (loop_body n i c s st)) = true.
Proof.
  intros Es. rewrite (loop_body_not_null n i c s st Es). cbv zeta.
  destruct (truthy (nulls_last c)).
  - cbn [q]. rewrite q_bool_q_or.
    assert (B : forall k, q_bool (q_and (Q_kwargs (filter_combinations st))
                   (q_or (QLeaf k s)
                         (QLeaf (isnull_lookup (expression_name c)) (VBool true)))) = true).
    { intros k. unfold q_and. destruct (Q_kwargs (filter_combinations st)); reflexivity. }
    rewrite B. apply orb_true_r.
  - unfold apply_combination. cbn [q filter_combinations].
    rewrite q_bool_q_or, q_bool_Q_kwargs, dict_set_not_empty. apply orb_true_r.
Qed.

Lemma loop_body_q_stays (n i : Z) (c : OrderBy) (s : value) (st : loop_state) :
  q_bool (q st) = true -> q_bool (q (loop_body n i c s st)) = true.
Proof.
  intros H. unfold loop_body.
  destruct s; cbn [q];
    repeat match goal with
           | |- context [if ?b then _ else _] => destruct b
           end;
    unfold apply_combination; cbn [q]; rewrite ?q_bool_q_or, ?H; reflexivity.
Qed.

Lemma filter_turns_q_stays (items : list (OrderBy * value)) :
  forall (n i : Z) (st : loop_state),
    q_bool (q st) = true -> q_bool (q (filter_turns n i items st)) = true.
Proof.
  induction items as [|[c s] items IH]; intros n i st H; cbn [filter_turns].
  - exact H.
  - apply IH. apply loop_body_q_stays. exact H.
Qed.

Lemma filter_turns_q_not_empty (cs : list OrderBy) :
  forall (ss : list value) (n i : Z) (st : loop_state),
    List.length ss = List.length cs ->
    is_null (last ss VNone) = false ->
    q_bool (q (filter_turns n i (combine cs ss) st)) = true.
Proof.
  induction cs as [|c cs IH]; intros ss n i st Hlen Hlast.
  - destruct ss; [discriminate Hlast|discriminate Hlen].
  - destruct ss as [|s ss]; [discriminate Hlen|].
    cbn [combine filter_turns].
    destruct cs as [|c' cs].
    + destruct ss; [|discriminate Hlen]. cbn [last] in Hlast.
      cbn [combine filter_turns]. apply loop_body_q_not_empty. exact Hlast.
    + destruct ss as [|s' ss]; [discriminate Hlen|].
      apply IH; [cbn [List.length] in *; lia|exact Hlast].
Qed.

Lemma filter_turns_keyset (columns : list OrderBy) (start : list value) :
  keyset_ready columns start ->
  let st := filter_turns (len columns) 0 (combine columns start) initial_state in
  warnings st = [] /\
  q_bool (q st) = true /\
  forall r : row, eval (q st) r = at_or_after columns start r.
Proof.
  intros (Hnd & Hpl & Hpol & Hlast). cbv zeta.
  assert (Hlen : List.length start = List.length columns).
  { symmetry. eapply Forall2_length. exact Hpol. }
  destruct (filter_turns_branches columns start (len columns) 0 initial_state)
    as (Hw & Hq); auto.
  pose proof (filter_turns_q_not_empty columns start (len columns) 0 initial_state
                Hlen Hlast) as Hb.
  split; [exact Hw|]. split; [exact Hb|].
  intros r. specialize (Hq r). unfold some_branch in Hq. rewrite Hb in Hq.
  cbn [andb initial_state q q_bool filter_combinations prefix_holds forallb orb] in Hq.
  rewrite Hq. apply branches_at_or_after; assumption.
Qed.

Lemma selects_after_filter (qs qs' : queryset) (b : Q) (r : row) :
  query_where qs' = query_where qs ++ [b] ->
  selects qs' r = selects qs r && eval b r.
Proof.
  intros H. unfold selects. rewrite H, forallb_app. cbn [forallb].
  rewrite andb_true_r. reflexivity.
Qed.

(** The forward filter under [keyset_ready]. *)
Lemma filter_forward_keyset (KEY_BACK SENTINEL_NAME direction : string)
  (qs : queryset) (start_position : list value) (h : heap) (columns : list OrderBy) :
  (forall l : loc, In (ByExpr l) (get_order_by qs) -> (l < next h)%nat) ->
  map (denote_item h) (get_order_by qs) = columns ->
  direction <> KEY_BACK ->
  (forall x : Q, engine_rejects qs x = false) ->
  keyset_ready columns start_position ->
  exists (qs' : queryset) (h' : heap) (boundary : Q),
    filter_by_order_key KEY_BACK SENTINEL_NAME qs direction start_position h
    = (Ok qs', [], h') /\
    query_where qs' = query_where qs ++ [boundary] /\
    query_order_by qs' = query_order_by qs /\
    (forall r : row, eval boundary r = at_or_after columns start_position r) /\
    (forall r : row,
        selects qs' r = selects qs r && at_or_after columns start_position r).
Proof.
  intros Hv Hcols Hdir Hacc Hready.
  assert (Hlen : List.length start_position = List.length columns).
  { symmetry. eapply Forall2_length. apply Hready. }
  destruct (filter_by_order_key_forward_columns KEY_BACK SENTINEL_NAME direction qs
              start_position h columns Hdir Hv Hcols Hlen) as (h' & E).
  cbv zeta in E.
  destruct (filter_turns_keyset columns start_position Hready) as (Hw & Hb & Hq).
  cbv zeta in Hw, Hb, Hq.
  set (st := filter_turns (len columns) 0 (combine columns start_position) initial_state) in *.
  assert (A : exists qs' : queryset,
             apply_filter SENTINEL_NAME qs (q st)
               (sentinel_of (combine columns start_position)) = Ok qs' /\
             query_where qs' = query_where qs ++ [q st] /\
             query_order_by qs' = query_order_by qs).
  { unfold apply_filter, qs_filter. rewrite Hb, Hacc. cbn [bind].
    unfold qs_annotate. cbn [engine_rejects]. rewrite Hacc.
    eexists. split; [reflexivity|]. split; reflexivity. }
  destruct A as (qs' & A & W & O).
  exists qs', h', (q st). split; [|split; [exact W|split; [exact O|split; [exact Hq|]]]].
  - rewrite E, A, Hw. reflexivity.
  - intros r. rewrite (selects_after_filter qs qs' (q st) r W), Hq. reflexivity.
Qed.

(** X10.  In the forward direction, for columns with distinct names that
    do not end like a lookup, a cursor that is null only where the column
    has a null policy and whose last value is not null, the filter added
    to the queryset holds exactly on the rows at or after the cursor in
    the lexicographic order of the columns (directions and null placement
    included); no warning is logged and the ordering of the queryset is
    kept. *)
Theorem forward_filter_is_keyset (KEY_BACK SENTINEL_NAME direction : string)
  (qs : queryset) (start_position : list value) (h : heap) (columns : list OrderBy) :
  (forall l : loc, In (ByExpr l) (get_order_by qs) -> (l < next h)%nat) ->
  map (denote_item h) (get_order_by qs) = columns ->
  direction <> KEY_BACK ->
  (forall x : Q, engine_rejects qs x = false) ->
  keyset_ready columns start_position ->
  exists (qs' : queryset) (h' : heap) (boundary : Q),
    filter_by_order_key KEY_BACK SENTINEL_NAME qs direction start_position h
    = (Ok qs', [], h') /\
    query_where qs' = query_where qs ++ [boundary] /\
    query_order_by qs' = query_order_by qs /\
    (forall r : row, eval boundary r = at_or_after columns start_position r) /\
    (forall r : row,
        selects qs' r = selects qs r && at_or_after columns start_position r).
Proof.
  exact (filter_forward_keyset KEY_BACK SENTINEL_NAME direction qs start_position h columns).
Qed.

Lemma forward_filter_is_keyset_witness :
  exists (qs' : queryset) (h' : heap) (boundary : Q),
    filter_by_order_key "b" "sentinel" (plain_queryset [ByExpr 0%nat; ByName "-id"])
      "n" [VNone; VInt 10] (snd (alloc empty_heap rating_desc_nulls_last))
    = (Ok qs', [], h') /\
    query_where qs'
    = query_where (plain_queryset [ByExpr 0%nat; ByName "-id"]) ++ [boundary] /\
    query_order_by qs' = query_order_by (plain_queryset [ByExpr 0%nat; ByName "-id"]) /\
    (forall r : row,
        eval boundary r
        = at_or_after [rating_desc_nulls_last; F_desc "id"] [VNone; VInt 10] r) /\
    (forall r : row,
        selects qs' r
        = selects (plain_queryset [ByExpr 0%nat; ByName "-id"]) r
          && at_or_after [rating_desc_nulls_last; F_desc "id"] [VNone; VInt 10] r).
Proof.
  apply (forward_filter_is_keyset "b" "sentinel" "n"
           (plain_queryset [ByExpr 0%nat; ByName "-id"]) [VNone; VInt 10]
           (snd (alloc empty_heap rating_desc_nulls_last))
           [rating_desc_nulls_last; F_desc "id"]).
  - intros l [H|[H|[]]]; [|discriminate H]. inversion H. simpl. lia.
  - reflexivity.
  - intros H; discriminate H.
  - intros x; reflexivity.
  - split; [|split; [|split]].
    + repeat constructor; simpl; intuition discriminate.
    + repeat constructor.
    + constructor; [intros _; left; reflexivity|].
      constructor; [intros H; discriminate H|]. constructor.
    + reflexivity.
Defined.

(** ** The backward direction *)

Lemma invert_field_name (c : OrderBy) :
  expression_name (invert_field c) = expression_name c.
Proof.
  unfold invert_field. cbn [nulls_first nulls_last expression_name].
  destruct (truthy (nulls_first c)); [reflexivity|].
  destruct (truthy (nulls_last c)); reflexivity.
Qed.

Lemma invert_field_descending (c : OrderBy) :
  descending (invert_field c) = negb (descending c).
Proof.
  unfold invert_field. cbn [nulls_first nulls_last descending].
  destruct (truthy (nulls_first c)); [reflexivity|].
  destruct (truthy (nulls_last c)); reflexivity.
Qed.

Lemma invert_field_nulls_last (c : OrderBy) :
  truthy (nulls_last (invert_field c)) = truthy (nulls_first c).
Proof.
  unfold invert_field. cbn [nulls_first nulls_last].
  destruct (truthy (nulls_first c)) eqn:Ef; [reflexivity|].
  destruct (truthy (nulls_last c)) eqn:El; cbn [nulls_last truthy]; [reflexivity|].
  cbn [nulls_last]. exact El.
Qed.

Lemma invert_field_nulls_first (c : OrderBy) :
  truthy (nulls_first (invert_field c))
  = negb (truthy (nulls_first c)) && truthy (nulls_last c).
Proof.
  unfold invert_field. cbn [nulls_first nulls_last].
  destruct (truthy (nulls_first c)) eqn:Ef; [reflexivity|].
  destruct (truthy (nulls_last c)) eqn:El; cbn [nulls_first truthy negb andb];
    [reflexivity|].
  cbn [nulls_first]. exact Ef.
Qed.

Lemma after_in_column_inverted (c : OrderBy) (s : value) (r : row) :
  after_in_column (invert_field c) s r = before_in_column c s r.
Proof.
  unfold after_in_column, before_in_column.
  rewrite invert_field_name, invert_field_descending, invert_field_nulls_last.
  destruct (descending c); reflexivity.
Qed.

Lemma same_in_column_inverted (c : OrderBy) (s : value) (r : row) :
  same_in_column (invert_field c) s r = same_in_column c s r.
Proof. unfold same_in_column. rewrite invert_field_name. reflexivity. Qed.

Lemma at_or_after_inverted (cs : list OrderBy) :
  forall (ss : list value) (r : row),
    at_or_after (map invert_field cs) ss r = at_or_before cs ss r.
Proof.
  induction cs as [|c cs IH]; intros ss r; [reflexivity|].
  destruct ss as [|s ss]; [reflexivity|].
  cbn [map at_or_after at_or_before].
  rewrite after_in_column_inverted, same_in_column_inverted, IH. reflexivity.
Qed.

Lemma same_in_all_inverted (cs : list OrderBy) :
  forall (ss : list value) (r : row),
    same_in_all (map invert_field cs) ss r = same_in_all cs ss r.
Proof.
  induction cs as [|c cs IH]; intros ss r; [reflexivity|].
  destruct ss as [|s ss]; [reflexivity|].
  cbn [map same_in_all]. rewrite same_in_column_inverted, IH. reflexivity.
Qed.

Lemma inverted_names (cs : list OrderBy) :
  map expression_name (map invert_field cs) = map expression_name cs.
Proof.
  rewrite map_map. apply map_ext. apply invert_field_name.
Qed.

Lemma keyset_ready_inverted (cs : list OrderBy) (ss : list value) :
  keyset_ready cs ss -> keyset_ready (map invert_field cs) ss.
Proof.
  intros (Hnd & Hpl & Hpol & Hlast). split; [|split; [|split]].
  - rewrite inverted_names. exact Hnd.
  - apply Forall_map. eapply Forall_impl; [|exact Hpl].
    intros c Hc. cbv beta. rewrite invert_field_name. exact Hc.
  - clear Hnd Hpl Hlast. induction Hpol as [|c s cs ss Hp _ IH]; constructor.
    + intros Hs. rewrite invert_field_nulls_last, invert_field_nulls_first.
      destruct (Hp Hs) as [Hl|Hf].
      * rewrite Hl. destruct (truthy (nulls_first c)); [left|right]; reflexivity.
      * left. exact Hf.
    + exact IH.
  - exact Hlast.
Qed.

Lemma invert_order_by_distinct_frame (order_by : list loc) (h : heap) :
  (forall l : loc, In l order_by -> (l < next h)%nat) ->
  NoDup order_by ->
  exists (once : list loc) (h1 : heap),
    invert_order_by order_by h = (once, h1) /\
    read h1 once = map invert_field (read h order_by) /\
    (forall l : loc, (l < next h)%nat -> cells h1 l = cells h l) /\
    (forall l : loc, In l once -> ~ In l order_by).
Proof.
  intros Hv Hnd.
  destruct (invert_order_by_spec order_by h Hv) as (once & h1 & E1 & F1 & Fr & _).
  exists once, h1. split; [exact E1|]. split; [|split; [exact Fr|]].
  - unfold read. rewrite map_map. apply Forall2_map_eq.
    pose proof (Forall2_with_left _ (fun l => In l order_by) _ _ F1 (fun _ H => H)) as G.
    eapply Forall2_impl; [|exact G].
    intros l c ((Hc & _) & Hin). cbv beta. rewrite Hc. unfold occurrences.
    rewrite (proj1 (NoDup_count_occ' Nat.eq_dec order_by) Hnd l Hin). reflexivity.
  - intros c Hin Hin'.
    destruct (Forall2_right_In _ _ _ F1 c Hin) as (l & _ & _ & _ & Hc).
    specialize (Hv c Hin'). lia.
Qed.

(** In the backward direction the function inverts copies of the columns,
    orders the queryset by them, and folds [loop_body] over them. *)
Lemma filter_by_order_key_backward_columns (KEY_BACK SENTINEL_NAME : string)
  (qs : queryset) (start_position : list value) (h : heap) (columns : list OrderBy) :
  (forall l : loc, In (ByExpr l) (get_order_by qs) -> (l < next h)%nat) ->
  map (denote_item h) (get_order_by qs) = columns ->
  NoDup (map expression_name columns) ->
  List.length start_position = List.length columns ->
  exists (once : list loc) (h' : heap),
    let inverted := map invert_field columns in
    let items := combine inverted start_position in
    let st := filter_turns (len inverted) 0 items initial_state in
    filter_by_order_key KEY_BACK SENTINEL_NAME qs KEY_BACK start_position h
    = (apply_filter SENTINEL_NAME (qs_order_by qs once) (q st) (sentinel_of items),
       warnings st, h') /\
    read h' once = inverted /\
    (forall l : loc, (l < next h)%nat -> cells h' l = cells h l).
Proof.
  intros Hv Hcols Hnd Hlen. unfold filter_by_order_key.
  destruct (convert_order_by_to_expressions (get_order_by qs) h) as [ls h1] eqn:E.
  destruct (convert_order_by_spec _ _ Hv _ _ E) as (R & L & N & V & Fr).
  rewrite Hcols in R.
  assert (Ll : List.length ls = List.length columns)
    by (rewrite <- R; unfold read; rewrite length_map; reflexivity).
  assert (Hl : (len start_position =? len ls) = true).
  { unfold len. rewrite Hlen, Ll. apply Z.eqb_refl. }
  rewrite Hl. cbn [negb]. rewrite String.eqb_refl.
  assert (Hndl : NoDup ls).
  { apply (NoDup_map_inv (fun l => expression_name (cells h1 l))).
    unfold read in R. rewrite <- (map_map (cells h1) expression_name), R. exact Hnd. }
  destruct (invert_order_by_distinct_frame ls h1 V Hndl)
    as (once & h2 & Ei & Ri & Fri & _).
  rewrite Ei. exists once, h2. cbv zeta.
  rewrite filter_loop_turns, sentinel_query_of, Ri, R.
  assert (Lo : List.length once = List.length (map invert_field columns)).
  { rewrite <- R, <- Ri. unfold read. rewrite length_map. reflexivity. }
  unfold len. rewrite Lo. split; [reflexivity|]. split; [reflexivity|].
  intros l Hl0. rewrite Fri by lia. apply Fr. exact Hl0.
Qed.

(** The backward filter under [keyset_ready]. *)
Lemma filter_backward_keyset (KEY_BACK SENTINEL_NAME : string)
  (qs : queryset) (start_position : list value) (h : heap) (columns : list OrderBy) :
  (forall l : loc, In (ByExpr l) (get_order_by qs) -> (l < next h)%nat) ->
  map (denote_item h) (get_order_by qs) = columns ->
  (forall x : Q, engine_rejects qs x = false) ->
  keyset_ready columns start_position ->
  exists (qs' : queryset) (h' : heap) (boundary : Q) (once : list loc),
    filter_by_order_key KEY_BACK SENTINEL_NAME qs KEY_BACK start_position h
    = (Ok qs', [], h') /\
    query_where qs' = query_where qs ++ [boundary] /\
    query_order_by qs' = map ByExpr once /\
    read h' once = map invert_field columns /\
    (forall l : loc, (l < next h)%nat -> cells h' l = cells h l) /\
    (forall r : row, eval boundary r = at_or_before columns start_position r) /\
    (forall r : row,
        selects qs' r = selects qs r && at_or_before columns start_position r).
Proof.
  intros Hv Hcols Hacc Hready.
  assert (Hlen : List.length start_position = List.length columns).
  { symmetry. eapply Forall2_length. apply Hready. }
  destruct (filter_by_order_key_backward_columns KEY_BACK SENTINEL_NAME qs
              start_position h columns Hv Hcols (proj1 Hready) Hlen)
    as (once & h' & E & Ro & Fr).
  cbv zeta in E.
  destruct (filter_turns_keyset _ _ (keyset_ready_inverted _ _ Hready)) as (Hw & Hb & Hq).
  cbv zeta in Hw, Hb, Hq.
  set (st := filter_turns (len (map invert_field columns)) 0
               (combine (map invert_field columns) start_position) initial_state) in *.
  assert (A : exists qs' : queryset,
             apply_filter SENTINEL_NAME (qs_order_by qs once) (q st)
               (sentinel_of (combine (map invert_field columns) start_position)) = Ok qs' /\
             query_where qs' = query_where qs ++ [q st] /\
             query_order_by qs' = map ByExpr once).
  { unfold apply_filter, qs_filter. cbn [engine_rejects qs_order_by].
    rewrite Hb, Hacc. cbn [bind].
    unfold qs_annotate. cbn [engine_rejects]. rewrite Hacc.
    eexists. split; [reflexivity|]. split; reflexivity. }
  destruct A as (qs' & A & W & O).
  exists qs', h', (q st), once.
  split; [|split; [exact W|split; [exact O|split; [exact Ro|split; [exact Fr|split]]]]].
  - rewrite E, A, Hw. reflexivity.
  - intros r. rewrite Hq. apply at_or_after_inverted.
  - intros r. rewrite (selects_after_filter qs qs' (q st) r W), Hq, at_or_after_inverted.
    reflexivity.
Qed.

(** X11.  In the direction [KEY_BACK], under the conditions of X10, the
    queryset is ordered by inverted copies of the columns (the objects of
    the caller are not written), and the filter added holds exactly on the
    rows at or before the cursor in the order of the original columns. *)
Theorem backward_filter_is_keyset (KEY_BACK SENTINEL_NAME : string)
  (qs : queryset) (start_position : list value) (h : heap) (columns : list OrderBy) :
  (forall l : loc, In (ByExpr l) (get_order_by qs) -> (l < next h)%nat) ->
  map (denote_item h) (get_order_by qs) = columns ->
  (forall x : Q, engine_rejects qs x = false) ->
  keyset_ready columns start_position ->
  exists (qs' : queryset) (h' : heap) (boundary : Q) (once : list loc),
    filter_by_order_key KEY_BACK SENTINEL_NAME qs KEY_BACK start_position h
    = (Ok qs', [], h') /\
    query_where qs' = query_where qs ++ [boundary] /\
    query_order_by qs' = map ByExpr once /\
    read h' once = map invert_field columns /\
    (forall l : loc, (l < next h)%nat -> cells h' l = cells h l) /\
    (forall r : row, eval boundary r = at_or_before columns start_position r) /\
    (forall r : row,
        selects qs' r = selects qs r && at_or_before columns start_position r).
Proof.
  exact (filter_backward_keyset KEY_BACK SENTINEL_NAME qs start_position h columns).
Qed.

Lemma backward_filter_is_keyset_witness :
  exists (qs' : queryset) (h' : heap) (boundary : Q) (once : list loc),
    filter_by_order_key "b" "sentinel" (plain_queryset [ByExpr 0%nat; ByName "-id"])
      "b" [VNone; VInt 10] (snd (alloc empty_heap rating_desc_nulls_last))
    = (Ok qs', [], h') /\
    query_where qs'
    = query_where (plain_queryset [ByExpr 0%nat; ByName "-id"]) ++ [boundary] /\
    query_order_by qs' = map ByExpr once /\
    read h' once = map invert_field [rating_desc_nulls_last; F_desc "id"] /\
    (forall l : loc,
        (l < next (snd (alloc empty_heap rating_desc_nulls_last)))%nat ->
        cells h' l = cells (snd (alloc empty_heap rating_desc_nulls_last)) l) /\
    (forall r : row,
        eval boundary r
        = at_or_before [rating_desc_nulls_last; F_desc "id"] [VNone; VInt 10] r) /\
    (forall r : row,
        selects qs' r
        = selects (plain_queryset [ByExpr 0%nat; ByName "-id"]) r
          && at_or_before [rating_desc_nulls_last; F_desc "id"] [VNone; VInt 10] r).
Proof.
  apply (backward_filter_is_keyset "b" "sentinel"
           (plain_queryset [ByExpr 0%nat; ByName "-id"]) [VNone; VInt 10]
           (snd (alloc empty_heap rating_desc_nulls_last))
           [rating_desc_nulls_last; F_desc "id"]).
  - intros l [H|[H|[]]]; [|discriminate H]. inversion H. simpl. lia.
  - reflexivity.
  - intros x; reflexivity.
  - split; [|split; [|split]].
    + repeat constructor; simpl; intuition discriminate.
    + repeat constructor.
    + constructor; [intros _; left; reflexivity|].
      constructor; [intros H; discriminate H|]. constructor.
    + reflexivity.
Defined.

(** ** The two directions together *)

(** A row that can be placed against the cursor value is on exactly one
    side of it in the column, or on it. *)
Lemma column_trichotomy (c : OrderBy) (s : value) (r : row) :
  placed_in_column c s r = true ->
  (after_in_column c s r = true /\ same_in_column c s r = false
   /\ before_in_column c s r = false) \/
  (after_in_column c s r = false /\ same_in_column c s r = true
   /\ before_in_column c s r = false) \/
  (after_in_column c s r = false /\ same_in_column c s r = false
   /\ before_in_column c s r = true).
Proof.
  unfold placed_in_column, after_in_column, same_in_column, before_in_column,
    col_lt, col_gt, col_eq, col_is_null.
  destruct (is_null s) eqn:Es, (is_null (r (expression_name c))) eqn:Er;
    cbn [andb orb negb].
  - intros _. destruct (truthy (nulls_last c)), (truthy (nulls_first c)); tauto.
  - destruct (truthy (nulls_last c)), (truthy (nulls_first c));
      cbn [xorb]; intros H; try discriminate H; tauto.
  - assert (N : compare_values (r (expression_name c)) s = None).
    { destruct (r (expression_name c)); try discriminate Er. reflexivity. }
    rewrite N. cbn [is_cmp orb andb].
    destruct (descending c), (truthy (nulls_last c)), (truthy (nulls_first c));
      cbn [xorb orb andb]; intros H; try discriminate H; tauto.
  - destruct (compare_values (r (expression_name c)) s) as [[| |]|];
      intros H; try discriminate H;
      destruct (descending c); cbn [is_cmp orb andb];
      rewrite ?andb_false_r; cbn [orb]; tauto.
Qed.

Lemma directions_partition (cs : list OrderBy) :
  forall (ss : list value) (r : row),
    placed cs ss r = true ->
    at_or_after cs ss r || at_or_before cs ss r = true /\
    at_or_after cs ss r && at_or_before cs ss r = same_in_all cs ss r.
Proof.
  induction cs as [|c cs IH]; intros ss r Hp; [split; reflexivity|].
  destruct ss as [|s ss]; [split; reflexivity|].
  cbn [placed at_or_after at_or_before same_in_all] in *.
  apply andb_prop in Hp. destruct Hp as (Hc & Hrest).
  destruct (IH ss r Hrest) as (Hor & Hand).
  destruct (column_trichotomy c s r Hc) as [(Ha & Hs & Hb)|[(Ha & Hs & Hb)|(Ha & Hs & Hb)]];
    rewrite Ha, Hs, Hb; cbn [andb orb].
  - split; reflexivity.
  - split; [exact Hor|exact Hand].
  - split; reflexivity.
Qed.

(** X12.  Under the conditions of X10, the forward and the backward
    filters of the same cursor cover the queryset and meet on the rows of
    the cursor only: every row of the queryset that can be placed against
    the cursor (its values compare with the cursor's, nulls stand in
    columns with one null policy) is returned by one of the two
    directions, and by both exactly when it has the cursor values in all
    columns. *)
Theorem forward_backward_cover (KEY_BACK SENTINEL_NAME direction : string)
  (qs : queryset) (start_position : list value) (h : heap) (columns : list OrderBy) :
  (forall l : loc, In (ByExpr l) (get_order_by qs) -> (l < next h)%nat) ->
  map (denote_item h) (get_order_by qs) = columns ->
  direction <> KEY_BACK ->
  (forall x : Q, engine_rejects qs x = false) ->
  keyset_ready columns start_position ->
  exists (forward backward : queryset) (hf hb : heap),
    filter_by_order_key KEY_BACK SENTINEL_NAME qs direction start_position h
    = (Ok forward, [], hf) /\
    filter_by_order_key KEY_BACK SENTINEL_NAME qs KEY_BACK start_position h
    = (Ok backward, [], hb) /\
    forall r : row,
      placed columns start_position r = true ->
      selects forward r || selects backward r = selects qs r /\
      selects forward r && selects backward r
      = selects qs r && same_in_all columns start_position r.
Proof.
  intros Hv Hcols Hdir Hacc Hready.
  destruct (filter_forward_keyset KEY_BACK SENTINEL_NAME direction qs start_position h
              columns Hv Hcols Hdir Hacc Hready)
    as (qf & hf & bf & Ef & _ & _ & _ & Sf).
  destruct (filter_backward_keyset KEY_BACK SENTINEL_NAME qs start_position h
              columns Hv Hcols Hacc Hready)
    as (qb & hb & bb & once & Eb & _ & _ & _ & _ & _ & Sb).
  exists qf, qb, hf, hb. split; [exact Ef|]. split; [exact Eb|].
  intros r Hp. rewrite Sf, Sb.
  destruct (directions_partition columns start_position r Hp) as (Hor & Hand).
  rewrite <- Hand.
  destruct (selects qs r), (at_or_after columns start_position r),
    (at_or_before columns start_position r); cbn [andb orb] in *;
    try discriminate Hor; split; reflexivity.
Qed.

Lemma forward_backward_cover_witness :
  exists (forward backward : queryset) (hf hb : heap),
    filter_by_order_key "b" "sentinel" (plain_queryset [ByExpr 0%nat; ByName "-id"])
      "n" [VNone; VInt 10] (snd (alloc empty_heap rating_desc_nulls_last))
    = (Ok forward, [], hf) /\
    filter_by_order_key "b" "sentinel" (plain_queryset [ByExpr 0%nat; ByName "-id"])
      "b" [VNone; VInt 10] (snd (alloc empty_heap rating_desc_nulls_last))
    = (Ok backward, [], hb) /\
    forall r : row,
      placed [rating_desc_nulls_last; F_desc "id"] [VNone; VInt 10] r = true ->
      selects forward r || selects backward r
      = selects (plain_queryset [ByExpr 0%nat; ByName "-id"]) r /\
      selects forward r && selects backward r
      = selects (plain_queryset [ByExpr 0%nat; ByName "-id"]) r
        && same_in_all [rating_desc_nulls_last; F_desc "id"] [VNone; VInt 10] r.
Proof.
  apply (forward_backward_cover "b" "sentinel" "n"
           (plain_queryset [ByExpr 0%nat; ByName "-id"]) [VNone; VInt 10]
           (snd (alloc empty_heap rating_desc_nulls_last))
           [rating_desc_nulls_last; F_desc "id"]).
  - intros l [H|[H|[]]]; [|discriminate H]. inversion H. simpl. lia.
  - reflexivity.
  - intros H; discriminate H.
  - intros x; reflexivity.
  - split; [|split; [|split]].
    + repeat constructor; simpl; intuition discriminate.
    + repeat constructor.
    + constructor; [intros _; left; reflexivity|].
      constructor; [intros H; discriminate H|]. constructor.
    + reflexivity.
Defined.

(** ** The sentinel *)

Lemma sentinel_fold_distinct (items : list (OrderBy * value)) :
  forall d : dict,
    NoDup (map (fun cs => expression_name (fst cs)) items) ->
    (forall (k : string) (v : value),
        In (k, v) d -> ~ In k (map (fun cs => expression_name (fst cs)) items)) ->
    fold_left (fun d '(o, start) => dict_set d (expression_name o) start) items d
    = d ++ map (fun cs => (expression_name (fst cs), snd cs)) items.
Proof.
  induction items as [|[c s0] items IH]; intros d Hnd Hfr.
  - cbn [fold_left map]. symmetry. apply app_nil_r.
  - cbn [fold_left map fst snd] in *.
    apply NoDup_cons_iff in Hnd. destruct Hnd as (Hnotin & Hnd').
    rewrite dict_set_fresh.
    + rewrite IH; [rewrite <- app_assoc; reflexivity|exact Hnd'|].
      intros k v Hin. apply in_app_or in Hin. destruct Hin as [Hin|[Hin|[]]].
      * intros Hk. apply (Hfr k v Hin). right. exact Hk.
      * inversion Hin; subst. exact Hnotin.
    + intros v' Hin. apply (Hfr _ _ Hin). left. reflexivity.
Qed.

Lemma combine_names (cs : list OrderBy) :
  forall ss : list value,
    List.length ss = List.length cs ->
    map (fun x : OrderBy * value => expression_name (fst x)) (combine cs ss)
    = map expression_name cs.
Proof.
  induction cs as [|c cs IH]; intros [|s0 ss] Hlen; try reflexivity; try discriminate Hlen.
  cbn [combine map fst]. rewrite IH; [reflexivity|]. cbn [List.length] in Hlen. lia.
Qed.

Lemma sentinel_holds_on_cursor_rows (cs : list OrderBy) :
  forall (ss : list value) (r : row),
    Forall (fun c => plain_name (expression_name c)) cs ->
    prefix_holds (map (fun x : OrderBy * value => (expression_name (fst x), snd x))
                      (combine cs ss)) r
    = same_in_all cs ss r.
Proof.
  induction cs as [|c cs IH]; intros ss r Hpl; [reflexivity|].
  destruct ss as [|s0 ss]; [reflexivity|].
  apply Forall_cons_iff in Hpl. destruct Hpl as (Hc & Hpl).
  cbn [combine map fst snd same_in_all].
  change (prefix_holds ((expression_name c, s0)
            :: map (fun x : OrderBy * value => (expression_name (fst x), snd x))
                   (combine cs ss)) r)
    with (eval_leaf (expression_name c) s0 r
          && prefix_holds (map (fun x : OrderBy * value => (expression_name (fst x), snd x))
                               (combine cs ss)) r).
  rewrite (eval_leaf_plain _ _ _ Hc), IH by exact Hpl. reflexivity.
Qed.

Lemma eval_sentinel (cs : list OrderBy) (ss : list value) (r : row) :
  NoDup (map expression_name cs) ->
  Forall (fun c => plain_name (expression_name c)) cs ->
  List.length ss = List.length cs ->
  eval (Q_kwargs (sentinel_of (combine cs ss))) r = same_in_all cs ss r.
Proof.
  intros Hnd Hpl Hlen. unfold sentinel_of.
  rewrite (sentinel_fold_distinct (combine cs ss) []).
  - cbn [app]. rewrite eval_Q_kwargs. apply sentinel_holds_on_cursor_rows. exact Hpl.
  - rewrite (combine_names cs ss Hlen). exact Hnd.
  - intros k v [].
Qed.

(** The sentinel annotation under [keyset_ready], in either direction. *)
Lemma filter_sentinel_keyset (KEY_BACK SENTINEL_NAME direction : string)
  (qs : queryset) (start_position : list value) (h : heap) (columns : list OrderBy) :
  (forall l : loc, In (ByExpr l) (get_order_by qs) -> (l < next h)%nat) ->
  map (denote_item h) (get_order_by qs) = columns ->
  (forall x : Q, engine_rejects qs x = false) ->
  keyset_ready columns start_position ->
  exists (qs' : queryset) (h' : heap) (condition : Q),
    filter_by_order_key KEY_BACK SENTINEL_NAME qs direction start_position h
    = (Ok qs', [], h') /\
    query_annotations qs' = query_annotations qs ++ [(SENTINEL_NAME, condition)] /\
    forall r : row, eval condition r = same_in_all columns start_position r.
Proof.
  intros Hv Hcols Hacc Hready.
  assert (Hlen : List.length start_position = List.length columns).
  { symmetry. eapply Forall2_length. apply Hready. }
  destruct (String.eqb_spec direction KEY_BACK) as [->|Hdir].
  - destruct (filter_by_order_key_backward_columns KEY_BACK SENTINEL_NAME qs
                start_position h columns Hv Hcols (proj1 Hready) Hlen)
      as (once & h' & E & _ & _).
    cbv zeta in E.
    destruct (filter_turns_keyset _ _ (keyset_ready_inverted _ _ Hready)) as (Hw & Hb & _).
    cbv zeta in Hw, Hb.
    destruct (apply_filter_accepted SENTINEL_NAME (qs_order_by qs once) _
                (sentinel_of (combine (map invert_field columns) start_position))
                Hacc Hb) as (qs' & A & _ & An).
    exists qs', h', (Q_kwargs (sentinel_of (combine (map invert_field columns) start_position))).
    split; [rewrite E, A, Hw; reflexivity|]. split; [exact An|].
    intros r. rewrite eval_sentinel.
    + apply same_in_all_inverted.
    + rewrite inverted_names. apply Hready.
    + apply (keyset_ready_inverted _ _ Hready).
    + rewrite length_map. exact Hlen.
  - destruct (filter_by_order_key_forward_columns KEY_BACK SENTINEL_NAME direction qs
                start_position h columns Hdir Hv Hcols Hlen) as (h' & E).
    cbv zeta in E.
    destruct (filter_turns_keyset _ _ Hready) as (Hw & Hb & _).
    cbv zeta in Hw, Hb.
    destruct (apply_filter_accepted SENTINEL_NAME qs _
                (sentinel_of (combine columns start_position)) Hacc Hb)
      as (qs' & A & _ & An).
    exists qs', h', (Q_kwargs (sentinel_of (combine columns start_position))).
    split; [rewrite E, A, Hw; reflexivity|]. split; [exact An|].
    intros r. apply eval_sentinel; [apply Hready|apply Hready|exact Hlen].
Qed.

(** X13.  Under the conditions of X10, in either direction, the queryset
    returned carries one more annotation, named [SENTINEL_NAME], whose
    condition holds exactly on the rows that have the cursor value in
    every column (a null cursor value standing for a null column). *)
Theorem sentinel_marks_cursor_rows (KEY_BACK SENTINEL_NAME direction : string)
  (qs : queryset) (start_position : list value) (h : heap) (columns : list OrderBy) :
  (forall l : loc, In (ByExpr l) (get_order_by qs) -> (l < next h)%nat) ->
  map (denote_item h) (get_order_by qs) = columns ->
  (forall x : Q, engine_rejects qs x = false) ->
  keyset_ready columns start_position ->
  exists (qs' : queryset) (h' : heap) (condition : Q),
    filter_by_order_key KEY_BACK SENTINEL_NAME qs direction start_position h
    = (Ok qs', [], h') /\
    query_annotations qs' = query_annotations qs ++ [(SENTINEL_NAME, condition)] /\
    forall r : row, eval condition r = same_in_all columns start_position r.
Proof.
  exact (filter_sentinel_keyset KEY_BACK SENTINEL_NAME direction qs start_position h
           columns).
Qed.

Lemma sentinel_marks_cursor_rows_witness :
  exists (qs' : queryset) (h' : heap) (condition : Q),
    filter_by_order_key "b" "sentinel" (plain_queryset [ByExpr 0%nat; ByName "-id"])
      "b" [VNone; VInt 10] (snd (alloc empty_heap rating_desc_nulls_last))
    = (Ok qs', [], h') /\
    query_annotations qs'
    = query_annotations (plain_queryset [ByExpr 0%nat; ByName "-id"])
      ++ [("sentinel"%string, condition)] /\
    forall r : row,
      eval condition r
      = same_in_all [rating_desc_nulls_last; F_desc "id"] [VNone; VInt 10] r.
Proof.
  apply (sentinel_marks_cursor_rows "b" "sentinel" "b"
           (plain_queryset [ByExpr 0%nat; ByName "-id"]) [VNone; VInt 10]
           (snd (alloc empty_heap rating_desc_nulls_last))
           [rating_desc_nulls_last; F_desc "id"]).
  - intros l [H|[H|[]]]; [|discriminate H]. inversion H. simpl. lia.
  - reflexivity.
  - intros x; reflexivity.
  - split; [|split; [|split]].
    + repeat constructor; simpl; intuition discriminate.
    + repeat constructor.
    + constructor; [intros _; left; reflexivity|].
      constructor; [intros H; discriminate H|]. constructor.
    + reflexivity.
Defined.

(** ** Cursors that end in a null *)

Lemma loop_body_skipped (n i : Z) (c : OrderBy) (s : value) (st : loop_state) :
  skipped c s = true ->
  q (loop_body n i c s st) = q st /\
  warnings (loop_body n i c s st) = warnings st.
Proof.
  unfold skipped. intros H. apply andb_prop in H. destruct H as (Hs & Hl).
  destruct s; try discriminate Hs.
  unfold loop_body. rewrite Hl. split; reflexivity.
Qed.

Lemma filter_turns_all_skipped (cs : list OrderBy) :
  forall (ss : list value) (n i : Z) (st : loop_state),
    all_skipped cs ss = true ->
    q (filter_turns n i (combine cs ss) st) = q st /\
    warnings (filter_turns n i (combine cs ss) st) = warnings st.
Proof.
  induction cs as [|c cs IH]; intros ss n i st H.
  - split; reflexivity.
  - destruct ss as [|s ss]; [split; reflexivity|].
    unfold all_skipped in H. cbn [combine forallb fst snd] in H.
    apply andb_prop in H. destruct H as (Hc & Hrest).
    cbn [combine filter_turns].
    destruct (IH ss n (i + 1) (loop_body n i c s st) Hrest) as (Hq & Hw).
    destruct (loop_body_skipped n i c s st Hc) as (Hq1 & Hw1).
    split; congruence.
Qed.

(** X14.  A cursor made of nulls only, on columns that all put nulls last,
    is no position at all for the forward filter: every turn of the loop
    only extends the prefix, [q] stays empty, and the queryset given comes
    back itself, with no filter and no sentinel annotation, and nothing
    logged.  The ordering with no column and the empty cursor are the
    smallest case. *)
Theorem all_null_cursor_unfiltered (KEY_BACK SENTINEL_NAME direction : string)
  (qs : queryset) (start_position : list value) (h : heap) (columns : list OrderBy) :
  (forall l : loc, In (ByExpr l) (get_order_by qs) -> (l < next h)%nat) ->
  map (denote_item h) (get_order_by qs) = columns ->
  direction <> KEY_BACK ->
  List.length start_position = List.length columns ->
  all_skipped columns start_position = true ->
  exists h' : heap,
    filter_by_order_key KEY_BACK SENTINEL_NAME qs direction start_position h
    = (Ok qs, [], h').
Proof.
  intros Hv Hcols Hdir Hlen Hall.
  destruct (filter_by_order_key_forward_columns KEY_BACK SENTINEL_NAME direction qs
              start_position h columns Hdir Hv Hcols Hlen) as (h' & E).
  cbv zeta in E. exists h'. rewrite E.
  destruct (filter_turns_all_skipped columns start_position (len columns) 0
              initial_state Hall) as (Hq & Hw).
  rewrite Hq, Hw. reflexivity.
Qed.

Lemma all_null_cursor_unfiltered_witness :
  exists h' : heap,
    filter_by_order_key "b" "sentinel" (plain_queryset [ByExpr 0%nat; ByExpr 1%nat])
      "f" [VNone; VNone]
      (snd (alloc (snd (alloc empty_heap rating_desc_nulls_last)) (asc_nulls_last "name")))
    = (Ok (plain_queryset [ByExpr 0%nat; ByExpr 1%nat]), [], h').
Proof.
  apply (all_null_cursor_unfiltered "b" "sentinel" "f"
           (plain_queryset [ByExpr 0%nat; ByExpr 1%nat]) [VNone; VNone]
           (snd (alloc (snd (alloc empty_heap rating_desc_nulls_last)) (asc_nulls_last "name")))
           [rating_desc_nulls_last; asc_nulls_last "name"]).
  - intros l [H|[H|[]]]; inversion H; simpl; lia.
  - reflexivity.
  - discriminate.
  - reflexivity.
  - reflexivity.
Defined.

Lemma after_excludes_same (c : OrderBy) (s : value) (r : row) :
  after_in_column c s r = true -> same_in_column c s r = false.
Proof.
  unfold after_in_column, same_in_column, col_lt, col_gt, col_eq, col_is_null.
  destruct (is_null s) eqn:Es.
  - destruct (truthy (nulls_last c)); [discriminate|].
    destruct (is_null (r (expression_name c))); [discriminate|reflexivity].
  - destruct (is_null (r (expression_name c))) eqn:Er.
    + assert (N : compare_values (r (expression_name c)) s = None).
      { destruct (r (expression_name c)); try discriminate Er. reflexivity. }
      rewrite N. reflexivity.
    + destruct (compare_values (r (expression_name c)) s) as [[| |]|];
        destruct (descending c); cbn [is_cmp orb andb];
        rewrite ?andb_false_r; cbn [orb]; intros H; try discriminate H; reflexivity.
Qed.

Lemma emitted_not_last (c : OrderBy) (s : value) (r : row) :
  emitted c s false r = after_in_column c s r.
Proof.
  unfold emitted, after_in_column. destruct (descending c); reflexivity.
Qed.

(** With a null at the end of the cursor, in a column that puts nulls
    last, the branches gathered are those of the rows strictly after the
    cursor. *)
Lemma branches_null_tail (cs : list OrderBy) :
  forall (ss : list value) (r : row),
    List.length ss = List.length cs ->
    skipped (last cs (F_asc "")) (last ss VNone) = true ->
    branches cs ss r = at_or_after cs ss r && negb (same_in_all cs ss r).
Proof.
  induction cs as [|c cs IH]; intros ss r Hlen Hlast.
  - destruct ss; [discriminate Hlast|discriminate Hlen].
  - destruct ss as [|s ss]; [discriminate Hlen|].
    destruct cs as [|c' cs].
    + destruct ss; [|discriminate Hlen]. cbn [last] in Hlast.
      unfold skipped in Hlast. apply andb_prop in Hlast. destruct Hlast as (Hs & Hl).
      cbn [branches at_or_after same_in_all no_more].
      unfold emitted, after_in_column. rewrite Hs, Hl.
      destruct (same_in_column c s r); reflexivity.
    + destruct ss as [|s' ss]; [discriminate Hlen|].
      assert (IH' := IH (s' :: ss) r).
      cbn [branches at_or_after same_in_all no_more] in *.
      rewrite emitted_not_last.
      rewrite IH'; [|cbn [List.length] in *; lia|exact Hlast].
      destruct (after_in_column c s r) eqn:Ea.
      * rewrite (after_excludes_same c s r Ea). reflexivity.
      * destruct (same_in_column c s r); [|reflexivity].
        cbn [orb andb]. reflexivity.
Qed.

Lemma loop_body_emits (n i : Z) (c : OrderBy) (s : value) (st : loop_state) :
  skipped c s = false ->
  policy_where_null c s ->
  q_bool (q (loop_body n i c s st)) = true.
Proof.
  intros Hsk Hpol.
  destruct (is_null s) eqn:Es; [|apply loop_body_q_not_empty; exact Es].
  destruct s; try discriminate Es.
  unfold skipped in Hsk. cbn [is_null andb] in Hsk.
  destruct (Hpol eq_refl) as [Hl|Hf]; [congruence|].
  unfold loop_body. rewrite Hsk, Hf. cbn [q].
  rewrite q_bool_q_or, q_bool_Q_kwargs, dict_set_not_empty. apply orb_true_r.
Qed.

Lemma filter_turns_emits (cs : list OrderBy) :
  forall (ss : list value) (n i : Z) (st : loop_state),
    Forall2 policy_where_null cs ss ->
    all_skipped cs ss = false ->
    q_bool (q (filter_turns n i (combine cs ss) st)) = true.
Proof.
  induction cs as [|c cs IH]; intros ss n i st Hpol Hall.
  - discriminate Hall.
  - destruct ss as [|s ss]; [discriminate Hall|].
    apply Forall2_cons_iff in Hpol. destruct Hpol as (Hp & Hpol).
    unfold all_skipped in Hall. cbn [combine forallb fst snd] in Hall.
    cbn [combine filter_turns].
    destruct (skipped c s) eqn:Hsk.
    + apply IH; [exact Hpol|exact Hall].
    + apply filter_turns_q_stays. apply loop_body_emits; assumption.
Qed.

(** X15.  When the cursor ends in a null and the last column puts nulls
    last, while an earlier turn gives a branch, the forward filter holds
    exactly on the rows strictly after the cursor: the turn of the last
    column adds no branch, so the rows that have the cursor values in
    every column, the row of the cursor among them, are left out. *)
Theorem null_tail_cursor_excludes_cursor_rows
  (KEY_BACK SENTINEL_NAME direction : string)
  (qs : queryset) (start_position : list value) (h : heap) (columns : list OrderBy) :
  (forall l : loc, In (ByExpr l) (get_order_by qs) -> (l < next h)%nat) ->
  map (denote_item h) (get_order_by qs) = columns ->
  direction <> KEY_BACK ->
  (forall x : Q, engine_rejects qs x = false) ->
  NoDup (map expression_name columns) ->
  Forall (fun c => plain_name (expression_name c)) columns ->
  Forall2 policy_where_null columns start_position ->
  skipped (last columns (F_asc "")) (last start_position VNone) = true ->
  all_skipped columns start_position = false ->
  exists (qs' : queryset) (h' : heap) (boundary : Q),
    filter_by_order_key KEY_BACK SENTINEL_NAME qs direction start_position h
    = (Ok qs', [], h') /\
    query_where qs' = query_where qs ++ [boundary] /\
    (forall r : row,
        eval boundary r
        = at_or_after columns start_position r
          && negb (same_in_all columns start_position r)) /\
    (forall r : row,
        same_in_all columns start_position r = true -> selects qs' r = false).
Proof.
  intros Hv Hcols Hdir Hacc Hnd Hpl Hpol Hlast Hall.
  assert (Hlen : List.length start_position = List.length columns).
  { symmetry. eapply Forall2_length. exact Hpol. }
  destruct (filter_by_order_key_forward_columns KEY_BACK SENTINEL_NAME direction qs
              start_position h columns Hdir Hv Hcols Hlen) as (h' & E).
  cbv zeta in E.
  destruct (filter_turns_branches columns start_position (len columns) 0 initial_state)
    as (Hw & Hq); auto.
  pose proof (filter_turns_emits columns start_position (len columns) 0 initial_state
                Hpol Hall) as Hb.
  set (st := filter_turns (len columns) 0 (combine columns start_position) initial_state) in *.
  destruct (apply_filter_accepted SENTINEL_NAME qs (q st)
              (sentinel_of (combine columns start_position)) Hacc Hb)
    as (qs' & A & W & _).
  assert (Hev : forall r : row,
             eval (q st) r
             = at_or_after columns start_position r
               && negb (same_in_all columns start_position r)).
  { intros r. specialize (Hq r). unfold some_branch in Hq. rewrite Hb in Hq.
    cbn [andb initial_state q q_bool filter_combinations prefix_holds forallb orb] in Hq.
    rewrite Hq. apply branches_null_tail; assumption. }
  exists qs', h', (q st).
  split; [rewrite E, A, Hw; reflexivity|]. split; [exact W|]. split; [exact Hev|].
  intros r Hsame. rewrite (selects_after_filter qs qs' (q st) r W), Hev, Hsame.
  cbn [negb]. rewrite !andb_false_r. reflexivity.
Qed.

Lemma null_tail_cursor_excludes_cursor_rows_witness :
  exists (qs' : queryset) (h' : heap) (boundary : Q),
    filter_by_order_key "b" "sentinel" (plain_queryset [ByName "id"; ByExpr 0%nat])
      "f" [VInt 10; VNone] (snd (alloc empty_heap rating_desc_nulls_last))
    = (Ok qs', [], h') /\
    query_where qs'
    = query_where (plain_queryset [ByName "id"; ByExpr 0%nat]) ++ [boundary] /\
    (forall r : row,
        eval boundary r
        = at_or_after [F_asc "id"; rating_desc_nulls_last] [VInt 10; VNone] r
          && negb (same_in_all [F_asc "id"; rating_desc_nulls_last] [VInt 10; VNone] r)) /\
    (forall r : row,
        same_in_all [F_asc "id"; rating_desc_nulls_last] [VInt 10; VNone] r = true ->
        selects qs' r = false).
Proof.
  apply (null_tail_cursor_excludes_cursor_rows "b" "sentinel" "f"
           (plain_queryset [ByName "id"; ByExpr 0%nat]) [VInt 10; VNone]
           (snd (alloc empty_heap rating_desc_nulls_last))
           [F_asc "id"; rating_desc_nulls_last]).
  - intros l [H|[H|[]]]; [discriminate H|]. inversion H. simpl. lia.
  - reflexivity.
  - discriminate.
  - intros x; reflexivity.
  - repeat constructor; simpl; intuition discriminate.
  - repeat constructor.
  - constructor; [intros H; discriminate H|].
    constructor; [intros _; left; reflexivity|]. constructor.
  - reflexivity.
  - reflexivity.
Defined.

(** ** Objects listed more than once *)

Lemma invert_field_iter_name (k : nat) (o : OrderBy) :
  expression_name (Nat.iter k invert_field o) = expression_name o.
Proof.
  induction k as [|k IH]; cbn [Nat.iter nat_rect]; [reflexivity|].
  rewrite invert_field_name. exact IH.
Qed.

Lemma invert_field_iter_descending (k : nat) (o : OrderBy) :
  descending (Nat.iter k invert_field o) = xorb (descending o) (Nat.odd k).
Proof.
  induction k as [|k IH].
  - cbn [Nat.iter nat_rect]. destruct (descending o); reflexivity.
  - cbn [Nat.iter nat_rect]. rewrite invert_field_descending.
    unfold Nat.iter in IH. rewrite IH, Nat.odd_succ, <- Nat.negb_odd.
    destruct (descending o), (Nat.odd k); reflexivity.
Qed.

(** X16.  [invert_order_by] returns fresh copies and leaves the objects of
    the caller as they were; the copies share as the originals do, and the
    loop flips a copy once for each place the object has in the list: an
    [OrderBy] object listed an even number of times comes out with the
    direction it had, not inverted. *)
Theorem invert_order_by_counts_listings (order_by : list loc) (h : heap) :
  (forall l : loc, In l order_by -> (l < next h)%nat) ->
  exists (copies : list loc) (h' : heap),
    invert_order_by order_by h = (copies, h') /\
    Forall2 (fun l c =>
               (next h <= c)%nat /\
               occurrences copies c = occurrences order_by l /\
               expression_name (cells h' c) = expression_name (cells h l) /\
               descending (cells h' c)
               = xorb (descending (cells h l)) (Nat.odd (occurrences order_by l)))
            order_by copies /\
    read h' order_by = read h order_by.
Proof.
  intros Hv.
  destruct (invert_order_by_spec order_by h Hv) as (copies & h' & E & F2 & Fr & _).
  exists copies, h'. split; [exact E|]. split.
  - eapply Forall2_impl; [|exact F2].
    intros l c (Hc & Ho & Hn). cbv beta. rewrite Hc.
    rewrite invert_field_iter_name, invert_field_iter_descending.
    repeat split; [lia|exact Ho].
  - unfold read. apply map_ext_in. intros l Hin. apply Fr. apply Hv. exact Hin.
Qed.

Lemma invert_order_by_counts_listings_witness :
  exists (copies : list loc) (h' : heap),
    invert_order_by [0%nat; 1%nat; 0%nat]
      (snd (alloc (snd (alloc empty_heap rating_desc_nulls_last)) (F_asc "id")))
    = (copies, h') /\
    Forall2 (fun l c =>
               (next (snd (alloc (snd (alloc empty_heap rating_desc_nulls_last))
                             (F_asc "id"))) <= c)%nat /\
               occurrences copies c = occurrences [0%nat; 1%nat; 0%nat] l /\
               expression_name (cells h' c)
               = expression_name
                   (cells (snd (alloc (snd (alloc empty_heap rating_desc_nulls_last))
                                  (F_asc "id"))) l) /\
               descending (cells h' c)
               = xorb (descending
                         (cells (snd (alloc (snd (alloc empty_heap rating_desc_nulls_last))
                                        (F_asc "id"))) l))
                      (Nat.odd (occurrences [0%nat; 1%nat; 0%nat] l)))
            [0%nat; 1%nat; 0%nat] copies /\
    read h' [0%nat; 1%nat; 0%nat]
    = read (snd (alloc (snd (alloc empty_heap rating_desc_nulls_last)) (F_asc "id")))
        [0%nat; 1%nat; 0%nat].
Proof.
  apply (invert_order_by_counts_listings [0%nat; 1%nat; 0%nat]
           (snd (alloc (snd (alloc empty_heap rating_desc_nulls_last)) (F_asc "id")))).
  intros l [H|[H|[H|[]]]]; subst l; simpl; lia.
Defined.

(** ** What the filter leaves of its arguments *)



Lemma apply_filter_extends (SENTINEL_NAME : string) (qs : queryset) (b : Q) (d : dict) :
  match apply_filter SENTINEL_NAME qs b d with
  | Raise e => e = InvalidPage
  | Ok qs' => extends_by_filter SENTINEL_NAME qs qs'
  end.
Proof.
  unfold apply_filter, extends_by_filter.
  destruct (q_bool b).
  - unfold qs_filter. destruct (engine_rejects qs b); cbn [bind]; [reflexivity|].
    unfold qs_annotate. cbn [engine_rejects].
    destruct (engine_rejects qs (Q_kwargs d)); [reflexivity|].
    cbn [meta_ordering query_order_by query_where query_annotations].
    split; [reflexivity|]. split; [reflexivity|].
    right. exists b, (Q_kwargs d). split; reflexivity.
  - split; [reflexivity|]. split; [reflexivity|]. left. reflexivity.
Qed.



(** ** Values the codec knows by their text *)





(** ** The key of an object *)

Lemma lstrip_single_dash (name : string) :
  substring 0 2 name <> "--"%string ->
  lstrip "-" name
  = if String.eqb (substring 0 1 name) "-"
    then substring 1 (String.length name - 1) name
    else name.
Proof.
  intros H. destruct name as [|c rest]; [reflexivity|].
  cbn [lstrip str_in orb].
  assert (S1 : substring 0 1 (String c rest) = String c "").
  { cbn [substring]. destruct rest; reflexivity. }
  rewrite S1. rewrite orb_false_r.
  assert (Ec : String.eqb (String c "") "-" = Ascii.eqb c "-"%char).
  { cbn [String.eqb]. destruct (Ascii.eqb c "-"%char); reflexivity. }
  rewrite Ec.
  destruct (Ascii.eqb_spec c "-"%char) as [->|Hc]; [|reflexivity].
  cbn [String.length Nat.sub substring]. rewrite Nat.sub_0_r, substring_full.
  destruct rest as [|c' rest']; [reflexivity|].
  cbn [lstrip str_in orb]. rewrite orb_false_r.
  destruct (Ascii.eqb_spec c' "-"%char) as [->|Hc']; [|reflexivity].
  exfalso. apply H. cbn [substring]. destruct rest'; reflexivity.
Qed.

(** With at most one leading dash, the path read for an entry is the
    column the filter compares for it. *)
Lemma order_key_attribute_denote (h : heap) (f : order_item) :
  single_dash f ->
  order_key_attribute h f = expression_name (denote_item h f).
Proof.
  destruct f as [name|l]; cbn [single_dash order_key_attribute denote_item];
    [|reflexivity].
  intros H. rewrite (lstrip_single_dash name H).
  destruct (String.eqb (substring 0 1 name) "-"); reflexivity.
Qed.

Lemma get_order_key_ext {object error : Type} (getattr : object -> string -> error + object)
  (obj : object) (a : list order_item) :
  forall (b : list order_item) (h h' : heap),
    map (order_key_attribute h) a = map (order_key_attribute h') b ->
    get_order_key getattr obj a h = get_order_key getattr obj b h'.
Proof.
  induction a as [|f a IH]; intros [|g b] h h' E; try discriminate E; [reflexivity|].
  cbn [map] in E. inversion E as [[E1 E2]].
  cbn [get_order_key]. rewrite E1, (IH b h h' E2). reflexivity.
Qed.

(** X19.  [get_order_key] reads, for an ordering as it is written, the
    attributes named by the columns [filter_by_order_key] compares after
    [convert_order_by_to_expressions]: the key of an object is the same on
    the ordering and on its expressions, when no field name begins with
    two dashes ([lstrip] takes every leading dash, the conversion one). *)
Theorem get_order_key_of_expressions {object error : Type}
  (getattr : object -> string -> error + object) (obj : object)
  (order_by : list order_item) (h : heap) (expressions : list loc) (h' : heap) :
  (forall l : loc, In (ByExpr l) order_by -> (l < next h)%nat) ->
  Forall single_dash order_by ->
  convert_order_by_to_expressions order_by h = (expressions, h') ->
  get_order_key getattr obj (map ByExpr expressions) h'
  = get_order_key getattr obj order_by h.
Proof.
  intros Hv Hd E.
  destruct (convert_order_by_spec order_by h Hv expressions h' E) as (R & _).
  apply get_order_key_ext.
  rewrite map_map. cbn [order_key_attribute].
  transitivity (map expression_name (read h' expressions)).
  { unfold read. rewrite map_map. reflexivity. }
  rewrite R, map_map. apply map_ext_in.
  intros f Hin. symmetry. apply order_key_attribute_denote.
  rewrite Forall_forall in Hd. apply Hd. exact Hin.
Qed.

Lemma get_order_key_of_expressions_witness :
  get_order_key review_getattr review (map ByExpr [0%nat; 1%nat])
    (snd (convert_order_by_to_expressions [ByExpr 0%nat; ByName "-id"]
            (snd (alloc empty_heap rating_desc_nulls_last))))
  = get_order_key review_getattr review [ByExpr 0%nat; ByName "-id"]
      (snd (alloc empty_heap rating_desc_nulls_last)).
Proof.
  apply (get_order_key_of_expressions review_getattr review
           [ByExpr 0%nat; ByName "-id"]
           (snd (alloc empty_heap rating_desc_nulls_last))).
  - intros l [H|[H|[]]]; [|discriminate H]. inversion H. simpl. lia.
  - repeat constructor. discriminate.
  - reflexivity.
Defined.

(** The ordering [filter_by_order_key] leaves on the queryset names, in
    the store it leaves, the attributes the ordering given names. *)
Lemma filter_by_order_key_ordering (KEY_BACK SENTINEL_NAME direction : string)
  (qs : queryset) (start_position : list value) (h : heap)
  (qs' : queryset) (log : list string) (h' : heap) :
  (forall l : loc, In (ByExpr l) (get_order_by qs) -> (l < next h)%nat) ->
  Forall single_dash (get_order_by qs) ->
  filter_by_order_key KEY_BACK SENTINEL_NAME qs direction start_position h
  = (Ok qs', log, h') ->
  map (order_key_attribute h') (get_order_by qs')
  = map (order_key_attribute h) (get_order_by qs).
Proof.
  intros Hv Hd H. unfold filter_by_order_key in H.
  destruct (convert_order_by_to_expressions (get_order_by qs) h) as [ls h1] eqn:E.
  destruct (convert_order_by_spec _ _ Hv _ _ E) as (R & L & N1 & V1 & Fr1).
  destruct (negb (len start_position =? len ls)); [discriminate H|].
  destruct (String.eqb direction KEY_BACK).
  - destruct (invert_order_by_spec ls h1 V1) as (copies & h2 & E2 & F2 & _).
    rewrite E2 in H. inversion H as [[A Hlog Hh]]. clear H. subst h'.
    pose proof (apply_filter_extends SENTINEL_NAME (qs_order_by qs copies)
                  (q (filter_loop h2 (len copies) 0 (combine copies start_position)
                        {| filter_combinations := []; q := QEmpty; warnings := [] |}))
                  (sentinel_query h2 (combine copies start_position))) as X.
    rewrite A in X. destruct X as (M & O & _).
    cbn [qs_order_by meta_ordering query_order_by] in M, O.
    assert (Names : map (fun c => expression_name (cells h2 c)) copies
                    = map (order_key_attribute h) (get_order_by qs)).
    { transitivity (map (fun l => expression_name (cells h1 l)) ls).
      - apply Forall2_map_eq. eapply Forall2_impl; [|exact F2].
        intros l c (Hc & _). cbv beta. rewrite Hc. apply invert_field_iter_name.
      - transitivity (map expression_name (read h1 ls)).
        { unfold read. rewrite map_map. reflexivity. }
        rewrite R, map_map. apply map_ext_in.
        intros f Hin. symmetry. apply order_key_attribute_denote.
        rewrite Forall_forall in Hd. apply Hd. exact Hin. }
    unfold get_order_by at 1. rewrite O.
    destruct copies as [|c copies].
    + cbn [map]. cbn [map] in Names. rewrite <- Names.
      rewrite M.
      assert (G : get_order_by qs = []).
      { destruct (get_order_by qs); [reflexivity|discriminate Names]. }
      unfold get_order_by in G.
      destruct (query_order_by qs); [rewrite G; reflexivity|discriminate G].
    + cbn [map]. cbn [map] in Names. rewrite <- Names.
      cbn [order_key_attribute]. rewrite map_map. reflexivity.
  - inversion H as [[A Hlog Hh]]. clear H. subst h1.
    pose proof (apply_filter_extends SENTINEL_NAME qs
                  (q (filter_loop h' (len ls) 0 (combine ls start_position)
                        {| filter_combinations := []; q := QEmpty; warnings := [] |}))
                  (sentinel_query h' (combine ls start_position))) as X.
    rewrite A in X. destruct X as (M & O & _).
    assert (G : get_order_by qs' = get_order_by qs).
    { unfold get_order_by. rewrite M, O. reflexivity. }
    rewrite G. apply map_ext_in.
    intros [name|l] Hin; cbn [order_key_attribute]; [reflexivity|].
    rewrite Fr1; [reflexivity|]. apply Hv. exact Hin.
Qed.

(** X20.  The ordering [filter_by_order_key] leaves on the queryset it
    returns, the inverted copies in the direction [KEY_BACK], gives every
    object the key the ordering given gives it: the key does not depend on
    the direction of the page.  Field names begin with one dash at
    most. *)
Theorem filter_keeps_order_key {object error : Type}
  (getattr : object -> string -> error + object) (obj : object)
  (KEY_BACK SENTINEL_NAME direction : string)
  (qs : queryset) (start_position : list value) (h : heap)
  (qs' : queryset) (log : list string) (h' : heap) :
  (forall l : loc, In (ByExpr l) (get_order_by qs) -> (l < next h)%nat) ->
  Forall single_dash (get_order_by qs) ->
  filter_by_order_key KEY_BACK SENTINEL_NAME qs direction start_position h
  = (Ok qs', log, h') ->
  get_order_key getattr obj (get_order_by qs') h'
  = get_order_key getattr obj (get_order_by qs) h.
Proof.
  intros Hv Hd H. apply get_order_key_ext.
  exact (filter_by_order_key_ordering KEY_BACK SENTINEL_NAME direction qs
           start_position h qs' log h' Hv Hd H).
Qed.

Lemma filter_keeps_order_key_witness :
  get_order_key review_getattr review
    (get_order_by
       (match fst (fst (filter_by_order_key "b" "sentinel" review_queryset "b"
                          [VNone; VInt 10] review_heap)) with
        | Ok qs' => qs'
        | Raise _ => review_queryset
        end))
    (snd (filter_by_order_key "b" "sentinel" review_queryset "b"
            [VNone; VInt 10] review_heap))
  = get_order_key review_getattr review (get_order_by review_queryset) review_heap.
Proof.
  apply (filter_keeps_order_key review_getattr review "b" "sentinel" "b"
           review_queryset [VNone; VInt 10] review_heap _ []).
  - intros l [H|[H|[]]]; [|discriminate H]. inversion H. simpl. lia.
  - repeat constructor. discriminate.
  - reflexivity.
Defined.

(** ** The object a cursor is read from *)

Lemma same_in_column_self (c : OrderBy) (s : value) (r : row) :
  r (expression_name c) = s ->
  self_equal s = true ->
  same_in_column c s r = true.
Proof.
  intros Hr Hs. unfold same_in_column, col_is_null, col_eq. rewrite Hr.
  unfold self_equal in Hs. destruct (is_null s); [reflexivity|exact Hs].
Qed.

Lemma key_same_in_all {object error : Type}
  (getattr : object -> string -> error + object) (column_value : object -> value)
  (obj : object) (h : heap) (order_by : list order_item) :
  forall key : list object,
    Forall single_dash order_by ->
    get_order_key getattr obj order_by h = inr key ->
    Forall (fun v => self_equal v = true) (map column_value key) ->
    same_in_all (map (denote_item h) order_by) (map column_value key)
      (row_of getattr column_value obj) = true.
Proof.
  induction order_by as [|f order_by IH]; intros key Hd E Hs; [reflexivity|].
  apply Forall_cons_iff in Hd. destruct Hd as (Hf & Hd).
  cbn [get_order_key] in E.
  destruct (get_model_attribute getattr obj (order_key_attribute h f))
    as [e|attribute] eqn:Ea; [discriminate E|].
  destruct (get_order_key getattr obj order_by h) as [e|key'] eqn:Ek; [discriminate E|].
  inversion E; subst key. clear E.
  cbn [map] in Hs. apply Forall_cons_iff in Hs. destruct Hs as (Hs1 & Hs).
  cbn [map same_in_all].
  rewrite (IH key' Hd eq_refl Hs), andb_true_r.
  apply same_in_column_self; [|exact Hs1].
  unfold row_of. rewrite <- (order_key_attribute_denote h f Hf), Ea. reflexivity.
Qed.

Lemma same_in_all_at_or_after (cs : list OrderBy) :
  forall (ss : list value) (r : row),
    same_in_all cs ss r = true -> at_or_after cs ss r = true.
Proof.
  induction cs as [|c cs IH]; intros [|s ss] r H; try reflexivity.
  cbn [same_in_all at_or_after] in *.
  apply andb_prop in H. destruct H as (H1 & H2).
  rewrite H1, (IH ss r H2). apply orb_true_r.
Qed.

Lemma same_in_all_at_or_before (cs : list OrderBy) :
  forall (ss : list value) (r : row),
    same_in_all cs ss r = true -> at_or_before cs ss r = true.
Proof.
  induction cs as [|c cs IH]; intros [|s ss] r H; try reflexivity.
  cbn [same_in_all at_or_before] in *.
  apply andb_prop in H. destruct H as (H1 & H2).
  rewrite H1, (IH ss r H2). apply orb_true_r.
Qed.

(** X21.  The page a cursor opens holds the object the cursor was read
    from.  Let the key of an object be read by [get_order_key] on the
    ordering of the queryset, and let the values of the key be the cursor.
    Under the conditions of X10, with field names of one leading dash at
    most and key values the database finds equal to themselves, the
    queryset [filter_by_order_key] returns, in either direction, returns
    the row of the object when the queryset given does, and its sentinel
    annotation holds on that row. *)
Theorem cursor_object_is_on_its_page {object error : Type}
  (getattr : object -> string -> error + object) (column_value : object -> value)
  (obj : object) (key : list object)
  (KEY_BACK SENTINEL_NAME direction : string)
  (qs : queryset) (h : heap) (columns : list OrderBy) :
  (forall l : loc, In (ByExpr l) (get_order_by qs) -> (l < next h)%nat) ->
  map (denote_item h) (get_order_by qs) = columns ->
  Forall single_dash (get_order_by qs) ->
  get_order_key getattr obj (get_order_by qs) h = inr key ->
  Forall (fun v => self_equal v = true) (map column_value key) ->
  (forall x : Q, engine_rejects qs x = false) ->
  keyset_ready columns (map column_value key) ->
  exists (qs' : queryset) (h' : heap) (condition : Q),
    filter_by_order_key KEY_BACK SENTINEL_NAME qs direction (map column_value key) h
    = (Ok qs', [], h') /\
    selects qs' (row_of getattr column_value obj)
    = selects qs (row_of getattr column_value obj) /\
    query_annotations qs' = query_annotations qs ++ [(SENTINEL_NAME, condition)] /\
    eval condition (row_of getattr column_value obj) = true.
Proof.
  intros Hv Hcols Hd Hkey Hself Hacc Hready.
  pose proof (key_same_in_all getattr column_value obj h (get_order_by qs) key
                Hd Hkey Hself) as Hsame.
  rewrite Hcols in Hsame.
  destruct (filter_sentinel_keyset KEY_BACK SENTINEL_NAME direction qs
              (map column_value key) h columns Hv Hcols Hacc Hready)
    as (qs' & h' & condition & E & An & Hc).
  exists qs', h', condition.
  split; [exact E|]. split; [|split; [exact An|rewrite Hc; exact Hsame]].
  destruct (String.eqb_spec direction KEY_BACK) as [->|Hdir].
  - destruct (filter_backward_keyset KEY_BACK SENTINEL_NAME qs (map column_value key) h
                columns Hv Hcols Hacc Hready)
      as (qb & hb & bb & once & Eb & _ & _ & _ & _ & _ & Sb).
    rewrite E in Eb. inversion Eb; subst qb.
    rewrite Sb, (same_in_all_at_or_before _ _ _ Hsame). apply andb_true_r.
  - destruct (filter_forward_keyset KEY_BACK SENTINEL_NAME direction qs
                (map column_value key) h columns Hv Hcols Hdir Hacc Hready)
      as (qf & hf & bf & Ef & _ & _ & _ & Sf).
    rewrite E in Ef. inversion Ef; subst qf.
    rewrite Sf, (same_in_all_at_or_after _ _ _ Hsame). apply andb_true_r.
Qed.

Lemma cursor_object_is_on_its_page_witness :
  exists (qs' : queryset) (h' : heap) (condition : Q),
    filter_by_order_key "b" "sentinel" review_queryset "b"
      (map (fun v : value => v) [VNone; VInt 10]) review_heap
    = (Ok qs', [], h') /\
    selects qs' (row_of review_getattr (fun v : value => v) review)
    = selects review_queryset (row_of review_getattr (fun v : value => v) review) /\
    query_annotations qs'
    = query_annotations review_queryset ++ [("sentinel"%string, condition)] /\
    eval condition (row_of review_getattr (fun v : value => v) review) = true.
Proof.
  apply (cursor_object_is_on_its_page review_getattr (fun v : value => v) review
           [VNone; VInt 10] "b" "sentinel" "b" review_queryset review_heap
           [rating_desc_nulls_last; F_desc "id"]).
  - intros l [H|[H|[]]]; [|discriminate H]. inversion H. simpl. lia.
  - reflexivity.
  - repeat constructor. discriminate.
  - reflexivity.
  - repeat constructor.
  - intros x; reflexivity.
  - split; [|split; [|split]].
    + repeat constructor; simpl; intuition discriminate.
    + repeat constructor.
    + constructor; [intros _; left; reflexivity|].
      constructor; [intros H; discriminate H|]. constructor.
    + reflexivity.
Defined.

(** ** Paths of attributes *)

Lemma split_loop_cons (sep : string) (c : ascii) (rest current : string) :
  split_loop sep (String c rest) 0 current
  = if String.prefix sep (String c rest)
    then current :: split_loop sep rest (String.length sep - 1) ""
    else split_loop sep rest 0 (current ++ String c "").
Proof. reflexivity. Qed.

Lemma split_loop_skip (sep : string) (c : ascii) (rest current : string) (k : nat) :
  split_loop sep (String c rest) (S k) current = split_loop sep rest k current.
Proof. reflexivity. Qed.

Lemma prefix_sep (s : string) :
  String.prefix "__" s
  = match s with
    | String x (String y _) => Ascii.eqb x "_" && Ascii.eqb y "_"
    | _ => false
    end.
Proof.
  destruct s as [|x [|y s]]; cbn [String.prefix].
  - reflexivity.
  - destruct (ascii_dec "_" x); reflexivity.
  - destruct (ascii_dec "_" x) as [<-|Hx].
    + destruct (ascii_dec "_" y) as [<-|Hy]; [destruct s; reflexivity|].
      destruct (Ascii.eqb_spec y "_"); [congruence|reflexivity].
    + destruct (Ascii.eqb_spec x "_"); [congruence|reflexivity].
Qed.

Lemma ends_with_tail (x c : ascii) (a : string) :
  ends_with x (String c a) = false -> ends_with x a = false.
Proof. destruct a; [reflexivity|]. intros H. exact H. Qed.

Lemma prefix_sep_app (c : ascii) (a b : string) :
  ends_with "_" (String c a) = false ->
  String.prefix "__" (String c (a ++ "__" ++ b)) = String.prefix "__" (String c a).
Proof.
  intros H. rewrite !prefix_sep.
  destruct a as [|y a]; cbn [append].
  - cbn [ends_with] in H. rewrite H. reflexivity.
  - reflexivity.
Qed.

(** A path cut after a piece that does not end in an underscore is cut
    there by [split] too. *)
Lemma split_loop_path (a : string) :
  forall (b : string) (skip : nat) (current : string),
    ends_with "_" a = false ->
    (skip <= 1)%nat ->
    (skip <= String.length a)%nat ->
    split_loop "__" (a ++ "__" ++ b) skip current
    = split_loop "__" a skip current ++ split_loop "__" b 0 "".
Proof.
  induction a as [|c a IH]; intros b skip current He H1 Hl.
  - cbn [String.length] in Hl. assert (skip = 0%nat) by lia. subst skip.
    cbn [append]. rewrite split_loop_cons, prefix_sep. reflexivity.
  - change ((String c a ++ "__" ++ b)%string) with (String c (a ++ "__" ++ b)).
    destruct skip as [|k].
    + rewrite !split_loop_cons, (prefix_sep_app c a b He).
      destruct (String.prefix "__" (String c a)) eqn:P.
      * cbn [String.length Nat.sub app]. f_equal.
        apply IH; [exact (ends_with_tail _ _ _ He)|lia|].
        rewrite prefix_sep in P. destruct a; [discriminate P|].
        cbn [String.length]. lia.
      * apply IH; [exact (ends_with_tail _ _ _ He)|lia|lia].
    + rewrite !split_loop_skip.
      apply IH; [exact (ends_with_tail _ _ _ He)|lia|].
      cbn [String.length] in Hl. lia.
Qed.

Lemma getattr_loop_app {object error : Type}
  (getattr : object -> string -> error + object) (xs ys : list string) :
  forall obj : object,
    getattr_loop getattr obj (xs ++ ys)
    = match getattr_loop getattr obj xs with
      | inl e => inl e
      | inr related => getattr_loop getattr related ys
      end.
Proof.
  induction xs as [|x xs IH]; intros obj; cbn [app getattr_loop]; [reflexivity|].
  destruct (getattr obj x) as [e|o]; [reflexivity|]. apply IH.
Qed.

(** X22.  [get_model_attribute] follows a path: on [a__b], where [a] is a
    path that does not end in an underscore, it reads [b] on the object it
    reads for [a], and raises what [a] raises. *)
Theorem get_model_attribute_follows_path {object error : Type}
  (getattr : object -> string -> error + object) (obj : object) (a b : string) :
  ends_with "_" a = false ->
  get_model_attribute getattr obj (a ++ LOOKUP_SEP ++ b)
  = match get_model_attribute getattr obj a with
    | inl e => inl e
    | inr related => get_model_attribute getattr related b
    end.
Proof.
  intros He. unfold get_model_attribute, str_split, LOOKUP_SEP.
  rewrite (split_loop_path a b 0 "" He) by lia.
  apply getattr_loop_app.
Qed.

Lemma get_model_attribute_follows_path_witness :
  get_model_attribute review_getattr review ("rating" ++ LOOKUP_SEP ++ "id")
  = match get_model_attribute review_getattr review "rating" with
    | inl e => inl e
    | inr related => get_model_attribute review_getattr related "id"
    end.
Proof.
  apply (get_model_attribute_follows_path review_getattr review "rating" "id").
  reflexivity.
Defined.
